(** * Music45: lyrics parsing / synchronisation and quality-tiered URL selection

    A shallow embedding of [src/services/lyrics.ts], of the helpers of
    [src/utils/helpers.ts], of the quality setting of the storage service
    and of the choice of the next song in [src/main.ts], together with the
    pieces of the JavaScript run-time they rest on:

    - strings are sequences of code units; the embedding uses [string], so a
      code unit is one of the 256 values of [ascii];
    - regular expressions are a small abstract syntax with a backtracking
      matcher; a regular expression object with the [g] flag carries its
      mutable [lastIndex], which is threaded explicitly through
      [parseLrcLyrics], [isLrcFormat] and [getBestLyrics];
    - numbers are IEEE 754 binary64 values ([spec_float] at precision 53),
      with the arithmetic of the standard library's [SpecFloat]; they are
      compared by value, and a decimal literal is rounded once, to the
      nearest number;
    - [Array.prototype.sort] is a stable insertion sort;
    - [applyOffset], whose result must not share anything with its
      argument, works on a store of array and object cells;
    - [Math.random()] is a list of draws, and [localStorage] a list of keys
      with their values whose [setItem] may throw.

    The definitions come first, then the vocabulary of the statements, then
    the results, one section for each subject. *)

From Stdlib Require Import ZArith String Ascii List Bool Lia Permutation.
From Stdlib Require Import SpecFloat DecimalString.
Import ListNotations.

Local Open Scope string_scope.
Local Open Scope list_scope.

(* ================================================================= *)
(** * Strings *)

Definition LF : ascii := "010"%char.

(** White space and line terminators of ECMAScript that are code units
    below 256: TAB, LF, VT, FF, CR, SP and NBSP. *)
Definition is_whitespace (c : ascii) : bool :=
  match N_of_ascii c with
  | 9%N | 10%N | 11%N | 12%N | 13%N | 32%N | 160%N => true
  | _ => false
  end.

Definition is_digit (c : ascii) : bool :=
  let n := N_of_ascii c in (N.leb 48 n && N.leb n 57)%bool.

Definition is_empty (s : string) : bool :=
  match s with EmptyString => true | String _ _ => false end.

(** [s.substring(n)] *)
Fixpoint drop (n : nat) (s : string) : string :=
  match n, s with
  | O, _ => s
  | S _, EmptyString => EmptyString
  | S k, String _ s' => drop k s'
  end.

(** [s.substring(0, n)] *)
Fixpoint take (n : nat) (s : string) : string :=
  match n, s with
  | O, _ => EmptyString
  | S _, EmptyString => EmptyString
  | S k, String c s' => String c (take k s')
  end.

(** [s.trimStart()] *)
Fixpoint trimStart (s : string) : string :=
  match s with
  | EmptyString => EmptyString
  | String c s' => if is_whitespace c then trimStart s' else s
  end.

(** [s.trimEnd()] *)
Fixpoint trimEnd (s : string) : string :=
  match s with
  | EmptyString => EmptyString
  | String c s' =>
      match trimEnd s' with
      | EmptyString => if is_whitespace c then EmptyString else String c EmptyString
      | t => String c t
      end
  end.

(** [s.trim()] *)
Definition trim (s : string) : string := trimEnd (trimStart s).

(** [s.split('\n')]: the pieces between line feeds; a string without a line
    feed is its only piece. *)
Fixpoint split_lines (s : string) : list string :=
  match s with
  | EmptyString => [EmptyString]
  | String c s' =>
      if Ascii.eqb c LF then EmptyString :: split_lines s'
      else match split_lines s' with
           | [] => [String c EmptyString]
           | piece :: pieces => String c piece :: pieces
           end
  end.

(** [pieces.join('\n')] *)
Fixpoint join_lines (pieces : list string) : string :=
  match pieces with
  | [] => EmptyString
  | [p] => p
  | p :: rest => p ++ String LF (join_lines rest)
  end.

(** [s.padStart(n, '0')] *)
Definition padStart0 (n : nat) (s : string) : string :=
  string_of_list_ascii (repeat "0"%char (n - String.length s)) ++ s.

(** The longest prefix of decimal digits, and what follows it. *)
Fixpoint span_digits (s : string) : string * string :=
  match s with
  | String c s' =>
      if is_digit c then let (ds, r) := span_digits s' in (String c ds, r)
      else (EmptyString, s)
  | EmptyString => (EmptyString, EmptyString)
  end.

(** The mathematical value of a string of decimal digits. *)
Fixpoint digits_value_from (acc : Z) (s : string) : Z :=
  match s with
  | EmptyString => acc
  | String c s' => digits_value_from (10 * acc + (Z.of_N (N_of_ascii c) - 48)) s'
  end.

Definition digits_value (s : string) : Z := digits_value_from 0 s.

Definition all_digits (s : string) : bool :=
  forallb is_digit (list_ascii_of_string s).

(* ================================================================= *)
(** * Regular expressions *)

(** Character classes and patterns: what the three regular expressions of
    [lyrics.ts] and the bitrate patterns of [helpers.ts] are built from. *)
Inductive cclass : Type :=
  | Digit                       (* \d *)
  | NotChar (c : ascii).        (* [^c] *)

Inductive regex : Type :=
  | Lit (s : string)            (* a run of literal characters *)
  | Class (cc : cclass)
  | Seq (r1 r2 : regex)
  | Alt (r1 r2 : regex)         (* r1|r2 *)
  | Opt (r : regex)             (* r?   (greedy) *)
  | Star (cc : cclass)          (* cc*  (greedy) *)
  | Plus (cc : cclass)          (* cc+  (greedy) *)
  | Group (r : regex).          (* (r), capturing *)

Declare Scope regex_scope.
Delimit Scope regex_scope with re.
Bind Scope regex_scope with regex.
Infix ";;" := Seq (at level 61, right associativity) : regex_scope.

(** Canonicalize of the [i] flag (no [u] flag): upper-casing, here on the
    code units below 256 whose upper case is a single code unit below 256.
    The two whose upper case lies above 255 (181 and 255) are left as they
    are: like there, they are equal to no other code unit below 256. *)
Definition canonicalize (c : ascii) : ascii :=
  let n := N_of_ascii c in
  if (N.leb 97 n && N.leb n 122)%bool then ascii_of_N (n - 32)
  else if (N.leb 224 n && N.leb n 254 && negb (N.eqb n 247))%bool then ascii_of_N (n - 32)
  else c.

Definition char_eq (ignoreCase : bool) (a b : ascii) : bool :=
  if ignoreCase then Ascii.eqb (canonicalize a) (canonicalize b) else Ascii.eqb a b.

Definition class_matches (cc : cclass) (c : ascii) : bool :=
  match cc with
  | Digit => is_digit c
  | NotChar x => negb (Ascii.eqb c x)
  end.

(** [lit_match ic p s]: what is left of [s] after the literal [p]. *)
Fixpoint lit_match (ignoreCase : bool) (p s : string) : option string :=
  match p, s with
  | EmptyString, _ => Some s
  | String _ _, EmptyString => None
  | String a p', String b s' =>
      if char_eq ignoreCase a b then lit_match ignoreCase p' s' else None
  end.

(** The text consumed between the input [s] and its suffix [rest]. *)
Definition consumed (s rest : string) : string :=
  take (String.length s - String.length rest) s.

Section Matcher.
Variable ignoreCase : bool.
Variable R : Type.

(** A continuation receives the rest of the input and the captures made
    so far; [None] makes the matcher backtrack. *)
Definition cont : Type := string -> list string -> option R.

(** Greedy repetition of a character class: the longest run first, then
    shorter ones. *)
Fixpoint star_match (cc : cclass) (s : string) (caps : list string) (k : cont)
  : option R :=
  match s with
  | String c s' =>
      if class_matches cc c then
        match star_match cc s' caps k with
        | Some r => Some r
        | None => k s caps
        end
      else k s caps
  | EmptyString => k s caps
  end.

Fixpoint rmatch (r : regex) (s : string) (caps : list string) (k : cont)
  : option R :=
  match r with
  | Lit p =>
      match lit_match ignoreCase p s with
      | Some s' => k s' caps
      | None => None
      end
  | Class cc =>
      match s with
      | String c s' => if class_matches cc c then k s' caps else None
      | EmptyString => None
      end
  | Seq r1 r2 => rmatch r1 s caps (fun s1 caps1 => rmatch r2 s1 caps1 k)
  | Alt r1 r2 =>
      match rmatch r1 s caps k with
      | Some x => Some x
      | None => rmatch r2 s caps k
      end
  | Opt r1 =>
      match rmatch r1 s caps k with
      | Some x => Some x
      | None => k s caps
      end
  | Star cc => star_match cc s caps k
  | Plus cc =>
      match s with
      | String c s' => if class_matches cc c then star_match cc s' caps k else None
      | EmptyString => None
      end
  | Group r1 =>
      rmatch r1 s caps (fun s1 caps1 => k s1 (caps1 ++ [consumed s s1]))
  end.
End Matcher.

Arguments star_match {R} cc s caps k.
Arguments rmatch ignoreCase {R} r s caps k.

(** A match: where it starts, where it ends, and the captured groups
    ([m[1]], [m[2]], ... in order). *)
Record MatchResult : Type := mkMatch {
  m_index : nat;
  m_end : nat;
  m_groups : list string
}.

(** [m[n]] for [n >= 1]. *)
Definition group (n : nat) (m : MatchResult) : string :=
  nth (n - 1) (m_groups m) EmptyString.

(** The pattern anchored at the head of [s]: the captures and the length of
    the match. *)
Definition match_here (ignoreCase : bool) (r : regex) (s : string)
  : option (list string * nat) :=
  rmatch ignoreCase r s []
    (fun rest caps => Some (caps, String.length s - String.length rest)).

(** The leftmost match in [s], which is the part of the subject that starts
    at index [i]. *)
Fixpoint search (ignoreCase : bool) (r : regex) (s : string) (i : nat)
  : option MatchResult :=
  match match_here ignoreCase r s with
  | Some (caps, len) => Some (mkMatch i (i + len) caps)
  | None =>
      match s with
      | EmptyString => None
      | String _ s' => search ignoreCase r s' (S i)
      end
  end.

(** A regular expression object: pattern and flags. Its [lastIndex] is
    mutable and lives in the state of whoever owns the object. *)
Record RegExp : Type := mkRegExp {
  re_source : regex;
  re_global : bool;
  re_ignoreCase : bool
}.

(** RegExpBuiltinExec: the match, if any, and the new [lastIndex]. Without
    the [g] flag [lastIndex] is neither read nor written. *)
Definition RegExp_exec (re : RegExp) (subject : string) (lastIndex : nat)
  : option MatchResult * nat :=
  if re_global re then
    if Nat.ltb (String.length subject) lastIndex then (None, O)
    else
      match search (re_ignoreCase re) (re_source re) (drop lastIndex subject) lastIndex with
      | Some m => (Some m, m_end m)
      | None => (None, O)
      end
  else (search (re_ignoreCase re) (re_source re) subject O, lastIndex).

(** [re.test(subject)] *)
Definition RegExp_test (re : RegExp) (subject : string) (lastIndex : nat)
  : bool * nat :=
  match RegExp_exec re subject lastIndex with
  | (Some _, li) => (true, li)
  | (None, li) => (false, li)
  end.

(** The successive matches of a global pattern in [s], left to right and
    without overlap; [skip] counts the characters of [s] that still belong
    to the previous match, [i] is the index of the head of [s]. After an
    empty match the scan moves one character on. *)
Fixpoint scan_matches (ignoreCase : bool) (r : regex) (s : string) (i skip : nat)
  : list MatchResult :=
  match s with
  | EmptyString =>
      match skip, match_here ignoreCase r EmptyString with
      | O, Some (caps, len) => [mkMatch i (i + len) caps]
      | _, _ => []
      end
  | String _ s' =>
      match skip with
      | S n => scan_matches ignoreCase r s' (S i) n
      | O =>
          match match_here ignoreCase r s with
          | Some (caps, len) =>
              mkMatch i (i + len) caps :: scan_matches ignoreCase r s' (S i) (pred len)
          | None => scan_matches ignoreCase r s' (S i) O
          end
      end
  end.

(** [Array.from(subject.matchAll(re))] for a global [re]: the iterator works
    on a clone of [re] that starts at the [lastIndex] of [re] and leaves
    [re] itself untouched. *)
Definition String_matchAll (re : RegExp) (subject : string) (lastIndex : nat)
  : list MatchResult :=
  if Nat.ltb (String.length subject) lastIndex then []
  else scan_matches (re_ignoreCase re) (re_source re) (drop lastIndex subject) lastIndex O.

(** What remains of [s] when the successive matches are deleted. *)
Fixpoint delete_matches (ignoreCase : bool) (r : regex) (s : string) (skip : nat)
  : string :=
  match s with
  | EmptyString => EmptyString
  | String c s' =>
      match skip with
      | S n => delete_matches ignoreCase r s' n
      | O =>
          match match_here ignoreCase r s with
          | Some (_, S n) => delete_matches ignoreCase r s' n
          | Some (_, O) => String c (delete_matches ignoreCase r s' O)
          | None => String c (delete_matches ignoreCase r s' O)
          end
      end
  end.

(** [subject.replace(re, '')] for a global [re]: [lastIndex] is reset to 0,
    every match from there on is deleted, and the failing last search
    leaves [lastIndex] at 0. *)
Definition String_replace_empty (re : RegExp) (subject : string) (lastIndex : nat)
  : string * nat :=
  (delete_matches (re_ignoreCase re) (re_source re) subject O, O).


(* ================================================================= *)
(** * Numbers *)

(** The Number type: IEEE 754 binary64. *)
Definition number : Type := spec_float.

Definition prec : Z := 53.
Definition emax : Z := 1024.

Definition NaN : number := S754_nan.
Definition pos_zero : number := S754_zero false.

(** The Number value of an integer (round to nearest, ties to even). *)
Definition of_Z (z : Z) : number := binary_normalize prec emax z 0 false.

Definition Number_add : number -> number -> number := SFadd prec emax.
Definition Number_sub : number -> number -> number := SFsub prec emax.
Definition Number_mul : number -> number -> number := SFmul prec emax.
Definition Number_div : number -> number -> number := SFdiv prec emax.

(** A finite number as mantissa and exponent: the value is [m * 2^e]. *)
Definition mant_exp (x : number) : Z * Z :=
  match x with
  | S754_finite s m e => (cond_Zopp s (Zpos m), e)
  | _ => (0, 0)%Z
  end.

(** Comparison of the values [m1 * 2^e1] and [m2 * 2^e2]. *)
Definition compare_scaled (a b : Z * Z) : comparison :=
  let (m1, e1) := a in
  let (m2, e2) := b in
  let e := Z.min e1 e2 in
  (m1 * 2 ^ (e1 - e) ?= m2 * 2 ^ (e2 - e))%Z.

(** The order of the values of two numbers, [None] when one is NaN. The
    two zeros are equal. *)
Definition Number_compare (x y : number) : option comparison :=
  match x, y with
  | S754_nan, _ | _, S754_nan => None
  | S754_infinity sx, S754_infinity sy =>
      Some (match sx, sy with
            | true, false => Lt
            | false, true => Gt
            | _, _ => Eq
            end)
  | S754_infinity s, _ => Some (if s then Lt else Gt)
  | _, S754_infinity s => Some (if s then Gt else Lt)
  | _, _ => Some (compare_scaled (mant_exp x) (mant_exp y))
  end.

(** [x < y], [x <= y], [x >= y], [x > y] and [x === y] on numbers. *)
Definition js_lt (x y : number) : bool :=
  match Number_compare x y with Some Lt => true | _ => false end.

Definition js_le (x y : number) : bool :=
  match Number_compare x y with Some Lt | Some Eq => true | _ => false end.

Definition js_ge (x y : number) : bool :=
  match Number_compare x y with Some Gt | Some Eq => true | _ => false end.

Definition js_gt (x y : number) : bool :=
  match Number_compare x y with Some Gt => true | _ => false end.

Definition js_eq (x y : number) : bool :=
  match Number_compare x y with Some Eq => true | _ => false end.

Definition is_nan (x : number) : bool :=
  match x with S754_nan => true | _ => false end.

(** [Math.max(a, b)]: NaN if either is, and [+0] counts as larger than [-0]. *)
Definition Math_max (a b : number) : number :=
  if (is_nan a || is_nan b)%bool then NaN
  else
    match a, b with
    | S754_zero true, S754_zero false => b
    | _, _ => if js_gt b a then b else a
    end.

(** [Math.floor(x)] *)
Definition Math_floor (x : number) : number :=
  match x with
  | S754_finite s m e =>
      if (0 <=? e)%Z then x
      else
        let q := (cond_Zopp s (Zpos m) / 2 ^ (- e))%Z in
        binary_normalize prec emax q 0 s
  | _ => x
  end.

(** [n % d]: the remainder of the truncating division, with the sign of
    [n]; it is computed exactly. *)
Definition Number_remainder (n d : number) : number :=
  match n, d with
  | S754_nan, _ | _, S754_nan => NaN
  | S754_infinity _, _ => NaN
  | _, S754_zero _ => NaN
  | _, S754_infinity _ => n
  | S754_zero _, _ => n
  | S754_finite sn mn en, S754_finite sd md ed =>
      let e := Z.min en ed in
      let r := Z.rem (Zpos mn * 2 ^ (en - e)) (Zpos md * 2 ^ (ed - e)) in
      binary_normalize prec emax (cond_Zopp sn r) e sn
  end.

(** The integer a number is, when it is one. *)
Definition to_integer (x : number) : option Z :=
  match x with
  | S754_zero _ => Some 0%Z
  | S754_finite s m e =>
      if (0 <=? e)%Z then Some (cond_Zopp s (Zpos m * 2 ^ e))
      else if (Zpos m mod 2 ^ (- e) =? 0)%Z then Some (cond_Zopp s (Zpos m / 2 ^ (- e)))
      else None
  | _ => None
  end.

Definition decimal_of_Z (z : Z) : string :=
  NilZero.string_of_uint (N.to_uint (Z.to_N z)).

(** [x.toString()] for NaN, the infinities, and the integers of magnitude
    below [2^53], whose digits are those of the integer. [None] for every
    other number: this development does not write the digits of a number
    with a fraction, nor those of an integer from [2^53] on, where
    [toString] writes the shortest digits that read back as the number,
    followed by zeros, or from [10^21] on by an exponent. *)
Definition Number_toString (x : number) : option string :=
  match x with
  | S754_nan => Some "NaN"
  | S754_infinity s => Some (if s then "-Infinity" else "Infinity")
  | _ =>
      match to_integer x with
      | Some z =>
          if (Z.abs z <? 2 ^ 53)%Z then
            Some ((if (z <? 0)%Z then "-" else "") ++ decimal_of_Z (Z.abs z))%string
          else None
      | None => None
      end
  end.

(** [parseInt(s, 10)]: leading white space, an optional sign, then the
    longest run of digits; NaN when there is no digit. *)
Definition parseInt (s : string) : number :=
  let s1 := trimStart s in
  let '(neg, s2) :=
    match s1 with
    | String "-" r => (true, r)
    | String "+" r => (false, r)
    | _ => (false, s1)
    end in
  let (ds, _) := span_digits s2 in
  if is_empty ds then NaN
  else
    let n := digits_value ds in
    if (n =? 0)%Z then S754_zero neg else of_Z (cond_Zopp neg n).

Fixpoint pow10 (k : nat) : positive :=
  match k with
  | O => 1%positive
  | S k' => (10 * pow10 k')%positive
  end.

(** The Number value of the decimal [n / 10^k], [n >= 0]: the exact
    quotient of the two integers is rounded once. *)
Definition of_decimal (neg : bool) (n : Z) (k : nat) : number :=
  match n with
  | Zpos p => SFdiv prec emax (S754_finite neg p 0) (S754_finite false (pow10 k) 0)
  | _ => S754_zero neg
  end.

(** [parseFloat(s)] for decimal literals without exponent part: leading
    white space, an optional sign, digits, and an optional fraction; NaN
    when there is no digit. The exponent part and [Infinity] are left out:
    the strings [lyrics.ts] passes are made of digits and at most one dot. *)
Definition parseFloat (s : string) : number :=
  let s1 := trimStart s in
  let '(neg, s2) :=
    match s1 with
    | String "-" r => (true, r)
    | String "+" r => (false, r)
    | _ => (false, s1)
    end in
  let (ip, s3) := span_digits s2 in
  let fp :=
    match s3 with
    | String "." r => fst (span_digits r)
    | _ => EmptyString
    end in
  if (is_empty ip && is_empty fp)%bool then NaN
  else of_decimal neg (digits_value (ip ++ fp)) (String.length fp).

(* ================================================================= *)
(** * [services/lyrics.ts] *)

Record LyricsLine : Type := mkLine {
  time : number;
  text : string
}.

(** [/\[(\d{1,2}):(\d{2}(?:\.\d+)?)\]/g] *)
Definition LRC_TIMESTAMP_REGEX : RegExp :=
  mkRegExp
    (Lit "[" ;; Group (Class Digit ;; Opt (Class Digit)) ;; Lit ":" ;;
     Group (Class Digit ;; Class Digit ;; Opt (Lit "." ;; Plus Digit)) ;; Lit "]")%re
    true false.

(** [/\[(ti|ar|al|by|offset):[^\]]*\]/g] *)
Definition METADATA_REGEX : RegExp :=
  mkRegExp
    (Lit "[" ;;
     Group (Alt (Lit "ti") (Alt (Lit "ar") (Alt (Lit "al") (Alt (Lit "by") (Lit "offset"))))) ;;
     Lit ":" ;; Star (NotChar "]") ;; Lit "]")%re
    true false.

(** [/\[offset:(-?\d+)\]/], a literal of [extractOffset]: a fresh object on
    every call, and without the [g] flag. *)
Definition OFFSET_REGEX : RegExp :=
  mkRegExp (Lit "[offset:" ;; Group (Opt (Lit "-") ;; Plus Digit) ;; Lit "]")%re
    false false.

(** The mutable state of the module: the [lastIndex] of its two global
    regular expression objects. *)
Record RegExpState : Type := mkState {
  lrc_lastIndex : nat;       (* LRC_TIMESTAMP_REGEX.lastIndex *)
  meta_lastIndex : nat       (* METADATA_REGEX.lastIndex *)
}.

(** The state when the module has just been loaded. *)
Definition initial_state : RegExpState := mkState 0 0.

(** The comparator of [parseLrcLyrics]: [(a, b) => a.time - b.time]. *)
Definition by_time (a b : LyricsLine) : number := Number_sub (time a) (time b).

(** [xs.sort(cmp)]. The sort of ECMAScript is stable and, for a consistent
    comparator, its result does not depend on the algorithm; here it is a
    stable insertion sort. [x] goes before [y] when [cmp(x, y) < 0]; a NaN
    from the comparator counts as 0. *)
Fixpoint sort_insert {A : Type} (cmp : A -> A -> number) (x : A) (l : list A) : list A :=
  match l with
  | [] => [x]
  | y :: l' =>
      if js_lt (cmp y x) pos_zero then y :: sort_insert cmp x l'
      else x :: y :: l'
  end.

Fixpoint Array_sort {A : Type} (cmp : A -> A -> number) (l : list A) : list A :=
  match l with
  | [] => []
  | x :: l' => sort_insert cmp x (Array_sort cmp l')
  end.

(** The entry that one timestamp match gives. *)
Definition line_of_match (txt : string) (m : MatchResult) : LyricsLine :=
  let minutes := parseInt (group 1 m) in
  let seconds := parseFloat (group 2 m) in
  mkLine (Number_add (Number_mul minutes (of_Z 60)) seconds) txt.

(** The body of [lines.forEach] in [parseLrcLyrics]. The text that is
    pushed, [text || ''], is [text], a string. *)
Definition parse_line (acc : RegExpState * list LyricsLine) (line : string)
  : RegExpState * list LyricsLine :=
  let (st, parsedLines) := acc in
  let (cleaned, mli) := String_replace_empty METADATA_REGEX line (meta_lastIndex st) in
  let st1 := mkState (lrc_lastIndex st) mli in
  let cleanLine := trim cleaned in
  if is_empty cleanLine then (st1, parsedLines)
  else
    let timestamps := String_matchAll LRC_TIMESTAMP_REGEX line (lrc_lastIndex st1) in
    match timestamps with
    | [] => (st1, parsedLines)
    | _ :: _ =>
        let (stripped, lli) := String_replace_empty LRC_TIMESTAMP_REGEX line (lrc_lastIndex st1) in
        let st2 := mkState lli (meta_lastIndex st1) in
        let txt := trim stripped in
        (st2, parsedLines ++ map (line_of_match txt) timestamps)
    end.

Definition parseLrcLyrics (st : RegExpState) (lrcText : string)
  : list LyricsLine * RegExpState :=
  if is_empty lrcText then ([], st)
  else
    let lines := split_lines lrcText in
    let (st', parsedLines) := fold_left parse_line lines (st, []) in
    (Array_sort by_time parsedLines, st').

Definition isLrcFormat (st : RegExpState) (txt : string) : bool * RegExpState :=
  if is_empty txt then (false, st)
  else
    let (found, li) := RegExp_test LRC_TIMESTAMP_REGEX txt (lrc_lastIndex st) in
    (found, mkState li (meta_lastIndex st)).

(** The loop of [findActiveLine]: [n] is the number of indices still to
    visit, the next one being [n - 1]. *)
Fixpoint findActiveLine_from (lyrics : list LyricsLine) (currentTime : number) (n : nat) : Z :=
  match n with
  | O => (-1)%Z
  | S i =>
      match nth_error lyrics i with
      | Some l =>
          if js_ge currentTime (time l) then Z.of_nat i
          else findActiveLine_from lyrics currentTime i
      | None => findActiveLine_from lyrics currentTime i
      end
  end.

Definition findActiveLine (lyrics : list LyricsLine) (currentTime : number) : Z :=
  match lyrics with
  | [] => (-1)%Z
  | _ :: _ => findActiveLine_from lyrics currentTime (length lyrics)
  end.

(** [xs.slice(start, end)] for integers: a negative index counts from the
    end of the array, and both are clamped to the array. *)
Definition Array_slice {A : Type} (l : list A) (start end_ : Z) : list A :=
  let len := Z.of_nat (length l) in
  let k := if (start <? 0)%Z then Z.max (len + start) 0 else Z.min start len in
  let final := if (end_ <? 0)%Z then Z.max (len + end_) 0 else Z.min end_ len in
  firstn (Z.to_nat (final - k)) (skipn (Z.to_nat k) l).

(** [windowSize] defaults to 3 when the caller leaves it out. *)
Definition getLyricsWindow (lyrics : list LyricsLine) (currentIndex : Z)
    (windowSize : option Z) : list LyricsLine :=
  let windowSize := match windowSize with Some w => w | None => 3%Z end in
  match lyrics with
  | [] => []
  | _ :: _ =>
      if (currentIndex <? 0)%Z then []
      else
        let start := Z.max 0 (currentIndex - windowSize) in
        let end_ := Z.min (Z.of_nat (length lyrics)) (currentIndex + windowSize + 1) in
        Array_slice lyrics start end_
  end.

(** [None] when one of the three fields is a number that [Number_toString]
    does not cover (magnitude [2^53] or more). *)
Definition formatLyricsTime (seconds : number) : option string :=
  let minutes := Math_floor (Number_div seconds (of_Z 60)) in
  let secs := Math_floor (Number_remainder seconds (of_Z 60)) in
  let ms := Math_floor (Number_mul (Number_remainder seconds (of_Z 1)) (of_Z 100)) in
  match Number_toString minutes, Number_toString secs, Number_toString ms with
  | Some m, Some s, Some f =>
      Some (padStart0 2 m ++ ":" ++ padStart0 2 s ++ "." ++ padStart0 2 f)%string
  | _, _, _ => None
  end.

Fixpoint format_lines (lyrics : list LyricsLine) : option (list string) :=
  match lyrics with
  | [] => Some []
  | line :: rest =>
      match formatLyricsTime (time line), format_lines rest with
      | Some t, Some out => Some (("[" ++ t ++ "]" ++ text line)%string :: out)
      | _, _ => None
      end
  end.

Definition toLrcFormat (lyrics : list LyricsLine) : option string :=
  match lyrics with
  | [] => Some EmptyString
  | _ :: _ => option_map join_lines (format_lines lyrics)
  end.

Definition extractOffset (lrcText : string) : number :=
  if is_empty lrcText then pos_zero
  else
    match fst (RegExp_exec OFFSET_REGEX lrcText 0) with
    | Some m =>
        if negb (is_empty (group 1 m)) then parseInt (group 1 m) else pos_zero
    | None => pos_zero
    end.

(** ** [applyOffset] over a store

    Arrays and objects are cells of a store and are named by their address;
    a new cell is put at the end. *)
Definition loc : Type := nat.

Inductive cell : Type :=
  | CLine (l : LyricsLine)          (* an object {time, text} *)
  | CArray (elems : list loc).      (* an array of references *)

Definition Store : Type := list cell.

Definition alloc (st : Store) (c : cell) : Store * loc := (st ++ [c], length st).

Definition read_line (st : Store) (l : loc) : option LyricsLine :=
  match nth_error st l with
  | Some (CLine x) => Some x
  | _ => None
  end.

Definition read_array (st : Store) (l : loc) : option (list loc) :=
  match nth_error st l with
  | Some (CArray elems) => Some elems
  | _ => None
  end.

(** The lines an array of references stands for. *)
Fixpoint read_lines (st : Store) (elems : list loc) : option (list LyricsLine) :=
  match elems with
  | [] => Some []
  | l :: rest =>
      match read_line st l, read_lines st rest with
      | Some x, Some xs => Some (x :: xs)
      | _, _ => None
      end
  end.

Definition read_lyrics (st : Store) (arr : loc) : option (list LyricsLine) :=
  match read_array st arr with
  | Some elems => read_lines st elems
  | None => None
  end.

(** [lyrics.map((line) => ({time: ..., text: line.text}))]: one new object
    per element. [None] when a reference is not to a line. *)
Fixpoint map_offset (st : Store) (offsetSeconds : number) (elems : list loc)
  : option (Store * list loc) :=
  match elems with
  | [] => Some (st, [])
  | l :: rest =>
      match read_line st l with
      | Some line =>
          let (st1, l') :=
            alloc st (CLine (mkLine (Math_max pos_zero (Number_add (time line) offsetSeconds))
                                    (text line))) in
          match map_offset st1 offsetSeconds rest with
          | Some (st2, out) => Some (st2, l' :: out)
          | None => None
          end
      | None => None
      end
  end.

Definition applyOffset (st : Store) (lyrics : loc) (offsetMs : number)
  : option (Store * loc) :=
  match read_array st lyrics with
  | None => None
  | Some [] => Some (alloc st (CArray []))
  | Some elems =>
      let offsetSeconds := Number_div offsetMs (of_Z 1000) in
      match map_offset st offsetSeconds elems with
      | Some (st1, out) => Some (alloc st1 (CArray out))
      | None => None
      end
  end.

(* ================================================================= *)
(** * [utils/helpers.ts]: the playable URL *)

Record DownloadUrl : Type := mkDownloadUrl {
  quality : string;
  link : option string;      (* link?: string *)
  url : option string        (* url?: string *)
}.

Record Song : Type := mkSong {
  downloadUrl : option (list DownloadUrl);
  download_url : option (list DownloadUrl);
  media_url : option string;
  song_url : option string;
  audio : option string
}.

(** The values that [quality] takes: the five settings of the type
    [QualitySetting], and two kinds of strings from outside the type.
    [Q_proto] is the string [__proto__], a name that the object literal
    [qualityMap] inherits: looking it up gives the object
    [Object.prototype]. [Q_other] is any string that names no property of
    the literal, its own or inherited, such as [unknown-tier]: looking it
    up gives [undefined]. The names of the methods that the literal
    inherits ([constructor], [toString], [valueOf], [hasOwnProperty] and
    the like) are not values of this type: looking one up gives a function,
    and the pattern made from a function is its source text, which the
    engine chooses. *)
Inductive QualitySetting : Type :=
  | Q_Less_low | Q_low | Q_medium | Q_high | Q_auto | Q_proto | Q_other.

(** What [qualityMap[quality]] is when it is defined: one of the strings of
    the literal, or the object [Object.prototype]. *)
Inductive MapValue : Type :=
  | V_string (s : string)
  | V_Object_prototype.

(** [a || b] on optional strings: [a] when it is a non-empty string. *)
Definition or_else (a b : option string) : option string :=
  match a with
  | Some s => if is_empty s then b else a
  | None => b
  end.

(** [d.link || d.url || null] *)
Definition link_or_url (d : DownloadUrl) : option string :=
  or_else (link d) (or_else (url d) None).

(** [qualityMap[quality]]; [None] is [undefined]. *)
Definition qualityMap (q : QualitySetting) : option MapValue :=
  match q with
  | Q_Less_low => Some (V_string "48")
  | Q_low => Some (V_string "96")
  | Q_medium => Some (V_string "160")
  | Q_high => Some (V_string "320")
  | Q_auto => Some (V_string "")
  | Q_proto => Some V_Object_prototype
  | Q_other => None
  end.

(** [if (targetBitrate)]: a string counts as true when it is not empty, an
    object always. *)
Definition truthy (v : MapValue) : bool :=
  match v with
  | V_string s => negb (is_empty s)
  | V_Object_prototype => true
  end.

(** [new RegExp(targetBitrate, 'i')]. A string of the literal is made of
    digits and is its own pattern. [Object.prototype] is turned into the
    string [[object Object]], which as a pattern is one class of
    characters: o, b, j, e, c, t, the space and O, written here as the
    alternative of these characters. *)
Definition bitrate_regexp (targetBitrate : MapValue) : RegExp :=
  match targetBitrate with
  | V_string s => mkRegExp (Lit s) false true
  | V_Object_prototype =>
      mkRegExp
        (Alt (Lit "o") (Alt (Lit "b") (Alt (Lit "j") (Alt (Lit "e")
           (Alt (Lit "c") (Alt (Lit "t") (Alt (Lit " ") (Lit "O"))))))))
        false true
  end.

(** [url.quality && new RegExp(targetBitrate, 'i').test(url.quality)] *)
Definition quality_matches (targetBitrate : MapValue) (d : DownloadUrl) : bool :=
  (negb (is_empty (quality d)) &&
   fst (RegExp_test (bitrate_regexp targetBitrate) (quality d) 0))%bool.

(** The outcome of a call that may throw. *)
Inductive completion (A : Type) : Type :=
  | Normal (a : A)
  | Throw.

Arguments Normal {A} a.
Arguments Throw {A}.

(** [downloadUrls[downloadUrls.length - 1]], then [.link || .url || null]:
    reading a property of [undefined] throws when the array is empty. *)
Definition url_of_last (downloadUrls : list DownloadUrl) : completion (option string) :=
  match downloadUrls with
  | [] => Throw
  | d :: rest => Normal (link_or_url (last rest d))
  end.

Definition getUrlByQuality (downloadUrls : list DownloadUrl) (q : QualitySetting)
  : completion (option string) :=
  match q with
  | Q_auto => url_of_last downloadUrls
  | _ =>
      match qualityMap q with
      | Some targetBitrate =>
          if truthy targetBitrate then
            match find (quality_matches targetBitrate) downloadUrls with
            | Some matchingUrl => Normal (link_or_url matchingUrl)
            | None => url_of_last downloadUrls
            end
          else url_of_last downloadUrls
      | None => url_of_last downloadUrls
      end
  end.

(** [quality] defaults to ['auto'] when the caller leaves it out. *)
Definition extractPlayableUrl (songDetails : option Song) (q : option QualitySetting)
  : completion (option string) :=
  let q := match q with Some q => q | None => Q_auto end in
  match songDetails with
  | None => Normal None
  | Some song =>
      let downloadUrls :=
        match downloadUrl song with
        | Some l => Some l
        | None => download_url song
        end in
      match downloadUrls with
      | Some (d :: rest) => getUrlByQuality (d :: rest) q
      | _ =>
          Normal (or_else (media_url song) (or_else (song_url song) (or_else (audio song) None)))
      end
  end.

(* ================================================================= *)
(** * [services/lyrics.ts]: plain text, the best lyrics, the next line *)

Definition parsePlainLyrics (txt : string) : list string :=
  if is_empty txt then []
  else
    filter (fun line => Nat.ltb 0 (String.length line))
      (map (fun line => trim line) (split_lines txt)).

Definition cleanLyricsText (txt : string) : string :=
  if is_empty txt then EmptyString
  else
    join_lines
      (filter (fun line => Nat.ltb 0 (String.length line))
         (map (fun line => trim line) (split_lines txt))).

(** The interface [LyricsData]: four optional strings. *)
Record LyricsData : Type := mkLyricsData {
  syncedLyrics : option string;
  plainLyrics : option string;
  lrc : option string;
  lyrics : option string
}.

(** What [if (s)] lets through of an optional string: [s] itself when it is
    a non-empty string. *)
Definition present (s : option string) : option string := or_else s None.

Inductive LyricsType : Type := L_synced | L_plain | L_none.

(** The object [{ type, content }] that [getBestLyrics] returns. *)
Record BestLyrics : Type := mkBestLyrics {
  type : LyricsType;
  content : string
}.

(** [isLrcFormat] runs only when [data.lyrics] is a non-empty string, and
    only after [syncedLyrics] and [lrc] were found missing; it works on the
    [lastIndex] of the shared [LRC_TIMESTAMP_REGEX]. *)
Definition getBestLyrics (st : RegExpState) (data : option LyricsData)
  : BestLyrics * RegExpState :=
  match data with
  | None => (mkBestLyrics L_none EmptyString, st)
  | Some data =>
      match present (syncedLyrics data) with
      | Some s => (mkBestLyrics L_synced s, st)
      | None =>
          match present (lrc data) with
          | Some s => (mkBestLyrics L_synced s, st)
          | None =>
              let (isLrc, st1) :=
                match present (lyrics data) with
                | Some s => isLrcFormat st s
                | None => (false, st)
                end in
              match present (lyrics data), isLrc with
              | Some s, true => (mkBestLyrics L_synced s, st1)
              | _, _ =>
                  match present (plainLyrics data) with
                  | Some s => (mkBestLyrics L_plain s, st1)
                  | None =>
                      match present (lyrics data) with
                      | Some s => (mkBestLyrics L_plain s, st1)
                      | None => (mkBestLyrics L_none EmptyString, st1)
                      end
                  end
              end
          end
      end
  end.

(** [!!(data.syncedLyrics || data.plainLyrics || data.lrc || data.lyrics)] *)
Definition isValidLyrics (data : option LyricsData) : bool :=
  match data with
  | None => false
  | Some data =>
      match or_else (syncedLyrics data)
              (or_else (plainLyrics data) (or_else (lrc data) (lyrics data))) with
      | Some s => negb (is_empty s)
      | None => false
      end
  end.

(** [null] is [None]; an index is an integer. *)
Definition getNextLine (lines : list LyricsLine) (currentIndex : Z) : option LyricsLine :=
  if ((currentIndex <? 0)%Z || (currentIndex >=? Z.of_nat (length lines) - 1)%Z)%bool
  then None
  else nth_error lines (Z.to_nat (currentIndex + 1)).

Definition getTimeUntilNextLine (lines : list LyricsLine) (currentTime : number)
    (currentIndex : Z) : number :=
  match getNextLine lines currentIndex with
  | None => of_Z (-1)
  | Some nextLine => Math_max pos_zero (Number_sub (time nextLine) currentTime)
  end.

(** The two [typeof] tests hold of every [LyricsLine]; what is left is
    [line.time >= 0]. *)
Definition areValidLyricsLines (lines : list LyricsLine) : bool :=
  match lines with
  | [] => false
  | _ :: _ => forallb (fun line => js_ge (time line) pos_zero) lines
  end.

(* ================================================================= *)
(** * [utils/helpers.ts]: HTML, covers, arrays and progress *)

Definition FALLBACK_COVER : string := "LOGO.jpg".

(** [subject.replace(re, f)] for a global [re] and a function [f] of the
    matched text: every match, left to right and without overlap, is
    replaced by what [f] makes of it. [skip] counts the characters that
    still belong to the previous match. *)
Fixpoint replace_matches (ignoreCase : bool) (r : regex) (f : string -> string)
    (s : string) (skip : nat) : string :=
  match s with
  | EmptyString =>
      match skip, match_here ignoreCase r EmptyString with
      | O, Some _ => f EmptyString
      | _, _ => EmptyString
      end
  | String c s' =>
      match skip with
      | S n => replace_matches ignoreCase r f s' n
      | O =>
          match match_here ignoreCase r s with
          | Some (_, S n) =>
              (f (take (S n) s) ++ replace_matches ignoreCase r f s' n)%string
          | Some (_, O) =>
              (f EmptyString ++ String c (replace_matches ignoreCase r f s' O))%string
          | None => String c (replace_matches ignoreCase r f s' O)
          end
      end
  end.

Definition String_replace_with (re : RegExp) (f : string -> string) (subject : string)
  : string :=
  replace_matches (re_ignoreCase re) (re_source re) f subject O.

(** The double quote. *)
Definition DQUOTE : ascii := "034"%char.

(** The object [htmlEntities], and [obj[key]]. *)
Definition htmlEntities : list (string * string) :=
  [ ("&", "&amp;"); ("<", "&lt;"); (">", "&gt;");
    (String DQUOTE EmptyString, "&quot;"); ("'", "&#39;") ].

Fixpoint property (key : string) (obj : list (string * string)) : option string :=
  match obj with
  | [] => None
  | (k, v) :: rest => if String.eqb k key then Some v else property key rest
  end.

(** The pattern of [escapeHtml], with the [g] flag: the class of the five
    characters ampersand, less-than, greater-than, double quote and
    apostrophe, written as the alternative of the five. The literal makes a
    new object on every call. *)
Definition HTML_SPECIAL_REGEX : RegExp :=
  mkRegExp
    (Alt (Lit "&") (Alt (Lit "<") (Alt (Lit ">")
       (Alt (Lit (String DQUOTE EmptyString)) (Lit "'")))))
    true false.

Definition escapeHtml (str : option string) : string :=
  match present str with
  | None => EmptyString
  | Some s =>
      String_replace_with HTML_SPECIAL_REGEX
        (fun char =>
           match present (property char htmlEntities) with
           | Some entity => entity
           | None => char
           end)
        s
  end.

Record ImageQuality : Type := mkImageQuality {
  img_quality : string;
  img_link : option string;      (* link?: string *)
  img_url : option string        (* url?: string *)
}.

(** [image?: ImageQuality[] | string] *)
Inductive ImageField : Type :=
  | Image_array (images : list ImageQuality)
  | Image_string (s : string).

(** What [getCover] reads of a song, an album or a queue item: [cover] when
    the item has one and it is a string, [image] and [image_url]. *)
Record CoverItem : Type := mkCoverItem {
  cover : option string;
  image : option ImageField;
  image_url : option string
}.

(** [/500|b|large|high/i] *)
Definition HIGH_QUALITY_REGEX : RegExp :=
  mkRegExp (Alt (Lit "500") (Alt (Lit "b") (Alt (Lit "large") (Lit "high"))))
    false true.

(** [img.quality && /500|b|large|high/i.test(img.quality)] *)
Definition is_high_quality (img : ImageQuality) : bool :=
  (negb (is_empty (img_quality img)) &&
   fst (RegExp_test HIGH_QUALITY_REGEX (img_quality img) 0))%bool.

(** [img.link || img.url || FALLBACK_COVER] *)
Definition image_link_or_url (img : ImageQuality) : string :=
  match or_else (img_link img) (or_else (img_url img) (Some FALLBACK_COVER)) with
  | Some s => s
  | None => FALLBACK_COVER
  end.

Definition getCover (item : option CoverItem) : string :=
  match item with
  | None => FALLBACK_COVER
  | Some item =>
      match present (cover item) with
      | Some c => c
      | None =>
          match image item with
          | Some (Image_array (img :: rest)) =>
              match find is_high_quality (img :: rest) with
              | Some highQuality => image_link_or_url highQuality
              | None => image_link_or_url (last rest img)
              end
          | _ =>
              match present (image_url item) with
              | Some u => u
              | None =>
                  match image item with
                  | Some (Image_string s) => if is_empty s then FALLBACK_COVER else s
                  | _ => FALLBACK_COVER
                  end
              end
          end
      end
  end.

(** The filter of [removeDuplicates]; [seen] is the set of the keys met so
    far. *)
Fixpoint removeDuplicates_from {A : Type} (getKey : A -> string) (seen : list string)
    (array : list A) : list A :=
  match array with
  | [] => []
  | item :: rest =>
      let key := getKey item in
      if existsb (String.eqb key) seen then removeDuplicates_from getKey seen rest
      else item :: removeDuplicates_from getKey (key :: seen) rest
  end.

Definition removeDuplicates {A : Type} (array : list A) (getKey : A -> string) : list A :=
  removeDuplicates_from getKey [] array.

(** [isFinite(x)] on a number. *)
Definition isFinite (x : number) : bool :=
  match x with
  | S754_zero _ | S754_finite _ _ _ => true
  | _ => false
  end.

(** [Math.min(a, b)]: NaN if either is, and [-0] counts as smaller than [+0]. *)
Definition Math_min (a b : number) : number :=
  if (is_nan a || is_nan b)%bool then NaN
  else
    match a, b with
    | S754_zero false, S754_zero true => b
    | _, _ => if js_lt b a then b else a
    end.

Definition calculateProgress (current total : number) : number :=
  if (js_eq total (of_Z 0) || negb (isFinite total))%bool then pos_zero
  else
    let percentage := Number_mul (Number_div current total) (of_Z 100) in
    Math_max pos_zero (Math_min (of_Z 100) percentage).

(* ================================================================= *)
(** * [utils/helpers.ts]: the shuffle

    [Math.random()] is a source of numbers: [shuffleArray] takes its draws
    from a list, one for each step of its loop. *)

(** [Math.floor(r * (i + 1))] for the draw [r], when it is an integer from
    0 to [i]. *)
Definition random_index (r : number) (i : nat) : option nat :=
  match to_integer (Math_floor (Number_mul r (of_Z (Z.of_nat i + 1)))) with
  | Some j =>
      if ((0 <=? j)%Z && (j <=? Z.of_nat i)%Z)%bool then Some (Z.to_nat j) else None
  | None => None
  end.

(** [xs[i] = x] for an index of the array. *)
Fixpoint Array_set {A : Type} (xs : list A) (i : nat) (x : A) : list A :=
  match xs, i with
  | [], _ => []
  | _ :: rest, O => x :: rest
  | y :: rest, S i' => y :: Array_set rest i' x
  end.

(** [[xs[i], xs[j]] = [xs[j], xs[i]]] for two indices of the array: both
    elements are read, then [xs[i]] and [xs[j]] are written. *)
Definition swap {A : Type} (xs : list A) (i j : nat) : option (list A) :=
  match nth_error xs i, nth_error xs j with
  | Some a, Some b => Some (Array_set (Array_set xs i b) j a)
  | _, _ => None
  end.

(** The loop of [shuffleArray], from the index [i] down to 1. [None] when
    the draws run out or a draw does not give an index from 0 to [i]. *)
Fixpoint shuffle_from {A : Type} (i : nat) (shuffled : list A) (draws : list number)
  : option (list A) :=
  match i with
  | O => Some shuffled
  | S i' =>
      match draws with
      | [] => None
      | r :: draws' =>
          match random_index r i with
          | Some j =>
              match swap shuffled i j with
              | Some shuffled' => shuffle_from i' shuffled' draws'
              | None => None
              end
          | None => None
          end
      end
  end.

(** The copy [[...array]] is the list itself: the argument is not written
    to. *)
Definition shuffleArray {A : Type} (draws : list number) (array : list A)
  : option (list A) :=
  shuffle_from (length array - 1) array draws.

(* ================================================================= *)
(** * [utils/helpers.ts]: the time

    [None] when a field is a number that [Number_toString] does not cover
    (magnitude [2^53] or more). *)

Definition formatTime (seconds : number) : option string :=
  if (negb (isFinite seconds) || js_lt seconds pos_zero)%bool then Some "00:00"
  else
    let minutes := Math_floor (Number_div seconds (of_Z 60)) in
    let secs := Math_floor (Number_remainder seconds (of_Z 60)) in
    match Number_toString minutes, Number_toString secs with
    | Some m, Some s => Some (padStart0 2 m ++ ":" ++ padStart0 2 s)%string
    | _, _ => None
    end.

(* ================================================================= *)
(** * [main.ts]: the next and the previous song

    What [nextSong] and [prevSong] pass to [playIndex]. The length of the
    queue and the indices are integers; the draw of [Math.random()] is an
    argument. *)

Inductive Chosen : Type :=
  | No_call                 (* the queue is empty: [playIndex] is not called *)
  | Index (index : Z)       (* [playIndex(index)] *)
  | Not_an_integer.         (* [Math.floor] gave NaN or an infinity *)

(** The shuffle branch, the same in both functions. *)
Definition shuffle_index (r : number) (currentIndex : Z) (queue_length : nat) : Chosen :=
  match to_integer (Math_floor (Number_mul r (of_Z (Z.of_nat queue_length)))) with
  | Some nextIndex =>
      if (Nat.ltb 1 queue_length && (nextIndex =? currentIndex)%Z)%bool
      then Index (Z.rem (nextIndex + 1) (Z.of_nat queue_length))
      else Index nextIndex
  | None => Not_an_integer
  end.

Definition nextSong_index (shuffleMode : bool) (currentIndex : Z) (queue_length : nat)
    (r : number) : Chosen :=
  if Nat.eqb queue_length 0 then No_call
  else if shuffleMode then shuffle_index r currentIndex queue_length
  else Index (Z.rem (currentIndex + 1) (Z.of_nat queue_length)).

Definition prevSong_index (shuffleMode : bool) (currentIndex : Z) (queue_length : nat)
    (r : number) : Chosen :=
  if Nat.eqb queue_length 0 then No_call
  else if shuffleMode then shuffle_index r currentIndex queue_length
  else Index (Z.rem (currentIndex - 1 + Z.of_nat queue_length) (Z.of_nat queue_length)).

(** The guard of [playIndex]: [index < 0 || index >= state.queue.length]
    makes it return at once. *)
Definition playIndex_returns_at_once (index : Z) (queue_length : nat) : bool :=
  ((index <? 0)%Z || (index >=? Z.of_nat queue_length)%Z)%bool.

(* ================================================================= *)
(** * The storage service: the quality setting

    [localStorage] is a list of keys with their values, together with what
    decides whether a [setItem] goes through: it throws when the quota is
    exceeded or when the storage may not be used. *)

Record LocalStorage : Type := mkLocalStorage {
  ls_items : list (string * string);
  ls_accepts : list (string * string) -> string -> string -> bool
}.

(** [localStorage.getItem(key)], [null] when there is no such key. *)
Definition getItem (key : string) (ls : LocalStorage) : option string :=
  property key (ls_items ls).

(** [localStorage.removeItem(key)] *)
Definition removeItem (key : string) (ls : LocalStorage) : LocalStorage :=
  mkLocalStorage
    (filter (fun kv => negb (String.eqb (fst kv) key)) (ls_items ls))
    (ls_accepts ls).

(** [localStorage.setItem(key, value)] *)
Definition setItem (key value : string) (ls : LocalStorage) : completion LocalStorage :=
  if ls_accepts ls (ls_items ls) key value then
    Normal (mkLocalStorage
              ((key, value)
               :: filter (fun kv => negb (String.eqb (fst kv) key)) (ls_items ls))
              (ls_accepts ls))
  else Throw.

Definition QUALITY_SETTING : string := "qualitySetting".
Definition DEFAULT_QUALITY : string := "auto".

Definition isStorageAvailable (ls : LocalStorage) : bool * LocalStorage :=
  let test := "__storage_test__" in
  match setItem test test ls with
  | Normal ls1 => (true, removeItem test ls1)
  | Throw => (false, ls)
  end.

Definition getStorageItem (key : string) (ls : LocalStorage)
  : option string * LocalStorage :=
  let (available, ls1) := isStorageAvailable ls in
  if negb available then (None, ls1)
  else (getItem key ls1, ls1).

Definition setStorageItem (key value : string) (ls : LocalStorage)
  : bool * LocalStorage :=
  let (available, ls1) := isStorageAvailable ls in
  if negb available then (false, ls1)
  else
    match setItem key value ls1 with
    | Normal ls2 => (true, ls2)
    | Throw => (false, ls1)
    end.

Definition validQualities : list string := ["Less_low"; "low"; "medium"; "high"; "auto"].

(** [xs.includes(x)] on strings. *)
Definition includes (xs : list string) (x : string) : bool :=
  existsb (String.eqb x) xs.

(** A quality setting is the string that names it. *)
Definition loadQualitySetting (ls : LocalStorage) : string * LocalStorage :=
  let (data, ls1) := getStorageItem QUALITY_SETTING ls in
  match present data with
  | None => (DEFAULT_QUALITY, ls1)
  | Some data =>
      if includes validQualities data then (data, ls1) else (DEFAULT_QUALITY, ls1)
  end.

Definition saveQualitySetting (quality : string) (ls : LocalStorage)
  : bool * LocalStorage :=
  if negb (includes validQualities quality) then (false, ls)
  else setStorageItem QUALITY_SETTING quality ls.

(* ================================================================= *)
(** * Vocabulary of the statements *)

(** The language of a pattern: [matches ic r t] when the whole of [t] is
    matched by [r]. *)
Fixpoint lit_eq (ignoreCase : bool) (p t : string) : Prop :=
  match p, t with
  | EmptyString, EmptyString => True
  | String a p', String b t' => char_eq ignoreCase a b = true /\ lit_eq ignoreCase p' t'
  | _, _ => False
  end.

Fixpoint all_in (cc : cclass) (t : string) : Prop :=
  match t with
  | EmptyString => True
  | String c t' => class_matches cc c = true /\ all_in cc t'
  end.

Fixpoint matches (ignoreCase : bool) (r : regex) (t : string) : Prop :=
  match r with
  | Lit p => lit_eq ignoreCase p t
  | Class cc => exists c, t = String c EmptyString /\ class_matches cc c = true
  | Seq r1 r2 =>
      exists t1 t2, t = (t1 ++ t2)%string /\ matches ignoreCase r1 t1 /\ matches ignoreCase r2 t2
  | Alt r1 r2 => matches ignoreCase r1 t \/ matches ignoreCase r2 t
  | Opt r1 => t = EmptyString \/ matches ignoreCase r1 t
  | Star cc => all_in cc t
  | Plus cc => t <> EmptyString /\ all_in cc t
  | Group r1 => matches ignoreCase r1 t
  end.

(** The language with the groups: [captures ic r t caps] when [r] matches
    the whole of [t] and its groups capture [caps], in the order in which
    they close. No pattern here has a group inside an alternative or an
    option, where a group that takes no part would leave a hole. *)
Fixpoint captures (ignoreCase : bool) (r : regex) (t : string) (caps : list string) : Prop :=
  match r with
  | Lit p => lit_eq ignoreCase p t /\ caps = []
  | Class cc => (exists c, t = String c EmptyString /\ class_matches cc c = true) /\ caps = []
  | Seq r1 r2 =>
      exists t1 t2 c1 c2,
        t = (t1 ++ t2)%string /\ caps = c1 ++ c2 /\
        captures ignoreCase r1 t1 c1 /\ captures ignoreCase r2 t2 c2
  | Alt r1 r2 => captures ignoreCase r1 t caps \/ captures ignoreCase r2 t caps
  | Opt r1 => (t = EmptyString /\ caps = []) \/ captures ignoreCase r1 t caps
  | Star cc => all_in cc t /\ caps = []
  | Plus cc => t <> EmptyString /\ all_in cc t /\ caps = []
  | Group r1 => exists c1, captures ignoreCase r1 t c1 /\ caps = c1 ++ [t]
  end.

Definition starts_with_digit (s : string) : Prop :=
  match s with
  | String c _ => is_digit c = true
  | EmptyString => False
  end.

(** The groups of a timestamp match: minutes and seconds, both starting
    with a digit. *)
Definition timestamp_groups (m : MatchResult) : Prop :=
  exists g1 g2, m_groups m = [g1; g2] /\ starts_with_digit g1 /\ starts_with_digit g2.

(** [s] has a substring in the language of the pattern of [re]. *)
Definition occurs (re : RegExp) (s : string) : Prop :=
  exists pre t post,
    s = (pre ++ t ++ post)%string /\ matches (re_ignoreCase re) (re_source re) t.

(** A well-formed timestamp [[m{1,2}:ss(.fraction)?]]: one or two digits of
    minutes, two digits of seconds, and possibly a dot and digits. *)
Definition is_timestamp_tag (t : string) : Prop :=
  exists mm ss fr,
    t = ("[" ++ mm ++ ":" ++ ss ++ fr ++ "]")%string
    /\ all_digits mm = true /\ (String.length mm = 1 \/ String.length mm = 2)
    /\ all_digits ss = true /\ String.length ss = 2
    /\ (fr = EmptyString \/
        exists ds, fr = ("." ++ ds)%string /\ ds <> EmptyString /\ all_digits ds = true).

(** A well-formed timestamp occurs in [s]. *)
Definition has_timestamp (s : string) : Prop :=
  exists pre t post, s = (pre ++ t ++ post)%string /\ is_timestamp_tag t.

(** Ascending order of the times. *)
Definition time_le (a b : LyricsLine) : Prop := js_le (time a) (time b) = true.

Inductive sorted_by_time : list LyricsLine -> Prop :=
  | sorted_nil : sorted_by_time []
  | sorted_one : forall a, sorted_by_time [a]
  | sorted_cons : forall a b l,
      time_le a b -> sorted_by_time (b :: l) -> sorted_by_time (a :: b :: l).

(** The entries whose time equals [t], in the order of the list. *)
Definition at_time (t : number) (l : list LyricsLine) : list LyricsLine :=
  filter (fun x => js_eq (time x) t) l.

(** The timestamps of a physical line, its content once the metadata tags
    are removed, and its text once the timestamps are removed. *)
Definition timestamps_of (line : string) : list MatchResult :=
  String_matchAll LRC_TIMESTAMP_REGEX line 0.

Definition without_metadata (line : string) : string :=
  trim (fst (String_replace_empty METADATA_REGEX line 0)).

Definition without_timestamps (line : string) : string :=
  trim (fst (String_replace_empty LRC_TIMESTAMP_REGEX line 0)).

(** The entries of one physical line, in the order of its timestamps: none
    when nothing is left of the line once its metadata tags are removed,
    else one for each timestamp, all with the text of the line. *)
Definition entries_of_line (line : string) : list LyricsLine :=
  if is_empty (without_metadata line) then []
  else map (line_of_match (without_timestamps line)) (timestamps_of line).

(** The tag [[offset:N]] whose [N] is the sign [sg] and the digits [ds]. *)
Definition offset_tag (sg ds : string) : string :=
  ("[offset:" ++ sg ++ ds ++ "]")%string.

Definition is_offset_tag (t : string) : Prop :=
  exists sg ds,
    t = offset_tag sg ds /\ (sg = EmptyString \/ sg = "-"%string) /\
    ds <> EmptyString /\ all_digits ds = true.

(** The Number value of the integer [n], or [-n] when [neg] is set: the
    binary64 number nearest to it, and for [n = 0] the zero of that sign. *)
Definition Number_of_signed (neg : bool) (n : Z) : number :=
  if (n =? 0)%Z then S754_zero neg else of_Z (cond_Zopp neg n).




(** A number of sign [s] that is not NaN: a zero, an infinity, or a finite
    number whose exponent is not below the least exponent of binary64.
    [parseLrcLyrics] makes only such times, of sign [false]. *)
Definition ordinary (s : bool) (x : number) : Prop :=
  x = S754_zero s \/ x = S754_infinity s \/
  exists m e, x = S754_finite s m e /\ (emin prec emax <= e)%Z.

(** [s] holds no line feed. *)
Fixpoint one_line (s : string) : Prop :=
  match s with
  | EmptyString => True
  | String c s' => c <> LF /\ one_line s'
  end.

(** A line as [parsePlainLyrics] keeps it: not empty, without white space
    at either end, and without a line feed. *)
Definition is_plain_line (line : string) : Prop :=
  line <> EmptyString /\ trim line = line /\ one_line line.

(** The five characters that [escapeHtml] replaces, and what stands for a
    character in its result: the entity of the five, the character itself
    otherwise. *)
Definition is_html_special (c : ascii) : bool :=
  (Ascii.eqb "&" c || Ascii.eqb "<" c || Ascii.eqb ">" c || Ascii.eqb DQUOTE c
   || Ascii.eqb "'" c)%bool.

Definition entity_of (c : ascii) : string :=
  if Ascii.eqb "&" c then "&amp;"
  else if Ascii.eqb "<" c then "&lt;"
  else if Ascii.eqb ">" c then "&gt;"
  else if Ascii.eqb DQUOTE c then "&quot;"
  else if Ascii.eqb "'" c then "&#39;"
  else String c EmptyString.

Fixpoint escaped (s : string) : string :=
  match s with
  | EmptyString => EmptyString
  | String c s' => (entity_of c ++ escaped s')%string
  end.

(** The quality tag [q] of an image has [500], [b], [large] or [high]
    somewhere in it, letter case ignored. *)
Definition is_high_tag (q : string) : Prop :=
  exists pre t post,
    q = (pre ++ t ++ post)%string /\
    (lit_eq true "500" t \/ lit_eq true "b" t \/ lit_eq true "large" t \/
     lit_eq true "high" t).

(** A number that [Math.random()] may give: a binary64 number that is at
    least 0 and below 1. *)
Definition in_unit_interval (r : number) : Prop :=
  r = S754_zero false \/
  exists m e,
    r = S754_finite false m e /\ (Zpos m < 2 ^ 53)%Z /\ (Zpos m < 2 ^ (- e))%Z.

(** No timestamp of [line] starts at the index [n] or after it. *)
Definition timestamps_before (n : nat) (line : string) : Prop :=
  forall pre t post,
    line = (pre ++ t ++ post)%string -> is_timestamp_tag t -> String.length pre < n.

(** A finite number is a binary64 number when its mantissa has at most 53
    digits and its exponent is in the range of the format. *)
Definition is_binary64 (x : number) : Prop :=
  match x with
  | S754_finite _ m e => (Zpos m < 2 ^ 53)%Z /\ (-1074 <= e <= 971)%Z
  | _ => True
  end.

(** The integer part of a number that is not negative. *)
Definition integer_part (x : number) : Z :=
  match x with
  | S754_finite false m e =>
      if (0 <=? e)%Z then (Zpos m * 2 ^ e)%Z else (Zpos m / 2 ^ (- e))%Z
  | _ => 0%Z
  end.

(* ================================================================= *)
(** * Results *)


(* ----------------------------------------------------------------- *)
(** ** Arrays *)

Lemma nth_error_firstn_skipn {A : Type} (l : list A) (n m k : nat) :
  nth_error (firstn m (skipn n l)) k =
  if Nat.ltb k m then nth_error l (n + k) else None.
Proof.
  destruct (Nat.ltb_spec k m) as [Hk | Hk].
  - rewrite nth_error_firstn.
    destruct (Nat.ltb_spec k m); [ | lia ].
    apply nth_error_skipn.
  - apply nth_error_None. rewrite length_firstn. lia.
Qed.

(** Within the array both indices of [slice] are taken as they are. *)
Lemma Array_slice_within {A : Type} (l : list A) (lo hi : Z) :
  (0 <= lo)%Z -> (0 <= hi <= Z.of_nat (length l))%Z ->
  Array_slice l lo hi = firstn (Z.to_nat (hi - lo)) (skipn (Z.to_nat lo) l).
Proof.
  intros Hlo Hhi. unfold Array_slice.
  destruct (Z.ltb_spec lo 0) as [? | _]; [ lia | ].
  destruct (Z.ltb_spec hi 0) as [? | _]; [ lia | ].
  rewrite (Z.min_l hi) by lia.
  destruct (Z.le_gt_cases lo (Z.of_nat (length l))) as [Hle | Hgt].
  - rewrite Z.min_l by lia. reflexivity.
  - rewrite Z.min_r by lia.
    rewrite !skipn_all2 by lia.
    now rewrite !firstn_nil.
Qed.

(* ----------------------------------------------------------------- *)
(** ** The window around the active line *)

(** C8. For an active index [i >= 0] and a window radius [w],
    [getLyricsWindow] is the slice of the lines from [max(0, i - w)] up to,
    and without, [min(length, i + w + 1)], as [Array.prototype.slice] cuts
    it. For a radius [w >= 0] these are the lines within [w] of index [i],
    clipped to the array and in their order: the [k]-th element of the
    window is the line of index [max(0, i - w) + k] as long as that index is
    below the upper end. *)
Theorem getLyricsWindow_slice (lyrics : list LyricsLine) (i w : Z)
    (Hi : (0 <= i)%Z) :
  let lo := Z.max 0 (i - w) in
  let hi := Z.min (Z.of_nat (length lyrics)) (i + w + 1) in
  getLyricsWindow lyrics i (Some w) = Array_slice lyrics lo hi
  /\ ((0 <= w)%Z ->
      getLyricsWindow lyrics i (Some w)
        = firstn (Z.to_nat (hi - lo)) (skipn (Z.to_nat lo) lyrics)
      /\ forall k : nat,
           nth_error (getLyricsWindow lyrics i (Some w)) k =
           if (lo + Z.of_nat k <? hi)%Z then nth_error lyrics (Z.to_nat lo + k)
           else None).
Proof.
  intros lo hi.
  assert (Hcall : getLyricsWindow lyrics i (Some w) = Array_slice lyrics lo hi).
  { subst lo hi. unfold getLyricsWindow. destruct lyrics as [ | x rest].
    - unfold Array_slice. now rewrite skipn_nil, firstn_nil.
    - destruct (Z.ltb_spec i 0) as [? | _]; [ lia | reflexivity ]. }
  split; [ exact Hcall | ].
  intro Hw.
  assert (Hslice : getLyricsWindow lyrics i (Some w)
                   = firstn (Z.to_nat (hi - lo)) (skipn (Z.to_nat lo) lyrics)).
  { rewrite Hcall. subst lo hi. apply Array_slice_within; lia. }
  split; [ exact Hslice | ].
  intro k. rewrite Hslice, nth_error_firstn_skipn.
  destruct (Nat.ltb_spec k (Z.to_nat (hi - lo))), (Z.ltb_spec (lo + Z.of_nat k) hi);
    try reflexivity; subst lo hi; lia.
Qed.

Lemma getLyricsWindow_slice_witness :
  getLyricsWindow [mkLine (of_Z 1) "a"; mkLine (of_Z 2) "b"; mkLine (of_Z 3) "c";
                   mkLine (of_Z 4) "d"] 3 (Some 1%Z)
  = [mkLine (of_Z 3) "c"; mkLine (of_Z 4) "d"].
Proof.
  apply (proj1 (proj2 (getLyricsWindow_slice
                         [mkLine (of_Z 1) "a"; mkLine (of_Z 2) "b"; mkLine (of_Z 3) "c";
                          mkLine (of_Z 4) "d"] 3 1 ltac:(lia)) ltac:(lia))).
Defined.

(* ----------------------------------------------------------------- *)
(** ** The order of numbers *)

Lemma compare_scaled_at (m1 e1 m2 e2 E : Z) :
  (E <= e1)%Z -> (E <= e2)%Z ->
  compare_scaled (m1, e1) (m2, e2) = (m1 * 2 ^ (e1 - E) ?= m2 * 2 ^ (e2 - E))%Z.
Proof.
  intros H1 H2. unfold compare_scaled.
  set (e := Z.min e1 e2).
  assert (He : (E <= e)%Z) by (subst e; lia).
  replace (e1 - E)%Z with ((e1 - e) + (e - E))%Z by lia.
  replace (e2 - E)%Z with ((e2 - e) + (e - E))%Z by lia.
  rewrite !Z.pow_add_r by (subst e; lia).
  rewrite !Z.mul_assoc.
  apply Zmult_compare_compat_r.
  apply Z.lt_gt, Z.pow_pos_nonneg; lia.
Qed.

Lemma compare_scaled_antisym (a b : Z * Z) :
  compare_scaled b a = CompOpp (compare_scaled a b).
Proof.
  destruct a as [m1 e1], b as [m2 e2]. unfold compare_scaled.
  rewrite (Z.min_comm e2 e1). apply Z.compare_antisym.
Qed.

Lemma compare_scaled_refl (a : Z * Z) : compare_scaled a a = Eq.
Proof. destruct a as [m e]. unfold compare_scaled. apply Z.compare_refl. Qed.

(** The three values at one common exponent. *)
Lemma compare_scaled_common (a b c : Z * Z) :
  exists x y z : Z,
    compare_scaled a b = (x ?= y)%Z /\
    compare_scaled b c = (y ?= z)%Z /\
    compare_scaled a c = (x ?= z)%Z.
Proof.
  destruct a as [m1 e1], b as [m2 e2], c as [m3 e3].
  set (E := Z.min e1 (Z.min e2 e3)).
  exists (m1 * 2 ^ (e1 - E))%Z, (m2 * 2 ^ (e2 - E))%Z, (m3 * 2 ^ (e3 - E))%Z.
  repeat split; apply compare_scaled_at; subst E; lia.
Qed.

Lemma compare_scaled_lt_le_trans (a b c : Z * Z) :
  compare_scaled a b = Lt -> compare_scaled b c <> Gt -> compare_scaled a c = Lt.
Proof.
  destruct (compare_scaled_common a b c) as (x & y & z & -> & -> & ->).
  rewrite !Z.compare_lt_iff, Z.compare_gt_iff. lia.
Qed.

Lemma compare_scaled_le_lt_trans (a b c : Z * Z) :
  compare_scaled a b <> Gt -> compare_scaled b c = Lt -> compare_scaled a c = Lt.
Proof.
  destruct (compare_scaled_common a b c) as (x & y & z & -> & -> & ->).
  rewrite !Z.compare_lt_iff, Z.compare_gt_iff. lia.
Qed.

Lemma compare_scaled_eq_trans (a b c : Z * Z) :
  compare_scaled a b = Eq -> compare_scaled b c = Eq -> compare_scaled a c = Eq.
Proof.
  destruct (compare_scaled_common a b c) as (x & y & z & -> & -> & ->).
  rewrite !Z.compare_eq_iff. lia.
Qed.

Lemma Number_compare_antisym (x y : number) :
  Number_compare y x = option_map CompOpp (Number_compare x y).
Proof.
  destruct x as [sx | sx | | sx mx ex], y as [sy | sy | | sy my ey];
    try reflexivity;
    try (destruct sx; reflexivity);
    try (destruct sy; reflexivity);
    try (destruct sx, sy; reflexivity);
    cbn [Number_compare option_map]; f_equal; apply compare_scaled_antisym.
Qed.

(** [t >= x] is [x <= t]. *)
Lemma js_ge_le (t x : number) : js_ge t x = js_le x t.
Proof.
  unfold js_ge, js_le. rewrite (Number_compare_antisym x t).
  now destruct (Number_compare x t) as [ [ | | ] | ].
Qed.

Lemma js_gt_lt (t x : number) : js_gt t x = js_lt x t.
Proof.
  unfold js_gt, js_lt. rewrite (Number_compare_antisym x t).
  now destruct (Number_compare x t) as [ [ | | ] | ].
Qed.

Lemma js_lt_not_ge (t x : number) : js_lt t x = true -> js_ge t x = false.
Proof.
  unfold js_lt, js_ge. now destruct (Number_compare t x) as [ [ | | ] | ].
Qed.

Lemma js_lt_le_trans (a b c : number) :
  js_lt a b = true -> js_le b c = true -> js_lt a c = true.
Proof.
  unfold js_lt, js_le.
  destruct a as [sa | sa | | sa ma ea], b as [sb | sb | | sb mb eb],
      c as [sc | sc | | sc mc ec];
    cbn [Number_compare]; try discriminate; try reflexivity;
    try (destruct sa; try discriminate; try reflexivity;
         destruct sb; try discriminate; try reflexivity;
         destruct sc; try discriminate; reflexivity);
    try (destruct sa; try discriminate; try reflexivity;
         destruct sc; try discriminate; reflexivity);
    try (destruct sb; try discriminate; try reflexivity;
         destruct sc; try discriminate; reflexivity);
    try (destruct sc; try discriminate; reflexivity);
    try (destruct sb; try discriminate; reflexivity);
    try (destruct sa; try discriminate; reflexivity).
  all: intros H1 H2.
  all: match type of H1 with
       | context [compare_scaled ?A ?B] =>
           match type of H2 with
           | context [compare_scaled B ?C] =>
               rewrite (compare_scaled_lt_le_trans A B C);
                 [ reflexivity
                 | destruct (compare_scaled A B); (discriminate || reflexivity)
                 | destruct (compare_scaled B C); (discriminate || congruence) ]
           end
       end.
Qed.

(* ----------------------------------------------------------------- *)
(** ** The active line *)

(** What the backward loop has established once [n] indices are left: either
    none of the lines below [n] has started, or the one it returns is the
    last of them that has. *)
Lemma findActiveLine_from_spec (lyrics : list LyricsLine) (t : number) (n : nat) :
  n <= length lyrics ->
  (findActiveLine_from lyrics t n = (-1)%Z /\
   forall i l, i < n -> nth_error lyrics i = Some l -> js_le (time l) t = false)
  \/
  (exists i l,
     findActiveLine_from lyrics t n = Z.of_nat i /\ i < n /\
     nth_error lyrics i = Some l /\ js_le (time l) t = true /\
     forall j l', i < j < n -> nth_error lyrics j = Some l' -> js_le (time l') t = false).
Proof.
  induction n as [ | n IH]; intro Hn.
  - left. split; [ reflexivity | intros; lia ].
  - cbn [findActiveLine_from].
    destruct (nth_error lyrics n) as [l | ] eqn:El.
    2: { apply nth_error_None in El. lia. }
    rewrite js_ge_le.
    destruct (js_le (time l) t) eqn:Ecmp.
    + right. exists n, l. repeat split; trivial; try lia.
    + destruct (IH ltac:(lia)) as [[Hr Hnone] | (i & l0 & Hr & Hi & Hl0 & Hle & Hafter)].
      * left. split; [ exact Hr | ].
        intros i l' Hi Hl'. destruct (Nat.eq_dec i n) as [-> | ?].
        -- congruence.
        -- apply (Hnone i); [ lia | exact Hl' ].
      * right. exists i, l0. repeat split; trivial; try lia.
        intros j l' Hj Hl'. destruct (Nat.eq_dec j n) as [-> | ?].
        -- congruence.
        -- apply (Hafter j); [ lia | exact Hl' ].
Qed.

(** In a sorted list nothing has started before the first line has. *)
Lemma sorted_before_first (t : number) (lyrics : list LyricsLine) :
  sorted_by_time lyrics ->
  forall first, hd_error lyrics = Some first -> js_lt t (time first) = true ->
  forall l, In l lyrics -> js_lt t (time l) = true.
Proof.
  induction 1 as [ | a | a b rest Hab Hs IH]; intros first Hfirst Hlt l Hin.
  - destruct Hin.
  - injection Hfirst as <-. destruct Hin as [<- | []]. exact Hlt.
  - injection Hfirst as <-. destruct Hin as [<- | Hin]; [ exact Hlt | ].
    apply (IH b); trivial.
    apply (js_lt_le_trans _ (time a)); assumption.
Qed.

(** C5. On lines sorted by time, [findActiveLine] returns the largest index
    whose line has a time [<= currentTime] (so the last one in array order
    among lines of equal time), and [-1] when there is none: on the empty
    list and when [currentTime] is below every time. In particular it is
    [-1] when [currentTime] is below the time of the first line and the last
    index when [currentTime] has reached the time of the last line. *)
Theorem findActiveLine_last_started (lyrics : list LyricsLine) (currentTime : number)
    (Hsorted : sorted_by_time lyrics) :
  let r := findActiveLine lyrics currentTime in
  ((r = (-1)%Z /\
    forall i l, nth_error lyrics i = Some l -> js_le (time l) currentTime = false)
   \/
   (exists i l,
      r = Z.of_nat i /\ nth_error lyrics i = Some l /\
      js_le (time l) currentTime = true /\
      forall j l', i < j -> nth_error lyrics j = Some l' ->
                   js_le (time l') currentTime = false))
  /\ (lyrics = [] -> r = (-1)%Z)
  /\ ((forall l, In l lyrics -> js_lt currentTime (time l) = true) -> r = (-1)%Z)
  /\ (forall first, hd_error lyrics = Some first ->
        js_lt currentTime (time first) = true -> r = (-1)%Z)
  /\ (forall lst, nth_error lyrics (length lyrics - 1) = Some lst ->
        js_ge currentTime (time lst) = true -> r = Z.of_nat (length lyrics - 1)).
Proof.
  intro r.
  assert (Hr : r = findActiveLine_from lyrics currentTime (length lyrics)).
  { subst r. now destruct lyrics. }
  assert (Hspec := findActiveLine_from_spec lyrics currentTime (length lyrics) (le_n _)).
  rewrite <- Hr in Hspec.
  assert (Hbelow : (forall l, In l lyrics -> js_lt currentTime (time l) = true) ->
                   r = (-1)%Z).
  { intro Hall.
    destruct Hspec as [[H _] | (i & l & _ & _ & Hl & Hle & _)]; [ exact H | ].
    apply nth_error_In in Hl. apply Hall, js_lt_not_ge in Hl.
    rewrite js_ge_le in Hl. congruence. }
  split; [ | split; [ | split; [ | split ] ] ].
  - destruct Hspec as [[H Hnone] | (i & l & H & Hi & Hl & Hle & Hafter)].
    + left. split; [ exact H | ].
      intros i l Hl. apply (Hnone i); [ | exact Hl ].
      apply nth_error_Some. congruence.
    + right. exists i, l. repeat split; trivial.
      intros j l' Hj Hl'. apply (Hafter j); [ | exact Hl' ].
      split; [ exact Hj | ]. apply nth_error_Some. congruence.
  - intros ->. reflexivity.
  - exact Hbelow.
  - intros first Hfirst Hlt. apply Hbelow.
    apply (sorted_before_first currentTime lyrics Hsorted first Hfirst Hlt).
  - intros lst Hlst Hge.
    rewrite Hr. destruct (length lyrics) as [ | n] eqn:En.
    + destruct lyrics; [ discriminate Hlst | discriminate En ].
    + cbn [findActiveLine_from]. replace (S n - 1) with n in * by lia.
      now rewrite Hlst, Hge.
Qed.

Lemma findActiveLine_last_started_witness :
  findActiveLine [mkLine (of_Z 1) "Hello"; mkLine (of_Z 2) "World"] (of_Z 0) = (-1)%Z.
Proof.
  refine (proj1 (proj2 (proj2 (proj2
            (findActiveLine_last_started
               [mkLine (of_Z 1) "Hello"; mkLine (of_Z 2) "World"] (of_Z 0) _))))
            (mkLine (of_Z 1) "Hello") eq_refl _).
  - apply sorted_cons; [ vm_compute; reflexivity | apply sorted_one ].
  - vm_compute. reflexivity.
Defined.

(* ----------------------------------------------------------------- *)
(** ** The offset *)

Lemma Math_max_zero_not_negative (x : number) :
  js_lt (Math_max pos_zero x) pos_zero = false.
Proof.
  unfold Math_max, pos_zero. cbn [is_nan orb].
  destruct (is_nan x) eqn:Enan; [ reflexivity | ].
  destruct (js_gt x (S754_zero false)) eqn:Egt; [ | reflexivity ].
  unfold js_gt in Egt. unfold js_lt.
  now destruct (Number_compare x (S754_zero false)) as [ [ | | ] | ].
Qed.

(** Cells are only ever added at the end of the store. *)
Lemma read_line_extend (st ext : Store) (l : loc) (x : LyricsLine) :
  read_line st l = Some x -> read_line (st ++ ext) l = Some x.
Proof.
  unfold read_line. intro H.
  destruct (nth_error st l) as [c | ] eqn:E; [ | discriminate ].
  rewrite nth_error_app1 by (apply nth_error_Some; congruence).
  now rewrite E.
Qed.

Lemma read_lines_extend (st ext : Store) (elems : list loc) (lines : list LyricsLine) :
  read_lines st elems = Some lines -> read_lines (st ++ ext) elems = Some lines.
Proof.
  revert lines. induction elems as [ | l rest IH]; intros lines H; [ exact H | ].
  cbn [read_lines] in *.
  destruct (read_line st l) as [x | ] eqn:El; [ | discriminate ].
  destruct (read_lines st rest) as [xs | ] eqn:Er; [ | discriminate ].
  now rewrite (read_line_extend _ _ _ _ El), (IH _ eq_refl).
Qed.

Lemma read_lines_fresh (st : Store) (new : list LyricsLine) :
  read_lines (st ++ map CLine new) (seq (length st) (length new)) = Some new.
Proof.
  revert st. induction new as [ | x new IH]; intro st; [ reflexivity | ].
  cbn [length seq read_lines map].
  unfold read_line at 1.
  rewrite nth_error_app2, Nat.sub_diag by lia. cbn [nth_error].
  specialize (IH (st ++ [CLine x])).
  rewrite <- app_assoc, length_app in IH. cbn [length app] in IH.
  rewrite Nat.add_1_r in IH. now rewrite IH.
Qed.

Lemma map_offset_spec (off : number) (elems : list loc) :
  forall (st : Store) (lines : list LyricsLine),
    read_lines st elems = Some lines ->
    map_offset st off elems
    = Some (st ++ map CLine
                    (map (fun line => mkLine (Math_max pos_zero (Number_add (time line) off))
                                             (text line)) lines),
            seq (length st) (length lines)).
Proof.
  induction elems as [ | l rest IH]; intros st lines H.
  - injection H as <-. cbn. now rewrite app_nil_r.
  - cbn [read_lines] in H.
    destruct (read_line st l) as [x | ] eqn:El; [ | discriminate ].
    destruct (read_lines st rest) as [xs | ] eqn:Er; [ | discriminate ].
    injection H as <-.
    cbn [map_offset alloc]. rewrite El.
    rewrite (IH _ xs (read_lines_extend _ _ _ _ Er)).
    rewrite <- app_assoc, length_app. cbn [length app map seq].
    now rewrite Nat.add_1_r.
Qed.

(** C6. [applyOffset] returns a new array of new objects, as many as the
    input has lines: the time of each is
    [Math.max(0, time + offsetMs / 1000)], which is never negative, and its
    text is that of the input line. Every cell of the store it was given,
    the input array and its lines among them, is as it was. *)
Theorem applyOffset_fresh_and_clamped (st : Store) (lyrics : loc) (offsetMs : number)
    (lines : list LyricsLine) (Hlyrics : read_lyrics st lyrics = Some lines) :
  exists (st' : Store) (out : loc) (elems' : list loc) (lines' : list LyricsLine),
    applyOffset st lyrics offsetMs = Some (st', out)
    /\ (forall l c, nth_error st l = Some c -> nth_error st' l = Some c)
    /\ read_lyrics st' lyrics = Some lines
    /\ length st <= out
    /\ read_array st' out = Some elems'
    /\ Forall (fun l => length st <= l) elems'
    /\ read_lines st' elems' = Some lines'
    /\ length lines' = length lines
    /\ forall i line, nth_error lines i = Some line ->
         exists line',
           nth_error lines' i = Some line'
           /\ time line' = Math_max pos_zero
                             (Number_add (time line) (Number_div offsetMs (of_Z 1000)))
           /\ js_lt (time line') pos_zero = false
           /\ text line' = text line.
Proof.
  unfold read_lyrics in Hlyrics.
  destruct (read_array st lyrics) as [elems | ] eqn:Earr; [ | discriminate ].
  set (off := Number_div offsetMs (of_Z 1000)).
  set (f := fun line => mkLine (Math_max pos_zero (Number_add (time line) off)) (text line)).
  set (st1 := st ++ map CLine (map f lines)).
  set (out1 := seq (length st) (length lines)).
  assert (Happly : applyOffset st lyrics offsetMs
                   = Some (st1 ++ [CArray out1], length st1)).
  { unfold applyOffset. rewrite Earr.
    destruct elems as [ | l rest].
    - injection Hlyrics as <-. subst st1 out1. cbn. now rewrite app_nil_r.
    - fold off. now rewrite (map_offset_spec off _ st lines Hlyrics). }
  assert (Hframe : forall l c, nth_error st l = Some c ->
                               nth_error (st1 ++ [CArray out1]) l = Some c).
  { intros l c Hl. subst st1. rewrite <- app_assoc.
    rewrite nth_error_app1 by (apply nth_error_Some; congruence). exact Hl. }
  exists (st1 ++ [CArray out1]), (length st1), out1, (map f lines).
  split; [ exact Happly | ].
  split; [ exact Hframe | ].
  split.
  { unfold read_lyrics, read_array in *.
    destruct (nth_error st lyrics) as [c | ] eqn:Ec; [ | discriminate ].
    rewrite (Hframe _ _ Ec). destruct c; [ discriminate | ].
    injection Earr as ->. subst st1. rewrite <- app_assoc.
    now apply read_lines_extend. }
  split; [ subst st1; rewrite length_app; lia | ].
  split.
  { unfold read_array. now rewrite nth_error_app2, Nat.sub_diag by lia. }
  split.
  { subst out1. apply Forall_forall. intros l Hl. apply in_seq in Hl. lia. }
  split.
  { apply read_lines_extend. subst st1 out1.
    rewrite <- (length_map f lines). apply read_lines_fresh. }
  split; [ apply length_map | ].
  intros i line Hi. exists (f line).
  split; [ now apply map_nth_error | ].
  split; [ reflexivity | ].
  split; [ apply Math_max_zero_not_negative | reflexivity ].
Qed.

(** The line at 2 seconds, moved by -5000 ms, is at 0 seconds. *)
Lemma applyOffset_fresh_and_clamped_witness :
  exists st' out elems',
    applyOffset [CLine (mkLine (of_Z 2) "la"); CArray [0]] 1 (of_Z (-5000)) = Some (st', out)
    /\ read_array st' out = Some elems'
    /\ read_lines st' elems' = Some [mkLine pos_zero "la"].
Proof.
  destruct (applyOffset_fresh_and_clamped
              [CLine (mkLine (of_Z 2) "la"); CArray [0]] 1 (of_Z (-5000))
              [mkLine (of_Z 2) "la"] eq_refl)
    as (st' & out & elems' & lines' & Happly & _ & _ & _ & Harr & _ & Hlines & Hlen & Hat).
  exists st', out, elems'.
  split; [ exact Happly | ]. split; [ exact Harr | ].
  rewrite Hlines. f_equal.
  destruct lines' as [ | x [ | y rest]]; try discriminate Hlen.
  destruct (Hat 0 _ eq_refl) as (line' & Hx & Htime & _ & Htext).
  injection Hx as <-. destruct x as [tx sx]. cbn in Htime, Htext. subst tx sx.
  vm_compute. reflexivity.
Defined.

(* ----------------------------------------------------------------- *)
(** ** Strings *)

Lemma append_nil_r (s : string) : (s ++ "")%string = s.
Proof. induction s as [ | c s IH]; cbn; [ reflexivity | now rewrite IH ]. Qed.

Lemma append_assoc (a b c : string) : ((a ++ b) ++ c)%string = (a ++ b ++ c)%string.
Proof. induction a as [ | x a IH]; cbn; [ reflexivity | now rewrite IH ]. Qed.

Lemma length_append (a b : string) :
  String.length (a ++ b) = String.length a + String.length b.
Proof. induction a as [ | x a IH]; cbn; [ reflexivity | now rewrite IH ]. Qed.

Lemma take_append (a b : string) : take (String.length a) (a ++ b) = a.
Proof. induction a as [ | x a IH]; cbn; [ reflexivity | now rewrite IH ]. Qed.

Lemma consumed_append (t rest : string) : consumed (t ++ rest) rest = t.
Proof.
  unfold consumed. rewrite length_append.
  replace (String.length t + String.length rest - String.length rest)
    with (String.length t) by lia.
  apply take_append.
Qed.

Lemma drop_suffix (n : nat) (s : string) :
  n <= String.length s -> exists pre, s = (pre ++ drop n s)%string /\ String.length pre = n.
Proof.
  revert s. induction n as [ | n IH]; intros s Hn.
  - now exists EmptyString.
  - destruct s as [ | c s]; [ cbn in Hn; lia | ].
    destruct (IH s ltac:(cbn in Hn; lia)) as (pre & Hpre & Hlen).
    exists (String c pre). cbn. split; [ now rewrite <- Hpre | now rewrite Hlen ].
Qed.

(* ----------------------------------------------------------------- *)
(** ** The matcher and the language of a pattern *)

Lemma lit_match_sound (ic : bool) (p : string) :
  forall s s', lit_match ic p s = Some s' ->
               exists t, s = (t ++ s')%string /\ lit_eq ic p t.
Proof.
  induction p as [ | a p IH]; intros s s' H.
  - injection H as <-. now exists EmptyString.
  - destruct s as [ | b s]; [ discriminate | ]. cbn in H.
    destruct (char_eq ic a b) eqn:Eab; [ | discriminate ].
    destruct (IH _ _ H) as (t & -> & Ht).
    exists (String b t). now split.
Qed.

Lemma lit_match_complete (ic : bool) (p : string) :
  forall t s', lit_eq ic p t -> lit_match ic p (t ++ s') = Some s'.
Proof.
  induction p as [ | a p IH]; intros [ | b t] s' H; cbn in H; try contradiction.
  - reflexivity.
  - destruct H as [Hab Ht]. cbn. rewrite Hab. now apply IH.
Qed.

Lemma lit_eq_false_eq (p t : string) : lit_eq false p t -> t = p.
Proof.
  revert t. induction p as [ | a p IH]; intros [ | b t] H; cbn in H;
    try contradiction; [ reflexivity | ].
  destruct H as [Hab Ht]. apply Ascii.eqb_eq in Hab. subst b. now rewrite (IH t Ht).
Qed.

Lemma all_in_digits (ds : string) : all_in Digit ds <-> all_digits ds = true.
Proof.
  unfold all_digits. induction ds as [ | c ds IH]; cbn; [ tauto | ].
  rewrite andb_true_iff. tauto.
Qed.

Lemma lit_eq_refl (p : string) : lit_eq false p p.
Proof.
  induction p as [ | a p IH]; cbn; [ exact I | ].
  split; [ apply Ascii.eqb_refl | exact IH ].
Qed.

Section MatcherFacts.
Variable ic : bool.
Variable R : Type.

Lemma star_match_sound (cc : cclass) (caps : list string) (k : cont R) :
  forall s x, star_match cc s caps k = Some x ->
              exists t s', s = (t ++ s')%string /\ all_in cc t /\ k s' caps = Some x.
Proof.
  induction s as [ | c s IH]; intros x H; cbn in H.
  - now exists EmptyString, EmptyString.
  - destruct (class_matches cc c) eqn:Ec.
    + destruct (star_match cc s caps k) as [y | ] eqn:Es.
      * injection H as <-. destruct (IH _ eq_refl) as (t & s' & -> & Ht & Hk).
        exists (String c t), s'. now repeat split.
      * now exists EmptyString, (String c s).
    + now exists EmptyString, (String c s).
Qed.

Lemma star_match_complete (cc : cclass) (caps : list string) (k : cont R) :
  forall t s', all_in cc t -> k s' caps <> None ->
               star_match cc (t ++ s') caps k <> None.
Proof.
  induction t as [ | c t IH]; intros s' Ht Hk.
  - cbn. destruct s' as [ | c s']; [ exact Hk | ]. cbn.
    destruct (class_matches cc c); [ | exact Hk ].
    now destruct (star_match cc s' caps k).
  - destruct Ht as [Hc Ht]. cbn. rewrite Hc.
    specialize (IH s' Ht Hk).
    now destruct (star_match cc (t ++ s') caps k).
Qed.

(** What the matcher accepts is in the language: the input splits into a
    member of the language and a rest the continuation accepts. *)
Lemma rmatch_sound (r : regex) :
  forall s caps (k : cont R) x,
    rmatch ic r s caps k = Some x ->
    exists t s' caps', s = (t ++ s')%string /\ matches ic r t /\ k s' caps' = Some x.
Proof.
  induction r as [p | cc | r1 IH1 r2 IH2 | r1 IH1 r2 IH2 | r1 IH1 | cc | cc | r1 IH1];
    intros s caps k x H; cbn [rmatch] in H.
  - destruct (lit_match ic p s) as [s' | ] eqn:El; [ | discriminate ].
    destruct (lit_match_sound _ _ _ _ El) as (t & -> & Ht).
    now exists t, s', caps.
  - destruct s as [ | c s]; [ discriminate | ].
    destruct (class_matches cc c) eqn:Ec; [ | discriminate ].
    exists (String c EmptyString), s, caps. repeat split; trivial. now exists c.
  - destruct (IH1 _ _ _ _ H) as (t1 & s1 & caps1 & -> & Ht1 & H2).
    destruct (IH2 _ _ _ _ H2) as (t2 & s2 & caps2 & -> & Ht2 & Hk).
    exists (t1 ++ t2)%string, s2, caps2. rewrite append_assoc.
    repeat split; trivial. now exists t1, t2.
  - destruct (rmatch ic r1 s caps k) as [y | ] eqn:E1.
    + injection H as <-. destruct (IH1 _ _ _ _ E1) as (t & s' & caps' & -> & Ht & Hk).
      exists t, s', caps'. repeat split; trivial. now left.
    + destruct (IH2 _ _ _ _ H) as (t & s' & caps' & -> & Ht & Hk).
      exists t, s', caps'. repeat split; trivial. now right.
  - destruct (rmatch ic r1 s caps k) as [y | ] eqn:E1.
    + injection H as <-. destruct (IH1 _ _ _ _ E1) as (t & s' & caps' & -> & Ht & Hk).
      exists t, s', caps'. repeat split; trivial. now right.
    + exists EmptyString, s, caps. repeat split; trivial. now left.
  - destruct (star_match_sound _ _ _ _ _ H) as (t & s' & -> & Ht & Hk).
    now exists t, s', caps.
  - destruct s as [ | c s]; [ discriminate | ].
    destruct (class_matches cc c) eqn:Ec; [ | discriminate ].
    destruct (star_match_sound _ _ _ _ _ H) as (t & s' & -> & Ht & Hk).
    exists (String c t), s', caps. repeat split; trivial. discriminate.
  - destruct (IH1 _ _ _ _ H) as (t & s' & caps' & -> & Ht & Hk).
    now exists t, s', (caps' ++ [consumed (t ++ s') s']).
Qed.

(** A member of the language followed by a rest that the continuation
    accepts, whatever the captures, is accepted. *)
Lemma rmatch_complete (r : regex) :
  forall t s' caps (k : cont R),
    matches ic r t -> (forall caps', k s' caps' <> None) ->
    rmatch ic r (t ++ s') caps k <> None.
Proof.
  induction r as [p | cc | r1 IH1 r2 IH2 | r1 IH1 r2 IH2 | r1 IH1 | cc | cc | r1 IH1];
    intros t s' caps k Ht Hk; cbn [rmatch matches] in *.
  - rewrite (lit_match_complete _ _ _ _ Ht). apply Hk.
  - destruct Ht as (c & -> & Hc). cbn. rewrite Hc. apply Hk.
  - destruct Ht as (t1 & t2 & -> & Ht1 & Ht2). rewrite append_assoc.
    apply IH1; [ exact Ht1 | ]. intro caps1. now apply IH2.
  - destruct (rmatch ic r1 (t ++ s') caps k) eqn:E1; [ discriminate | ].
    destruct Ht as [Ht | Ht].
    + exfalso. revert E1. now apply IH1.
    + now apply IH2.
  - destruct (rmatch ic r1 (t ++ s') caps k) eqn:E1; [ discriminate | ].
    destruct Ht as [-> | Ht].
    + apply Hk.
    + exfalso. revert E1. now apply IH1.
  - apply star_match_complete; [ exact Ht | apply Hk ].
  - destruct Ht as [Hne Ht]. destruct t as [ | c t]; [ contradiction | ].
    destruct Ht as [Hc Ht]. cbn. rewrite Hc.
    apply star_match_complete; [ exact Ht | apply Hk ].
  - apply IH1; [ exact Ht | ]. intro caps1. apply Hk.
Qed.
End MatcherFacts.

Lemma match_here_sound (ic : bool) (r : regex) (s : string) (caps : list string) (len : nat) :
  match_here ic r s = Some (caps, len) ->
  exists t s', s = (t ++ s')%string /\ matches ic r t /\ len = String.length t.
Proof.
  unfold match_here. intro H.
  destruct (rmatch_sound _ _ _ _ _ _ _ H) as (t & s' & caps' & -> & Ht & Hk).
  exists t, s'. repeat split; trivial.
  injection Hk as _ <-. rewrite length_append. lia.
Qed.

Lemma match_here_complete (ic : bool) (r : regex) (t s' : string) :
  matches ic r t -> match_here ic r (t ++ s') <> None.
Proof.
  intro Ht. unfold match_here. apply rmatch_complete; [ exact Ht | discriminate ].
Qed.

(** A search succeeds exactly on the subjects in which the language of the
    pattern occurs. *)
Lemma search_sound (ic : bool) (r : regex) :
  forall s i m, search ic r s i = Some m ->
    exists pre t post,
      s = (pre ++ t ++ post)%string /\ matches ic r t /\
      m_index m = i + String.length pre /\ m_end m = m_index m + String.length t.
Proof.
  induction s as [ | c s IH]; intros i m H; cbn [search] in H.
  - destruct (match_here ic r "") as [[caps len] | ] eqn:E; [ | discriminate ].
    injection H as <-. destruct (match_here_sound _ _ _ _ _ E) as (t & s' & Hs & Ht & ->).
    exists EmptyString, t, s'. cbn. repeat split; trivial; lia.
  - destruct (match_here ic r (String c s)) as [[caps len] | ] eqn:E.
    + injection H as <-. destruct (match_here_sound _ _ _ _ _ E) as (t & s' & Hs & Ht & ->).
      exists EmptyString, t, s'. cbn. repeat split; trivial; lia.
    + destruct (IH _ _ H) as (pre & t & post & -> & Ht & Hi & He).
      exists (String c pre), t, post. cbn. repeat split; trivial; lia.
Qed.

Lemma search_complete (ic : bool) (r : regex) (pre t post : string) :
  matches ic r t -> forall i, search ic r (pre ++ t ++ post) i <> None.
Proof.
  intro Ht. induction pre as [ | c pre IH]; intro i.
  - cbn [append]. pose proof (match_here_complete ic r t post Ht) as Hm.
    destruct (t ++ post)%string; cbn [search];
      destruct (match_here ic r _) as [[caps len] | ]; congruence.
  - cbn [append search].
    destruct (match_here ic r _) as [[caps len] | ]; [ discriminate | apply IH ].
Qed.

Lemma search_occurs (re : RegExp) (s : string) (i : nat) :
  search (re_ignoreCase re) (re_source re) s i <> None <-> occurs re s.
Proof.
  split.
  - destruct (search _ _ s i) as [m | ] eqn:E; [ intros _ | congruence ].
    destruct (search_sound _ _ _ _ _ E) as (pre & t & post & Hs & Ht & _).
    now exists pre, t, post.
  - intros (pre & t & post & -> & Ht). now apply search_complete.
Qed.

(** The language of [LRC_TIMESTAMP_REGEX] is made of the well-formed
    timestamps. *)
Lemma LRC_TIMESTAMP_language (t : string) :
  matches false (re_source LRC_TIMESTAMP_REGEX) t <-> is_timestamp_tag t.
Proof.
  cbn [re_source LRC_TIMESTAMP_REGEX matches]. split.
  - intros (t1 & r1 & -> & H1 & mm & r2 & -> & Hmm & t3 & r3 & -> & H3
            & sf & t5 & -> & Hsf & H5).
    apply lit_eq_false_eq in H1, H3, H5. subst t1 t3 t5.
    destruct Hmm as (m1 & m2 & -> & (c1 & -> & Hc1) & Hm2).
    destruct Hsf as (s1 & sr & -> & (d1 & -> & Hd1) & s2 & fr & -> & (d2 & -> & Hd2) & Hfr).
    cbn [class_matches] in *.
    exists (String c1 m2), (String d1 (String d2 EmptyString)), fr.
    split; [ now rewrite !append_assoc | ].
    split.
    { destruct Hm2 as [-> | (c2 & -> & Hc2)]; unfold all_digits; cbn;
        cbn [class_matches] in *; now rewrite ?Hc1, ?Hc2. }
    split; [ destruct Hm2 as [-> | (c2 & -> & _)]; cbn; auto | ].
    split; [ unfold all_digits; cbn; now rewrite Hd1, Hd2 | ].
    split; [ reflexivity | ].
    destruct Hfr as [-> | (p & ds & -> & Hp & Hne & Hds)]; [ now left | right ].
    apply lit_eq_false_eq in Hp. subst p.
    exists ds. repeat split; trivial. now apply all_in_digits.
  - intros (mm & ss & fr & -> & Hmm & Hlm & Hss & Hls & Hfr).
    exists "["%string, (mm ++ ":" ++ ss ++ fr ++ "]")%string.
    split; [ reflexivity | ]. split; [ apply lit_eq_refl | ].
    exists mm, (":" ++ ss ++ fr ++ "]")%string.
    split; [ reflexivity | ]. split.
    { apply all_in_digits in Hmm.
      destruct mm as [ | c1 [ | c2 [ | c3 mm]]]; cbn in Hlm;
        try (destruct Hlm; discriminate).
      - exists (String c1 EmptyString), EmptyString. cbn in Hmm.
        repeat split; [ now exists c1 | now left ].
      - exists (String c1 EmptyString), (String c2 EmptyString). cbn in Hmm.
        repeat split; [ now exists c1 | right; now exists c2 ]. }
    exists ":"%string, (ss ++ fr ++ "]")%string.
    split; [ reflexivity | ]. split; [ apply lit_eq_refl | ].
    exists (ss ++ fr)%string, "]"%string.
    split; [ now rewrite append_assoc | ]. split; [ | apply lit_eq_refl ].
    apply all_in_digits in Hss.
    destruct ss as [ | d1 [ | d2 [ | d3 ss]]]; try discriminate Hls. cbn in Hss.
    exists (String d1 EmptyString), (String d2 fr).
    split; [ reflexivity | ]. split; [ now exists d1 | ].
    exists (String d2 EmptyString), fr.
    split; [ reflexivity | ]. split; [ now exists d2 | ].
    destruct Hfr as [-> | (ds & -> & Hne & Hds)]; [ now left | right ].
    exists "."%string, ds. split; [ reflexivity | ]. split; [ apply lit_eq_refl | ].
    split; [ exact Hne | now apply all_in_digits ].
Qed.

Lemma has_timestamp_occurs (s : string) :
  has_timestamp s <-> occurs LRC_TIMESTAMP_REGEX s.
Proof.
  unfold has_timestamp, occurs. cbn [re_ignoreCase LRC_TIMESTAMP_REGEX].
  split; intros (pre & t & post & Hs & Ht); exists pre, t, post;
    (split; [ exact Hs | now apply LRC_TIMESTAMP_language ]).
Qed.

(* ----------------------------------------------------------------- *)
(** ** The playable URL *)





Lemma find_first {A : Type} (p : A -> bool) (l : list A) (d : A) :
  find p l = Some d ->
  exists pre post, l = pre ++ d :: post /\ p d = true /\ forall x, In x pre -> p x = false.
Proof.
  induction l as [ | y l IH]; intro H; [ discriminate | ]. cbn in H.
  destruct (p y) eqn:Ey.
  - injection H as <-. exists [], l. repeat split; trivial. intros x [].
  - destruct (IH H) as (pre & post & -> & Hd & Hpre).
    exists (y :: pre), post. repeat split; trivial.
    intros x [<- | Hx]; [ exact Ey | now apply Hpre ].
Qed.

Lemma last_cons {A : Type} (l : list A) (a d : A) : last (a :: l) d = last l a.
Proof.
  revert a d. induction l as [ | y l IH]; intros a d; [ reflexivity | ].
  change (last (a :: y :: l) d) with (last (y :: l) d). now rewrite !IH.
Qed.

Lemma last_is_nth {A : Type} (l : list A) (d : A) :
  nth_error (d :: l) (length (d :: l) - 1) = Some (last l d).
Proof.
  revert d. induction l as [ | y l IH]; intro d; [ reflexivity | ].
  specialize (IH y). cbn [length] in *. rewrite Nat.sub_succ, Nat.sub_0_r in *.
  cbn [nth_error]. rewrite IH. now rewrite last_cons.
Qed.

Lemma url_of_last_spec (ds : list DownloadUrl) :
  ds <> [] ->
  exists d, nth_error ds (length ds - 1) = Some d /\ url_of_last ds = Normal (link_or_url d).
Proof.
  destruct ds as [ | d rest]; [ contradiction | intros _ ].
  exists (last rest d). split; [ apply last_is_nth | reflexivity ].
Qed.

(** A string that [||] takes: present and not empty. *)
Lemma link_or_url_spec (d : DownloadUrl) :
  (forall u, link_or_url d = Some u ->
             u <> EmptyString /\ (link d = Some u \/ url d = Some u))
  /\ (link_or_url d = None <->
      (link d = None \/ link d = Some EmptyString) /\
      (url d = None \/ url d = Some EmptyString)).
Proof.
  unfold link_or_url, or_else.
  destruct (link d) as [[ | a s] | ], (url d) as [[ | b s'] | ]; cbn; split.
  all: try (intros u H;
            first [ discriminate H
                  | injection H as <-; split; [ discriminate | auto ] ]).
  all: split.
  all: try (intro H; discriminate H).
  all: try (intros _; split; auto).
  all: intros [[H | H] [H' | H']]; discriminate.
Qed.





(** [selectUrl(..., "unknown-tier")] falls back to the last candidate. *)
Example getUrlByQuality_unknown_tier :
  getUrlByQuality [mkDownloadUrl "48kbps" None (Some "a");
                   mkDownloadUrl "320kbps" None (Some "b")] Q_other
  = Normal (Some "b").
Proof. reflexivity. Qed.

(** With the tier [__proto__] the pattern is the class of the characters
    of [[object Object]]: the b of [48kbps] is one of them, and the first
    candidate is picked. *)
Example getUrlByQuality_proto_tier :
  getUrlByQuality [mkDownloadUrl "48kbps" None (Some "a");
                   mkDownloadUrl "320kbps" None (Some "b")] Q_proto
  = Normal (Some "a").
Proof. reflexivity. Qed.


(* ----------------------------------------------------------------- *)
(** ** Lines without a timestamp *)

Lemma occurs_in_context (re : RegExp) (a s b : string) :
  occurs re s -> occurs re (a ++ s ++ b).
Proof.
  intros (pre & t & post & -> & Ht).
  exists (a ++ pre)%string, t, (post ++ b)%string.
  split; [ now rewrite !append_assoc | exact Ht ].
Qed.

Lemma scan_matches_sound (re : RegExp) :
  forall s i skip,
    scan_matches (re_ignoreCase re) (re_source re) s i skip <> [] -> occurs re s.
Proof.
  induction s as [ | c s IH]; intros i skip H; cbn [scan_matches] in H.
  - destruct skip; [ | contradiction ].
    destruct (match_here _ _ "") as [[caps len] | ] eqn:E; [ | contradiction ].
    destruct (match_here_sound _ _ _ _ _ E) as (t & s' & Hs & Ht & _).
    exists EmptyString, t, s'. now split.
  - assert (Htail : forall j k,
               scan_matches (re_ignoreCase re) (re_source re) s j k <> [] ->
               occurs re (String c s)).
    { intros j k Hjk.
      pose proof (occurs_in_context re (String c EmptyString) s EmptyString
                    (IH _ _ Hjk)) as Ho.
      rewrite append_nil_r in Ho. exact Ho. }
    destruct skip as [ | n]; [ | exact (Htail _ _ H) ].
    destruct (match_here _ _ (String c s)) as [[caps len] | ] eqn:E;
      [ | exact (Htail _ _ H) ].
    destruct (match_here_sound _ _ _ _ _ E) as (t & s' & Hs & Ht & _).
    exists EmptyString, t, s'. now split.
Qed.

Lemma String_matchAll_sound (re : RegExp) (subject : string) (lastIndex : nat) :
  String_matchAll re subject lastIndex <> [] -> occurs re subject.
Proof.
  unfold String_matchAll.
  destruct (Nat.ltb_spec (String.length subject) lastIndex) as [ | Hle];
    [ contradiction | ].
  intro H. apply scan_matches_sound in H.
  destruct (drop_suffix lastIndex subject Hle) as (pre & Hpre & _).
  pose proof (occurs_in_context re pre _ EmptyString H) as Ho.
  now rewrite append_nil_r, <- Hpre in Ho.
Qed.

Lemma split_lines_not_nil (s : string) : split_lines s <> [].
Proof.
  destruct s as [ | c s]; cbn [split_lines]; [ discriminate | ].
  destruct (Ascii.eqb c LF); [ discriminate | ].
  destruct (split_lines s); discriminate.
Qed.

(** [split] and [join] on the line feed are inverse to each other. *)
Lemma join_split_lines (s : string) : join_lines (split_lines s) = s.
Proof.
  induction s as [ | c s IH]; [ reflexivity | ]. cbn [split_lines].
  pose proof (split_lines_not_nil s) as Hne.
  destruct (Ascii.eqb_spec c LF) as [-> | _].
  - destruct (split_lines s) as [ | piece pieces]; [ contradiction | ].
    cbn [join_lines append]. now rewrite <- IH.
  - destruct (split_lines s) as [ | piece pieces]; [ contradiction | ].
    rewrite <- IH. now destruct pieces.
Qed.

Lemma join_lines_substring (pieces : list string) (line : string) :
  In line pieces -> exists a b, join_lines pieces = (a ++ line ++ b)%string.
Proof.
  induction pieces as [ | p rest IH]; intros Hin; [ destruct Hin | ].
  destruct rest as [ | q rest].
  - destruct Hin as [<- | []]. exists EmptyString, EmptyString.
    cbn. now rewrite append_nil_r.
  - change (join_lines (p :: q :: rest))
      with (p ++ String LF (join_lines (q :: rest)))%string.
    destruct Hin as [<- | Hin].
    + now exists EmptyString, (String LF (join_lines (q :: rest))).
    + destruct (IH Hin) as (a & b & ->).
      exists (p ++ String LF a)%string, b.
      now rewrite append_assoc.
Qed.

(** Every piece of [split] is a substring of what was split. *)
Lemma split_lines_substring (s line : string) :
  In line (split_lines s) -> exists a b, s = (a ++ line ++ b)%string.
Proof.
  intro Hin. apply join_lines_substring in Hin.
  now rewrite join_split_lines in Hin.
Qed.

(** A line without timestamp leaves the entries collected so far as they
    are, whatever [lastIndex] is. *)
Lemma parse_line_untimed (st : RegExpState) (acc : list LyricsLine) (line : string) :
  ~ has_timestamp line -> snd (parse_line (st, acc) line) = acc.
Proof.
  intro Hno. unfold parse_line.
  cbn [String_replace_empty lrc_lastIndex meta_lastIndex].
  destruct (is_empty _); [ reflexivity | ].
  destruct (String_matchAll LRC_TIMESTAMP_REGEX line (lrc_lastIndex st)) eqn:E;
    [ reflexivity | ].
  exfalso. apply Hno, has_timestamp_occurs.
  apply (String_matchAll_sound _ _ (lrc_lastIndex st)).
  rewrite E. discriminate.
Qed.

Lemma fold_parse_line_untimed (lines : list string) :
  (forall line, In line lines -> ~ has_timestamp line) ->
  forall st acc, snd (fold_left parse_line lines (st, acc)) = acc.
Proof.
  induction lines as [ | line lines IH]; intros Hno st acc; [ reflexivity | ].
  cbn [fold_left].
  pose proof (parse_line_untimed st acc line (Hno _ (or_introl eq_refl))) as H1.
  destruct (parse_line (st, acc) line) as [st1 acc1]. cbn in H1. subst acc1.
  apply IH. intros l Hl. apply Hno. now right.
Qed.

(** On a subject that is not empty, the search decides whether a timestamp
    occurs. *)
Lemma has_timestamp_search (s : string) :
  has_timestamp s <->
  search false (re_source LRC_TIMESTAMP_REGEX) s 0 <> None.
Proof.
  rewrite has_timestamp_occurs. symmetry. apply (search_occurs LRC_TIMESTAMP_REGEX).
Qed.

(** A text without timestamp has no line with one. *)
Lemma no_timestamp_in_lines (lrcText : string) :
  ~ has_timestamp lrcText ->
  forall line, In line (split_lines lrcText) -> ~ has_timestamp line.
Proof.
  intros Hno line Hin Hts.
  destruct (split_lines_substring _ _ Hin) as (a & b & Hs).
  apply Hno, has_timestamp_occurs. rewrite Hs.
  now apply occurs_in_context, has_timestamp_occurs.
Qed.

(** C7. [parseLrcLyrics] is a total function, and on a text none of whose
    lines has a well-formed timestamp (the empty string, plain lyrics,
    malformed timestamps) it returns the empty sequence, whatever state the
    regular expression objects are in. *)
Theorem parseLrcLyrics_untimed (st : RegExpState) (lrcText : string)
    (Hno : forall line, In line (split_lines lrcText) -> ~ has_timestamp line) :
  fst (parseLrcLyrics st lrcText) = [].
Proof.
  unfold parseLrcLyrics. destruct (is_empty lrcText); [ reflexivity | ].
  pose proof (fold_parse_line_untimed (split_lines lrcText) Hno st []) as Hfold.
  destruct (fold_left parse_line (split_lines lrcText) (st, [])) as [st' parsed].
  cbn [fst snd] in *. now subst parsed.
Qed.

Lemma parseLrcLyrics_untimed_witness :
  fst (parseLrcLyrics initial_state "plain line with no tags") = []
  /\ fst (parseLrcLyrics initial_state "") = []
  /\ fst (parseLrcLyrics (mkState 10 0) "[1:2] [aa:bb.cc]
[123:45.6] [00:7]") = [].
Proof.
  refine (conj (parseLrcLyrics_untimed initial_state "plain line with no tags" _)
           (conj (parseLrcLyrics_untimed initial_state "" _)
                 (parseLrcLyrics_untimed (mkState 10 0) "[1:2] [aa:bb.cc]
[123:45.6] [00:7]" _)));
    apply no_timestamp_in_lines;
    intro H; apply has_timestamp_search in H; apply H; vm_compute; reflexivity.
Defined.

(* ----------------------------------------------------------------- *)
(** ** Format detection and the state it leaves *)

(** With [lastIndex] at 0, [isLrcFormat] answers whether a timestamp occurs
    in the text. *)
Lemma isLrcFormat_from_zero (st : RegExpState) (txt : string) :
  lrc_lastIndex st = 0 ->
  fst (isLrcFormat st txt) = true <-> has_timestamp txt.
Proof.
  intro H0. rewrite has_timestamp_search.
  unfold isLrcFormat, RegExp_test, RegExp_exec. rewrite H0.
  cbn [re_global LRC_TIMESTAMP_REGEX re_ignoreCase re_source Nat.ltb Nat.leb drop].
  destruct txt as [ | c txt]; [ vm_compute; split; [ discriminate | congruence ] | ].
  cbn [is_empty].
  destruct (search false _ (String c txt) 0); cbn [fst];
    split; congruence.
Qed.

(** C1. The answer of [isLrcFormat] depends on what earlier calls left in
    [LRC_TIMESTAMP_REGEX.lastIndex]: on a text with a timestamp the first
    call says [true] and the second [false]; and a call of [isLrcFormat]
    changes what [parseLrcLyrics] returns next, from one entry to none. *)
Theorem isLrcFormat_depends_on_lastIndex :
  let s := "[00:01.00]Hello" in
  let st1 := snd (isLrcFormat initial_state s) in
  has_timestamp s
  /\ fst (isLrcFormat initial_state s) = true
  /\ fst (isLrcFormat st1 s) = false
  /\ fst (parseLrcLyrics initial_state s) = [mkLine (of_Z 1) "Hello"]
  /\ fst (parseLrcLyrics st1 s) = [].
Proof.
  cbv zeta. split.
  - apply has_timestamp_search. vm_compute. discriminate.
  - vm_compute. repeat split.
Qed.

(* ----------------------------------------------------------------- *)
(** ** Metadata tags *)

(** A line that is empty once its metadata tags are removed gives no
    entry. *)
Lemma parse_line_only_metadata (st : RegExpState) (acc : list LyricsLine) (line : string) :
  is_empty (without_metadata line) = true -> snd (parse_line (st, acc) line) = acc.
Proof.
  unfold without_metadata, parse_line. cbn [String_replace_empty fst].
  now intros ->.
Qed.

(** C2. The metadata tag of a line that also has a timestamp stays in the
    text of the entry: the tags are removed from [cleanLine], which only
    decides whether the line is skipped, and the text is taken from the
    line itself. *)
Theorem parseLrcLyrics_keeps_metadata_tag :
  fst (parseLrcLyrics initial_state "[00:01.00][ti:Song Name]Hello")
  = [mkLine (of_Z 1) "[ti:Song Name]Hello"].
Proof. vm_compute. reflexivity. Qed.

(* ----------------------------------------------------------------- *)
(** ** Back to LRC text *)

(** C9. The round trip through [toLrcFormat] loses a hundredth of a second
    on the entry at 1.13 s, which [parseLrcLyrics] itself produces:
    [(1.13 % 1) * 100] is 12.99..., and [Math.floor] makes it 12. *)
Theorem toLrcFormat_roundtrip_loses_a_hundredth :
  let lines := [mkLine (of_decimal false 113 2) "la"] in
  fst (parseLrcLyrics initial_state "[00:01.13]la") = lines
  /\ sorted_by_time lines
  /\ toLrcFormat lines = Some "[00:01.12]la"
  /\ fst (parseLrcLyrics initial_state "[00:01.12]la")
     = [mkLine (of_decimal false 112 2) "la"]
  /\ js_eq (of_decimal false 112 2) (of_decimal false 113 2) = false.
Proof.
  cbv zeta. split; [ vm_compute; reflexivity | ].
  split; [ apply sorted_one | ].
  vm_compute. repeat split.
Qed.

(** Where the fraction is a binary fraction nothing is lost. *)
Example toLrcFormat_roundtrip_at_2_50 :
  toLrcFormat [mkLine (of_Z 1) "Hello"; mkLine (of_decimal false 250 2) "World"]
  = Some "[00:01.00]Hello
[00:02.50]World"
  /\ fst (parseLrcLyrics initial_state "[00:01.00]Hello
[00:02.50]World")
     = [mkLine (of_Z 1) "Hello"; mkLine (of_decimal false 250 2) "World"].
Proof. vm_compute. split; reflexivity. Qed.

(* ----------------------------------------------------------------- *)
(** ** Rounding to binary64 *)

Lemma digits2_pos_bounds (m : positive) :
  (2 ^ (Zpos (digits2_pos m) - 1) <= Zpos m < 2 ^ Zpos (digits2_pos m))%Z.
Proof.
  induction m as [m IH | m IH | ]; cbn [digits2_pos].
  - rewrite Pos2Z.inj_succ. change (Zpos m~1) with (2 * Zpos m + 1)%Z.
    replace (Z.succ (Zpos (digits2_pos m)) - 1)%Z
      with (Z.succ (Zpos (digits2_pos m) - 1)) by lia.
    rewrite !Z.pow_succ_r by lia. lia.
  - rewrite Pos2Z.inj_succ. change (Zpos m~0) with (2 * Zpos m)%Z.
    replace (Z.succ (Zpos (digits2_pos m)) - 1)%Z
      with (Z.succ (Zpos (digits2_pos m) - 1)) by lia.
    rewrite !Z.pow_succ_r by lia. lia.
  - split; vm_compute; [ discriminate | reflexivity ].
Qed.

Lemma pos_iter_xO (m k : positive) :
  Zpos (Pos.iter xO m k) = (Zpos m * 2 ^ Zpos k)%Z.
Proof.
  induction k as [ | k IH] using Pos.peano_ind.
  - cbn. lia.
  - rewrite Pos.iter_succ.
    change (Zpos (Pos.iter xO m k)~0) with (2 * Zpos (Pos.iter xO m k))%Z.
    rewrite IH, Pos2Z.inj_succ, Z.pow_succ_r by lia. lia.
Qed.

Lemma shl_align_value (m : positive) (e e' : Z) :
  (e' <= e)%Z ->
  Zpos (fst (shl_align m e e')) = (Zpos m * 2 ^ (e - e'))%Z /\ snd (shl_align m e e') = e'.
Proof.
  intro Hle. unfold shl_align.
  destruct (e' - e)%Z as [ | d | d] eqn:Ed; cbn [fst snd].
  - replace (e - e')%Z with 0%Z by lia. split; lia.
  - lia.
  - rewrite pos_iter_xO. replace (e - e')%Z with (Zpos d) by lia. split; reflexivity.
Qed.

Lemma shl_align_exponent (m : positive) (e e' : Z) :
  snd (shl_align m e e') = Z.min e e'.
Proof.
  unfold shl_align. destruct (e' - e)%Z eqn:Ed; cbn [snd]; lia.
Qed.

Lemma shr_1_m (mrs : shr_record) :
  (0 <= shr_m mrs)%Z -> shr_m (shr_1 mrs) = (shr_m mrs / 2)%Z.
Proof.
  destruct mrs as [m r s]. cbn [shr_m]. intro Hm.
  destruct m as [ | [p | p | ] | p]; cbn [shr_1 shr_m].
  - reflexivity.
  - change (Zpos p~1) with (2 * Zpos p + 1)%Z.
    apply (Z.div_unique _ _ _ 1); lia.
  - change (Zpos p~0) with (2 * Zpos p)%Z.
    apply (Z.div_unique _ _ _ 0); lia.
  - reflexivity.
  - lia.
Qed.

Lemma iter_shr_1_m (p : positive) :
  forall mrs, (0 <= shr_m mrs)%Z ->
              shr_m (iter_pos shr_1 p mrs) = (shr_m mrs / 2 ^ Zpos p)%Z.
Proof.
  assert (Hpos : forall q, (0 < 2 ^ Zpos q)%Z) by (intro q; apply Z.pow_pos_nonneg; lia).
  induction p as [p IH | p IH | ]; intros mrs Hm; cbn [iter_pos].
  - assert (H1 : (0 <= shr_m (shr_1 mrs))%Z)
      by (rewrite shr_1_m by exact Hm; apply Z.div_pos; lia).
    assert (H2 : (0 <= shr_m (iter_pos shr_1 p (shr_1 mrs)))%Z)
      by (rewrite IH by exact H1; apply Z.div_pos; [ exact H1 | apply Hpos ]).
    rewrite IH, IH, shr_1_m by assumption.
    rewrite !Z.div_div by (try apply Hpos; lia).
    f_equal. replace (Zpos p~1) with (Zpos p + Zpos p + 1)%Z by lia.
    rewrite !Z.pow_add_r by lia. change (2 ^ 1)%Z with 2%Z. lia.
  - assert (H2 : (0 <= shr_m (iter_pos shr_1 p mrs))%Z)
      by (rewrite IH by exact Hm; apply Z.div_pos; [ exact Hm | apply Hpos ]).
    rewrite IH, IH by assumption.
    rewrite !Z.div_div by (try apply Hpos; lia).
    f_equal. replace (Zpos p~0) with (Zpos p + Zpos p)%Z by lia.
    rewrite !Z.pow_add_r by lia. reflexivity.
  - rewrite shr_1_m by exact Hm. reflexivity.
Qed.

Lemma shr_record_of_loc_m (m : Z) (l : location) : shr_m (shr_record_of_loc m l) = m.
Proof. destruct l as [ | [ | | ]]; reflexivity. Qed.

(** One truncation step of the rounding: the mantissa stays non-negative,
    the exponent is not below [emin], and a positive mantissa whose
    exponent is not below [emin] stays positive. *)
Lemma shr_fexp_spec (m e : Z) (l : location) :
  (0 <= m)%Z ->
  let r := shr_fexp prec emax m e l in
  (0 <= shr_m (fst r))%Z /\ (emin prec emax <= snd r)%Z /\
  ((0 < m)%Z -> (emin prec emax <= e)%Z -> (0 < shr_m (fst r))%Z).
Proof.
  intros Hm r. subst r. unfold shr_fexp, shr.
  set (n := (fexp prec emax (Zdigits2 m + e) - e)%Z).
  assert (Hn : n = (Z.max (Zdigits2 m + e - 53) (-1074) - e)%Z) by reflexivity.
  change (emin prec emax) with (-1074)%Z.
  destruct n as [ | p | p] eqn:En; cbn [fst snd]; rewrite ?shr_record_of_loc_m.
  - repeat split; trivial; lia.
  - rewrite iter_shr_1_m by (rewrite shr_record_of_loc_m; exact Hm).
    rewrite shr_record_of_loc_m.
    assert (Hpow : (0 < 2 ^ Zpos p)%Z) by (apply Z.pow_pos_nonneg; lia).
    repeat split.
    + apply Z.div_pos; lia.
    + lia.
    + intros Hpos He. destruct m as [ | q | q]; try lia.
      cbn [Zdigits2] in Hn.
      pose proof (digits2_pos_bounds q) as [Hlo _].
      apply Z.div_str_pos. split; [ exact Hpow | ].
      apply Z.le_trans with (2 := Hlo).
      apply Z.pow_le_mono_r; lia.
  - repeat split; trivial; lia.
Qed.

Lemma round_nearest_even_ge (m : Z) (l : location) : (m <= round_nearest_even m l)%Z.
Proof.
  destruct l as [ | [ | | ]]; cbn [round_nearest_even]; try lia.
  destruct (Z.even m); lia.
Qed.

(** The rounded result keeps the sign it is given and is never NaN; it is
    zero only if the mantissa was zero or the exponent below [emin]. *)
Lemma binary_round_aux_ordinary (s : bool) (mx ex : Z) (lx : location) :
  (0 <= mx)%Z ->
  ordinary s (binary_round_aux prec emax s mx ex lx) /\
  ((0 < mx)%Z -> (emin prec emax <= ex)%Z ->
   binary_round_aux prec emax s mx ex lx <> S754_zero s).
Proof.
  intro Hmx. unfold binary_round_aux.
  pose proof (shr_fexp_spec mx ex lx Hmx) as (H1 & He1 & Hp1).
  destruct (shr_fexp prec emax mx ex lx) as [mrs' e'] eqn:E1. cbn [fst snd] in *.
  set (m1 := round_nearest_even (shr_m mrs') (loc_of_shr_record mrs')).
  assert (Hm1 : (shr_m mrs' <= m1)%Z) by apply round_nearest_even_ge.
  pose proof (shr_fexp_spec m1 e' loc_Exact ltac:(lia)) as (H2 & He2 & Hp2).
  destruct (shr_fexp prec emax m1 e' loc_Exact) as [mrs'' e''] eqn:E2.
  cbn [fst snd] in *.
  destruct (shr_m mrs'') as [ | m | m] eqn:Em; [ | | lia ].
  - split; [ now left | ]. intros Hpos Hex. specialize (Hp1 Hpos Hex).
    specialize (Hp2 ltac:(lia) He1). lia.
  - split.
    + destruct (e'' <=? emax - prec)%Z; [ | now right; left ].
      right; right. now exists m, e''.
    + intros _ _. destruct (e'' <=? emax - prec)%Z; discriminate.
Qed.

Lemma binary_round_ordinary (s : bool) (mx : positive) (ex : Z) :
  (emin prec emax <= ex)%Z ->
  ordinary s (binary_round prec emax s mx ex) /\
  binary_round prec emax s mx ex <> S754_zero s.
Proof.
  intro Hex. unfold binary_round.
  pose proof (shl_align_exponent mx ex (fexp prec emax (Zpos (digits2_pos mx) + ex))) as Hez.
  destruct (shl_align mx ex _) as [mz ez]. cbn [snd] in Hez.
  assert (Hmin : (emin prec emax <= ez)%Z).
  { rewrite Hez. unfold fexp. lia. }
  destruct (binary_round_aux_ordinary s (Zpos mz) ez loc_Exact ltac:(lia)) as [Ho Hnz].
  split; [ exact Ho | apply Hnz; [ lia | exact Hmin ] ].
Qed.

(** [binary_normalize] gives a number of the sign of the integer. *)
Lemma binary_normalize_ordinary (m e : Z) (szero : bool) :
  (emin prec emax <= e)%Z ->
  match m with
  | Z0 => binary_normalize prec emax m e szero = S754_zero szero
  | Zpos _ =>
      ordinary false (binary_normalize prec emax m e szero) /\
      binary_normalize prec emax m e szero <> S754_zero false
  | Zneg _ =>
      ordinary true (binary_normalize prec emax m e szero) /\
      binary_normalize prec emax m e szero <> S754_zero true
  end.
Proof.
  intro He. destruct m as [ | p | p]; cbn [binary_normalize];
    [ reflexivity | now apply binary_round_ordinary | now apply binary_round_ordinary ].
Qed.

(* ----------------------------------------------------------------- *)
(** ** The sign of the operations *)

Lemma compare_scaled_zero_r (M e e0 : Z) : compare_scaled (M, e) (0%Z, e0) = (M ?= 0)%Z.
Proof.
  unfold compare_scaled. rewrite Z.mul_0_l.
  assert (Hpow : (0 < 2 ^ (e - Z.min e e0))%Z) by (apply Z.pow_pos_nonneg; lia).
  destruct (Z.compare_spec M 0) as [-> | Hlt | Hgt].
  - reflexivity.
  - apply Z.compare_lt_iff. nia.
  - apply Z.compare_gt_iff. nia.
Qed.

(** An ordinary number that is not zero is below zero exactly when its sign
    is set. *)
Lemma js_lt_zero_of_sign (s : bool) (r : number) :
  ordinary s r -> r <> S754_zero s -> js_lt r pos_zero = s.
Proof.
  intros [-> | [-> | (m & e & -> & _)]] Hnz.
  - contradiction.
  - now destruct s.
  - unfold js_lt, pos_zero. cbn [Number_compare mant_exp].
    rewrite compare_scaled_zero_r. now destruct s.
Qed.

Lemma js_lt_zero_zero (s : bool) : js_lt (S754_zero s) pos_zero = false.
Proof. reflexivity. Qed.

Lemma of_Z_ordinary (z : Z) : (0 <= z)%Z -> ordinary false (of_Z z).
Proof.
  intro Hz. unfold of_Z.
  pose proof (binary_normalize_ordinary z 0 false ltac:(vm_compute; discriminate)) as H.
  destruct z as [ | p | p]; [ left; exact H | apply H | lia ].
Qed.

Lemma Number_mul_60_ordinary (x : number) :
  ordinary false x -> ordinary false (Number_mul x (of_Z 60)).
Proof.
  change (of_Z 60) with (S754_finite false 8444249301319680 (-47)).
  intros [-> | [-> | (m & e & -> & _)]].
  - now left.
  - now right; left.
  - unfold Number_mul. cbn [SFmul xorb].
    apply binary_round_aux_ordinary. lia.
Qed.

Lemma Number_add_ordinary (x y : number) :
  ordinary false x -> ordinary false y -> ordinary false (Number_add x y).
Proof.
  intros [-> | [-> | (mx & ex & -> & Hex)]] [-> | [-> | (my & ey & -> & Hey)]];
    unfold Number_add; cbn [SFadd].
  - now left.
  - now right; left.
  - right; right. now exists my, ey.
  - now right; left.
  - now right; left.
  - now right; left.
  - right; right. now exists mx, ex.
  - now right; left.
  - unfold cond_Zopp.
    pose proof (binary_normalize_ordinary
                  (Zpos (fst (shl_align mx ex (Z.min ex ey)))
                   + Zpos (fst (shl_align my ey (Z.min ex ey))))
                  (Z.min ex ey) false ltac:(lia)) as H.
    cbn [Z.add] in H. apply H.
Qed.

Lemma of_decimal_ordinary (n : Z) (k : nat) : ordinary false (of_decimal false n k).
Proof.
  destruct n as [ | p | p]; cbn [of_decimal]; [ now left | | now left ].
  cbn [SFdiv xorb]. unfold SFdiv_core_binary.
  destruct (Z.div_eucl _ _) as [q r] eqn:E.
  apply binary_round_aux_ordinary.
  match type of E with Z.div_eucl ?a ?b = _ =>
    assert (Ha : (0 <= a)%Z);
    [ | pose proof (Z_div_mod a b ltac:(lia)) as Hdm; rewrite E in Hdm;
        destruct Hdm as [Hq Hr]; nia ]
  end.
  destruct (0 - 0 - _)%Z; try lia.
  apply Z.shiftl_nonneg. lia.
Qed.

(** The comparator of the sort agrees with the order of the times. *)
Lemma Number_sub_negative (x y : number) :
  ordinary false x -> ordinary false y ->
  js_lt (Number_sub x y) pos_zero = js_lt x y.
Proof.
  intros [-> | [-> | (mx & ex & -> & Hex)]] [-> | [-> | (my & ey & -> & Hey)]];
    unfold Number_sub; cbn [SFsub negb]; try reflexivity.
  - (* 0 - y *)
    unfold js_lt, pos_zero. cbn [Number_compare mant_exp cond_Zopp].
    rewrite compare_scaled_zero_r.
    rewrite (compare_scaled_antisym (Zpos my, ey) (0%Z, 0%Z)), compare_scaled_zero_r.
    reflexivity.
  - (* x - y *)
    unfold cond_Zopp.
    set (ez := Z.min ex ey).
    destruct (shl_align_value mx ex ez ltac:(subst ez; lia)) as [Hx _].
    destruct (shl_align_value my ey ez ltac:(subst ez; lia)) as [Hy _].
    set (D := (Zpos (fst (shl_align mx ex ez)) - Zpos (fst (shl_align my ey ez)))%Z).
    assert (Hcmp : js_lt (S754_finite false mx ex) (S754_finite false my ey)
                   = (D <? 0)%Z).
    { unfold js_lt. cbn [Number_compare mant_exp cond_Zopp]. unfold compare_scaled.
      fold ez. rewrite <- Hx, <- Hy.
      destruct (Z.compare_spec (Zpos (fst (shl_align mx ex ez)))
                               (Zpos (fst (shl_align my ey ez))));
        destruct (Z.ltb_spec D 0); subst D; try reflexivity; lia. }
    rewrite Hcmp.
    pose proof (binary_normalize_ordinary D ez false ltac:(subst ez; lia)) as H.
    destruct D as [ | p | p].
    + rewrite H. reflexivity.
    + destruct H as [Ho Hnz]. now rewrite (js_lt_zero_of_sign false).
    + destruct H as [Ho Hnz]. now rewrite (js_lt_zero_of_sign true).
Qed.

(* ----------------------------------------------------------------- *)
(** ** Ordinary numbers are totally ordered *)

Lemma ordinary_compare (s s' : bool) (x y : number) :
  ordinary s x -> ordinary s' y -> exists c, Number_compare x y = Some c.
Proof.
  intros [-> | [-> | (mx & ex & -> & _)]] [-> | [-> | (my & ey & -> & _)]];
    cbn [Number_compare]; eauto.
Qed.

Lemma js_lt_false_le (s s' : bool) (x y : number) :
  ordinary s x -> ordinary s' y -> js_lt y x = false -> js_le x y = true.
Proof.
  intros Hx Hy. destruct (ordinary_compare _ _ _ _ Hx Hy) as [c Hc].
  unfold js_lt, js_le. rewrite (Number_compare_antisym x y), Hc.
  now destruct c.
Qed.

Lemma js_lt_le (x y : number) : js_lt x y = true -> js_le x y = true.
Proof. unfold js_lt, js_le. now destruct (Number_compare x y) as [[ | | ] | ]. Qed.

Lemma js_ge_zero_ordinary (x : number) : ordinary false x -> js_ge x pos_zero = true.
Proof.
  intros [-> | [-> | (m & e & -> & _)]]; try reflexivity.
  unfold js_ge, pos_zero. cbn [Number_compare mant_exp cond_Zopp].
  now rewrite compare_scaled_zero_r.
Qed.

(** Two numbers equal to a third one are not below one another. *)
Lemma js_eq_not_lt (x y t : number) :
  js_eq x t = true -> js_eq y t = true -> js_lt y x = false.
Proof.
  unfold js_eq, js_lt.
  destruct x as [sx | sx | | sx mx ex], y as [sy | sy | | sy my ey],
      t as [st | st | | st mt et];
    cbn [Number_compare]; try discriminate; try reflexivity;
    try (destruct sx; try discriminate; try reflexivity;
         destruct sy; try discriminate; try reflexivity;
         destruct st; try discriminate; reflexivity);
    try (destruct sx; try discriminate; try reflexivity;
         destruct st; try discriminate; reflexivity);
    try (destruct sy; try discriminate; try reflexivity;
         destruct st; try discriminate; reflexivity);
    try (destruct st; try discriminate; reflexivity);
    try (destruct sy; try discriminate; reflexivity);
    try (destruct sx; try discriminate; reflexivity).
  all: intros H1 H2.
  all: match type of H1 with
       | context [compare_scaled ?A ?T] =>
           match type of H2 with
           | context [compare_scaled ?B T] =>
               rewrite (compare_scaled_eq_trans B T A);
                 [ reflexivity
                 | destruct (compare_scaled B T); (discriminate || reflexivity)
                 | rewrite (compare_scaled_antisym A T);
                   destruct (compare_scaled A T); (discriminate || reflexivity) ]
           end
       end.
Qed.

(* ----------------------------------------------------------------- *)
(** ** The sort by time *)

Lemma sort_insert_perm (x : LyricsLine) (l : list LyricsLine) :
  Permutation (x :: l) (sort_insert by_time x l).
Proof.
  induction l as [ | y l IH]; cbn [sort_insert]; [ apply Permutation_refl | ].
  destruct (js_lt (by_time y x) pos_zero); [ | apply Permutation_refl ].
  apply perm_trans with (y :: x :: l); [ apply perm_swap | now apply perm_skip ].
Qed.

Lemma Array_sort_perm (l : list LyricsLine) : Permutation l (Array_sort by_time l).
Proof.
  induction l as [ | x l IH]; cbn [Array_sort]; [ apply perm_nil | ].
  apply perm_trans with (x :: Array_sort by_time l);
    [ now apply perm_skip | apply sort_insert_perm ].
Qed.

Lemma by_time_negative (y x : LyricsLine) :
  ordinary false (time y) -> ordinary false (time x) ->
  js_lt (by_time y x) pos_zero = js_lt (time y) (time x).
Proof. intros Hy Hx. apply (Number_sub_negative _ _ Hy Hx). Qed.

Lemma sort_insert_sorted (x : LyricsLine) (l : list LyricsLine) :
  ordinary false (time x) ->
  Forall (fun y => ordinary false (time y)) l ->
  sorted_by_time l -> sorted_by_time (sort_insert by_time x l).
Proof.
  intros Hx Hl Hs. induction Hs as [ | a | a b l Hab Hs IH]; cbn [sort_insert].
  - apply sorted_one.
  - apply Forall_inv in Hl. rewrite (by_time_negative _ _ Hl Hx).
    destruct (js_lt (time a) (time x)) eqn:E.
    + apply sorted_cons; [ now apply js_lt_le | apply sorted_one ].
    + apply sorted_cons; [ | apply sorted_one ].
      now apply (js_lt_false_le false false).
  - pose proof (Forall_inv Hl) as Ha. apply Forall_inv_tail in Hl.
    pose proof (Forall_inv Hl) as Hb. specialize (IH Hl).
    rewrite (by_time_negative _ _ Ha Hx).
    destruct (js_lt (time a) (time x)) eqn:E.
    + cbn [sort_insert] in IH |- *.
      rewrite (by_time_negative _ _ Hb Hx) in IH |- *.
      destruct (js_lt (time b) (time x)).
      * now apply sorted_cons.
      * apply sorted_cons; [ now apply js_lt_le | exact IH ].
    + apply sorted_cons; [ now apply (js_lt_false_le false false) | ].
      now apply sorted_cons.
Qed.

Lemma Array_sort_sorted (l : list LyricsLine) :
  Forall (fun y => ordinary false (time y)) l -> sorted_by_time (Array_sort by_time l).
Proof.
  induction l as [ | x l IH]; intro Hl; cbn [Array_sort]; [ apply sorted_nil | ].
  apply sort_insert_sorted.
  - exact (Forall_inv Hl).
  - apply Forall_inv_tail in Hl.
    apply (Permutation_Forall (Array_sort_perm l) Hl).
  - apply IH. exact (Forall_inv_tail Hl).
Qed.

(** Entries of equal time keep the order they had: an entry is only moved
    behind entries of smaller time. *)
Lemma sort_insert_at_time (t : number) (x : LyricsLine) (l : list LyricsLine) :
  ordinary false (time x) ->
  Forall (fun y => ordinary false (time y)) l ->
  at_time t (sort_insert by_time x l) = at_time t (x :: l).
Proof.
  intros Hx Hl. induction l as [ | y l IH]; cbn [sort_insert]; [ reflexivity | ].
  pose proof (Forall_inv Hl) as Hy. specialize (IH (Forall_inv_tail Hl)).
  rewrite (by_time_negative _ _ Hy Hx).
  destruct (js_lt (time y) (time x)) eqn:E; [ | reflexivity ].
  unfold at_time in *. cbn [filter] in *. rewrite IH.
  destruct (js_eq (time x) t) eqn:Ex, (js_eq (time y) t) eqn:Ey; try reflexivity.
  rewrite (js_eq_not_lt _ _ _ Ex Ey) in E. discriminate.
Qed.

Lemma Array_sort_at_time (t : number) (l : list LyricsLine) :
  Forall (fun y => ordinary false (time y)) l ->
  at_time t (Array_sort by_time l) = at_time t l.
Proof.
  induction l as [ | x l IH]; intro Hl; cbn [Array_sort]; [ reflexivity | ].
  rewrite sort_insert_at_time.
  - unfold at_time in *. cbn [filter]. now rewrite (IH (Forall_inv_tail Hl)).
  - exact (Forall_inv Hl).
  - apply (Permutation_Forall (Array_sort_perm l) (Forall_inv_tail Hl)).
Qed.

(* ----------------------------------------------------------------- *)
(** ** What the groups capture *)

Lemma rmatch_captures (ic : bool) (R : Type) (r : regex) :
  forall s caps (k : cont R) x,
    rmatch ic r s caps k = Some x ->
    exists t s' added,
      s = (t ++ s')%string /\ captures ic r t added /\ k s' (caps ++ added) = Some x.
Proof.
  induction r as [p | cc | r1 IH1 r2 IH2 | r1 IH1 r2 IH2 | r1 IH1 | cc | cc | r1 IH1];
    intros s caps k x H; cbn [rmatch] in H.
  - destruct (lit_match ic p s) as [s' | ] eqn:El; [ | discriminate ].
    destruct (lit_match_sound _ _ _ _ El) as (t & -> & Ht).
    exists t, s', []. rewrite app_nil_r. now repeat split.
  - destruct s as [ | c s]; [ discriminate | ].
    destruct (class_matches cc c) eqn:Ec; [ | discriminate ].
    exists (String c EmptyString), s, []. rewrite app_nil_r.
    repeat split; trivial. now exists c.
  - destruct (IH1 _ _ _ _ H) as (t1 & s1 & a1 & -> & Ht1 & H2).
    destruct (IH2 _ _ _ _ H2) as (t2 & s2 & a2 & -> & Ht2 & Hk).
    exists (t1 ++ t2)%string, s2, (a1 ++ a2). rewrite append_assoc, app_assoc.
    repeat split; trivial. now exists t1, t2, a1, a2.
  - destruct (rmatch ic r1 s caps k) as [y | ] eqn:E1.
    + injection H as <-. destruct (IH1 _ _ _ _ E1) as (t & s' & a & -> & Ht & Hk).
      exists t, s', a. repeat split; trivial. now left.
    + destruct (IH2 _ _ _ _ H) as (t & s' & a & -> & Ht & Hk).
      exists t, s', a. repeat split; trivial. now right.
  - destruct (rmatch ic r1 s caps k) as [y | ] eqn:E1.
    + injection H as <-. destruct (IH1 _ _ _ _ E1) as (t & s' & a & -> & Ht & Hk).
      exists t, s', a. repeat split; trivial. now right.
    + exists EmptyString, s, []. rewrite app_nil_r. repeat split; trivial. now left.
  - destruct (star_match_sound _ _ _ _ _ _ H) as (t & s' & -> & Ht & Hk).
    exists t, s', []. rewrite app_nil_r. now repeat split.
  - destruct s as [ | c s]; [ discriminate | ].
    destruct (class_matches cc c) eqn:Ec; [ | discriminate ].
    destruct (star_match_sound _ _ _ _ _ _ H) as (t & s' & -> & Ht & Hk).
    exists (String c t), s', []. rewrite app_nil_r. repeat split; trivial. discriminate.
  - destruct (IH1 _ _ _ _ H) as (t & s' & a & -> & Ht & Hk).
    rewrite consumed_append, <- app_assoc in Hk.
    exists t, s', (a ++ [t]). repeat split; trivial. now exists a.
Qed.

Lemma match_here_captures (ic : bool) (r : regex) (s : string) (caps : list string)
    (len : nat) :
  match_here ic r s = Some (caps, len) ->
  exists t s', s = (t ++ s')%string /\ captures ic r t caps.
Proof.
  unfold match_here. intro H.
  destruct (rmatch_captures _ _ _ _ _ _ _ H) as (t & s' & added & -> & Ht & Hk).
  injection Hk as <- _. now exists t, s'.
Qed.

Lemma scan_matches_captures (ic : bool) (r : regex) :
  forall s i skip,
    Forall (fun m => exists t, captures ic r t (m_groups m))
           (scan_matches ic r s i skip).
Proof.
  induction s as [ | c s IH]; intros i skip; cbn [scan_matches].
  - destruct skip; [ | constructor ].
    destruct (match_here ic r "") as [[caps len] | ] eqn:E; [ | constructor ].
    destruct (match_here_captures _ _ _ _ _ E) as (t & s' & _ & Ht).
    constructor; [ now exists t | constructor ].
  - destruct skip; [ | apply IH ].
    destruct (match_here ic r (String c s)) as [[caps len] | ] eqn:E; [ | apply IH ].
    destruct (match_here_captures _ _ _ _ _ E) as (t & s' & _ & Ht).
    constructor; [ now exists t | apply IH ].
Qed.

Ltac break_captures :=
  repeat match goal with
         | H : exists _, _ |- _ => destruct H
         | H : _ /\ _ |- _ => destruct H
         | H : _ \/ _ |- _ => destruct H
         end.

(** The two groups of [LRC_TIMESTAMP_REGEX] start with a digit. *)
Lemma LRC_TIMESTAMP_captures (t : string) (caps : list string) :
  captures false (re_source LRC_TIMESTAMP_REGEX) t caps ->
  exists g1 g2, caps = [g1; g2] /\ starts_with_digit g1 /\ starts_with_digit g2.
Proof.
  cbn [re_source LRC_TIMESTAMP_REGEX captures]. intro H.
  break_captures; subst; cbn [app append];
    eexists; eexists; (split; [ reflexivity | split; assumption ]).
Qed.

Lemma String_matchAll_timestamp_groups (line : string) (lastIndex : nat) :
  Forall timestamp_groups (String_matchAll LRC_TIMESTAMP_REGEX line lastIndex).
Proof.
  unfold String_matchAll. destruct (Nat.ltb _ _); [ constructor | ].
  eapply Forall_impl; [ | apply scan_matches_captures ].
  intros m (t & Ht). now apply (LRC_TIMESTAMP_captures t).
Qed.

(* ----------------------------------------------------------------- *)
(** ** The times that the parser makes *)

Lemma span_digits_all_digits (s : string) : all_digits (fst (span_digits s)) = true.
Proof.
  induction s as [ | c s IH]; [ reflexivity | ]. cbn [span_digits].
  destruct (is_digit c) eqn:Ec; [ | reflexivity ].
  destruct (span_digits s) as [ds r]. cbn [fst] in *.
  unfold all_digits in *. cbn [list_ascii_of_string forallb]. now rewrite Ec, IH.
Qed.

Lemma digits_value_from_nonneg (s : string) :
  forall acc, (0 <= acc)%Z -> all_digits s = true -> (0 <= digits_value_from acc s)%Z.
Proof.
  induction s as [ | c s IH]; intros acc Hacc Hs; [ exact Hacc | ].
  unfold all_digits in Hs. cbn [list_ascii_of_string forallb] in Hs.
  apply andb_true_iff in Hs as [Hc Hs]. cbn [digits_value_from].
  apply IH; [ | exact Hs ].
  unfold is_digit in Hc. apply andb_true_iff in Hc as [Hlo _].
  apply N.leb_le in Hlo. lia.
Qed.

(** On a string that starts with a digit [parseInt] and [parseFloat] meet
    neither white space nor a sign. *)
Lemma parseInt_unsigned (g : string) :
  starts_with_digit g ->
  parseInt g =
  let (ds, _) := span_digits g in
  if is_empty ds then NaN
  else if (digits_value ds =? 0)%Z then S754_zero false
       else of_Z (digits_value ds).
Proof.
  destruct g as [ | c g]; [ contradiction | ]. cbn [starts_with_digit]. intro Hc.
  destruct c as [b0 b1 b2 b3 b4 b5 b6 b7].
  destruct b0, b1, b2, b3, b4, b5, b6, b7; try discriminate Hc; reflexivity.
Qed.

Lemma parseFloat_unsigned (g : string) :
  starts_with_digit g ->
  parseFloat g =
  let (ip, s3) := span_digits g in
  let fp := match s3 with
            | String "." r => fst (span_digits r)
            | _ => EmptyString
            end in
  if (is_empty ip && is_empty fp)%bool then NaN
  else of_decimal false (digits_value (ip ++ fp)) (String.length fp).
Proof.
  destruct g as [ | c g]; [ contradiction | ]. cbn [starts_with_digit]. intro Hc.
  destruct c as [b0 b1 b2 b3 b4 b5 b6 b7].
  destruct b0, b1, b2, b3, b4, b5, b6, b7; try discriminate Hc; reflexivity.
Qed.

Lemma parseInt_ordinary (g : string) :
  starts_with_digit g -> ordinary false (parseInt g).
Proof.
  intro Hg. rewrite (parseInt_unsigned g Hg).
  pose proof (span_digits_all_digits g) as Hds.
  destruct g as [ | c g]; [ contradiction | ]. cbn [starts_with_digit] in Hg.
  cbn [span_digits] in *. rewrite Hg in *.
  destruct (span_digits g) as [ds r]. cbn [fst is_empty] in *.
  destruct (Z.eqb_spec (digits_value (String c ds)) 0); [ now left | ].
  apply of_Z_ordinary. now apply digits_value_from_nonneg.
Qed.

Lemma parseFloat_ordinary (g : string) :
  starts_with_digit g -> ordinary false (parseFloat g).
Proof.
  intro Hg. rewrite (parseFloat_unsigned g Hg).
  destruct g as [ | c g]; [ contradiction | ]. cbn [starts_with_digit] in Hg.
  cbn [span_digits]. rewrite Hg.
  destruct (span_digits g) as [ds r]. cbn [is_empty andb].
  apply of_decimal_ordinary.
Qed.

Lemma line_of_match_ordinary (txt : string) (m : MatchResult) :
  timestamp_groups m -> ordinary false (time (line_of_match txt m)).
Proof.
  intros (g1 & g2 & Hg & H1 & H2). unfold line_of_match, group. rewrite Hg.
  cbn [time nth Nat.sub].
  apply Number_add_ordinary.
  - apply Number_mul_60_ordinary. now apply parseInt_ordinary.
  - now apply parseFloat_ordinary.
Qed.

(* ----------------------------------------------------------------- *)
(** ** The parsed sequence *)

(** With [lastIndex] at 0 a line adds its entries and leaves [lastIndex]
    at 0. *)
Lemma parse_line_from_zero (st : RegExpState) (acc : list LyricsLine) (line : string) :
  lrc_lastIndex st = 0 ->
  parse_line (st, acc) line = (mkState 0 0, acc ++ entries_of_line line).
Proof.
  intro H0. unfold parse_line, entries_of_line, without_metadata, without_timestamps,
    timestamps_of.
  cbn [String_replace_empty fst lrc_lastIndex meta_lastIndex]. rewrite H0.
  destruct (is_empty _); [ now rewrite app_nil_r | ].
  destruct (String_matchAll LRC_TIMESTAMP_REGEX line 0) as [ | m ms];
    [ now rewrite app_nil_r | reflexivity ].
Qed.

Lemma fold_parse_line_from_zero (lines : list string) :
  forall st acc,
    lrc_lastIndex st = 0 ->
    lrc_lastIndex (fst (fold_left parse_line lines (st, acc))) = 0 /\
    snd (fold_left parse_line lines (st, acc)) = acc ++ flat_map entries_of_line lines.
Proof.
  induction lines as [ | line lines IH]; intros st acc H0; cbn [fold_left flat_map].
  - split; [ exact H0 | now rewrite app_nil_r ].
  - rewrite (parse_line_from_zero st acc line H0).
    destruct (IH (mkState 0 0) (acc ++ entries_of_line line) eq_refl) as [Hst Hacc].
    split; [ exact Hst | ]. now rewrite Hacc, app_assoc.
Qed.

Lemma entries_of_line_ordinary (line : string) :
  Forall (fun x => ordinary false (time x)) (entries_of_line line).
Proof.
  unfold entries_of_line. destruct (is_empty _); [ constructor | ].
  apply Forall_map. eapply Forall_impl; [ | apply String_matchAll_timestamp_groups ].
  intros m Hm. now apply line_of_match_ordinary.
Qed.

Lemma entries_of_lines_ordinary (lines : list string) :
  Forall (fun x => ordinary false (time x)) (flat_map entries_of_line lines).
Proof.
  apply Forall_flat_map. apply Forall_forall. intros line _.
  apply entries_of_line_ordinary.
Qed.

(** C4, as amended. When [LRC_TIMESTAMP_REGEX.lastIndex] is 0 at the call,
    [parseLrcLyrics] returns the entries of the physical lines, sorted
    ascending by time with entries of equal time in the order in which they
    were met; every time is a number that is not below 0; the metadata tags
    removed, a line of which nothing is left gives no entry, and any other
    line gives one entry for each of its timestamps, all with the text of
    the line, its timestamps removed and trimmed. The call leaves
    [lastIndex] at 0. *)
Theorem parseLrcLyrics_sorted_entries (st : RegExpState) (lrcText : string)
    (H0 : lrc_lastIndex st = 0) :
  let out := fst (parseLrcLyrics st lrcText) in
  let encountered := flat_map entries_of_line (split_lines lrcText) in
  sorted_by_time out
  /\ (forall t, at_time t out = at_time t encountered)
  /\ Permutation encountered out
  /\ Forall (fun x => js_ge (time x) pos_zero = true) out
  /\ (forall line, is_empty (without_metadata line) = false ->
        length (entries_of_line line) = length (timestamps_of line) /\
        Forall (fun x => text x = without_timestamps line) (entries_of_line line))
  /\ (forall line, is_empty (without_metadata line) = true -> entries_of_line line = [])
  /\ lrc_lastIndex (snd (parseLrcLyrics st lrcText)) = 0.
Proof.
  intros out encountered.
  assert (Hout : out = Array_sort by_time encountered /\
                 lrc_lastIndex (snd (parseLrcLyrics st lrcText)) = 0).
  { subst out encountered. unfold parseLrcLyrics.
    destruct lrcText as [ | c s]; [ split; [ reflexivity | exact H0 ] | ].
    cbn [is_empty].
    destruct (fold_parse_line_from_zero (split_lines (String c s)) st [] H0) as [Hst Hacc].
    destruct (fold_left parse_line (split_lines (String c s)) (st, [])) as [st' parsed].
    cbn [fst snd] in *. now subst parsed. }
  destruct Hout as [-> Hstate].
  pose proof (entries_of_lines_ordinary (split_lines lrcText)) as Hord.
  fold encountered in Hord.
  split; [ now apply Array_sort_sorted | ].
  split; [ intro t; now apply Array_sort_at_time | ].
  split; [ apply Array_sort_perm | ].
  split.
  { apply (Permutation_Forall (Array_sort_perm encountered)).
    eapply Forall_impl; [ | exact Hord ].
    intros x Hx. now apply js_ge_zero_ordinary. }
  split.
  { intros line Hline. unfold entries_of_line. rewrite Hline.
    split; [ apply length_map | ].
    apply Forall_map. apply Forall_forall. reflexivity. }
  split; [ | exact Hstate ].
  intros line Hline. unfold entries_of_line. now rewrite Hline.
Qed.

(** [parseLrc("[00:05.00][00:03.00]Same text")]: two entries with the text
    of the line, at 3 s and at 5 s. *)
Lemma parseLrcLyrics_sorted_entries_witness :
  sorted_by_time (fst (parseLrcLyrics initial_state "[00:05.00][00:03.00]Same text"))
  /\ fst (parseLrcLyrics initial_state "[00:05.00][00:03.00]Same text")
     = [mkLine (of_Z 3) "Same text"; mkLine (of_Z 5) "Same text"].
Proof.
  split.
  - exact (proj1 (parseLrcLyrics_sorted_entries initial_state
                    "[00:05.00][00:03.00]Same text" eq_refl)).
  - vm_compute. reflexivity.
Defined.

(** C4 as stated fails: the line carries one timestamp and gives no entry,
    because nothing is left of it once the metadata tag, which here
    surrounds the timestamp, is removed. *)
Lemma parseLrcLyrics_timestamp_inside_metadata :
  let line := "[ti:[00:01.00]" in
  split_lines line = [line]
  /\ length (timestamps_of line) = 1
  /\ fst (parseLrcLyrics initial_state line) = [].
Proof. vm_compute. repeat split. Qed.

(* ----------------------------------------------------------------- *)
(** ** Integers that binary64 holds exactly *)

Lemma digits2_pos_unique (m : positive) (d : Z) :
  (2 ^ (d - 1) <= Zpos m < 2 ^ d)%Z -> (0 < d)%Z -> Zpos (digits2_pos m) = d.
Proof.
  intros [Hlo Hhi] Hd. pose proof (digits2_pos_bounds m) as [Hlo' Hhi'].
  set (d' := Zpos (digits2_pos m)) in *.
  destruct (Z.lt_trichotomy d' d) as [Hlt | [Heq | Hgt]]; [ | exact Heq | ].
  - assert (2 ^ d' <= 2 ^ (d - 1))%Z by (apply Z.pow_le_mono_r; lia). lia.
  - assert (2 ^ d <= 2 ^ (d' - 1))%Z by (apply Z.pow_le_mono_r; lia). lia.
Qed.

(** A mantissa of 53 digits with an exponent in range is kept as it is. *)
Lemma binary_round_aux_exact (s : bool) (mz : positive) (ez : Z) :
  Zpos (digits2_pos mz) = 53%Z -> (-1074 <= ez <= 971)%Z ->
  binary_round_aux prec emax s (Zpos mz) ez loc_Exact = S754_finite s mz ez.
Proof.
  intros Hd He.
  assert (Hshr : shr_fexp prec emax (Zpos mz) ez loc_Exact
                 = (Build_shr_record (Zpos mz) false false, ez)).
  { unfold shr_fexp, shr. cbn [Zdigits2 shr_record_of_loc]. rewrite Hd.
    replace (fexp prec emax (53 + ez) - ez)%Z with 0%Z; [ reflexivity | ].
    unfold fexp, emin, prec, emax. lia. }
  unfold binary_round_aux. rewrite Hshr.
  cbn [shr_m loc_of_shr_record round_nearest_even]. rewrite Hshr. cbn [shr_m].
  destruct (Z.leb_spec ez (emax - prec)) as [ | Hgt]; [ reflexivity | ].
  unfold emax, prec in Hgt. lia.
Qed.

(** The Number value of an integer of magnitude below [2^53] is that
    integer. *)
Lemma of_Z_exact (z : Z) : (Z.abs z < 2 ^ 53)%Z -> to_integer (of_Z z) = Some z.
Proof.
  intro Hz.
  assert (Hpos : forall (s : bool) (m : positive),
             (Zpos m < 2 ^ 53)%Z ->
             to_integer (binary_round prec emax s m 0) = Some (cond_Zopp s (Zpos m))).
  { intros s m Hm. unfold binary_round.
    pose proof (digits2_pos_bounds m) as [Hlo Hhi].
    set (d := Zpos (digits2_pos m)) in *.
    assert (Hd : (1 <= d <= 53)%Z).
    { split; [ subst d; lia | ].
      destruct (Z.le_gt_cases d 53) as [ | Hgt]; [ assumption | ].
      assert (2 ^ 53 <= 2 ^ (d - 1))%Z by (apply Z.pow_le_mono_r; lia). lia. }
    replace (fexp prec emax (d + 0)) with (d - 53)%Z
      by (unfold fexp, emin, prec, emax; lia).
    destruct (shl_align_value m 0 (d - 53) ltac:(lia)) as [Hmz Hez].
    destruct (shl_align m 0 (d - 53)) as [mz ez]. cbn [fst snd] in *. subst ez.
    replace (0 - (d - 53))%Z with (53 - d)%Z in Hmz by lia.
    assert (Hpow : (0 < 2 ^ (53 - d))%Z) by (apply Z.pow_pos_nonneg; lia).
    assert (Hdz : Zpos (digits2_pos mz) = 53%Z).
    { apply digits2_pos_unique; [ | lia ]. rewrite Hmz.
      replace (2 ^ (53 - 1))%Z with (2 ^ (d - 1) * 2 ^ (53 - d))%Z
        by (rewrite <- Z.pow_add_r by lia; f_equal; lia).
      replace (2 ^ 53)%Z with (2 ^ d * 2 ^ (53 - d))%Z
        by (rewrite <- Z.pow_add_r by lia; f_equal; lia).
      nia. }
    rewrite (binary_round_aux_exact s mz (d - 53) Hdz ltac:(lia)).
    cbn [to_integer].
    destruct (Z.leb_spec 0 (d - 53)) as [Hge | Hlt].
    - assert (Hd53 : d = 53%Z) by lia. rewrite Hd53 in Hmz |- *.
      change (53 - 53)%Z with 0%Z in *. rewrite Hmz.
      do 2 f_equal. change (2 ^ 0)%Z with 1%Z. lia.
    - replace (- (d - 53))%Z with (53 - d)%Z by lia. rewrite Hmz.
      rewrite Z_mod_mult, Z.eqb_refl, Z_div_mult by lia. reflexivity. }
  unfold of_Z. destruct z as [ | m | m]; cbn [binary_normalize].
  - reflexivity.
  - apply (Hpos false m). lia.
  - apply (Hpos true m). lia.
Qed.

(* ----------------------------------------------------------------- *)
(** ** The offset tag *)

(** The language of [OFFSET_REGEX] is made of the offset tags. *)
Lemma OFFSET_REGEX_language (t : string) :
  matches false (re_source OFFSET_REGEX) t -> is_offset_tag t.
Proof.
  cbn [re_source OFFSET_REGEX matches].
  intros (t1 & t2 & -> & H1 & tg & t3 & -> & (sg & ds & -> & Hsg & Hne & Hds) & H3).
  apply lit_eq_false_eq in H1, H3. subst t1 t3.
  exists sg, ds. unfold offset_tag.
  split; [ now rewrite !append_assoc | ].
  split.
  - destruct Hsg as [-> | Hsg]; [ now left | right; now apply lit_eq_false_eq ].
  - split; [ exact Hne | now apply all_in_digits ].
Qed.

(** Greedy repetition stops where the class stops: when the continuation
    accepts there, that is the match. *)
Lemma star_match_greedy (R : Type) (cc : cclass) (caps : list string) (k : cont R)
    (t : string) (c : ascii) (rest : string) (x : R) :
  all_in cc t -> class_matches cc c = false ->
  k (String c rest) caps = Some x ->
  star_match cc (t ++ String c rest) caps k = Some x.
Proof.
  intros Ht Hc Hk. induction t as [ | a t IH]; cbn [append star_match].
  - now rewrite Hc.
  - destruct Ht as [Ha Ht]. now rewrite Ha, (IH Ht).
Qed.

Lemma span_digits_all (ds : string) :
  all_digits ds = true -> span_digits ds = (ds, EmptyString).
Proof.
  unfold all_digits. induction ds as [ | c ds IH]; cbn; [ reflexivity | ].
  intro H. apply andb_true_iff in H as [Hc Hds]. now rewrite Hc, (IH Hds).
Qed.

Lemma digit_is_not_minus (c : ascii) : is_digit c = true -> Ascii.eqb "-" c = false.
Proof.
  intro H. destruct (Ascii.eqb_spec "-"%char c) as [<- | ]; [ discriminate H | reflexivity ].
Qed.

Lemma lit_match_prefix (p s : string) : lit_match false p (p ++ s) = Some s.
Proof. apply lit_match_complete, lit_eq_refl. Qed.

Lemma rmatch_Seq (ic : bool) (R : Type) (r1 r2 : regex) (s : string)
    (caps : list string) (k : cont R) :
  rmatch ic (Seq r1 r2) s caps k
  = rmatch ic r1 s caps (fun s1 caps1 => rmatch ic r2 s1 caps1 k).
Proof. reflexivity. Qed.

Lemma rmatch_Lit (ic : bool) (R : Type) (p s : string) (caps : list string) (k : cont R) :
  rmatch ic (Lit p) s caps k
  = match lit_match ic p s with Some s' => k s' caps | None => None end.
Proof. reflexivity. Qed.

Lemma rmatch_Group (ic : bool) (R : Type) (r : regex) (s : string)
    (caps : list string) (k : cont R) :
  rmatch ic (Group r) s caps k
  = rmatch ic r s caps (fun s1 caps1 => k s1 (caps1 ++ [consumed s s1])).
Proof. reflexivity. Qed.

(** At an offset tag the pattern matches, and its group is the sign and the
    digits. *)
Lemma match_here_offset_tag (sg ds post : string) :
  (sg = EmptyString \/ sg = "-"%string) -> ds <> EmptyString -> all_digits ds = true ->
  match_here false (re_source OFFSET_REGEX) (offset_tag sg ds ++ post)
  = Some ([(sg ++ ds)%string], String.length (offset_tag sg ds)).
Proof.
  intros Hsg Hne Hds. destruct ds as [ | c ds]; [ contradiction | clear Hne ].
  apply all_in_digits in Hds. destruct Hds as [Hc Hds]. cbn [class_matches] in Hc.
  set (tail := String "]" post).
  assert (Htext : (offset_tag sg (String c ds) ++ post)%string
                  = ("[offset:" ++ (sg ++ String c ds) ++ tail)%string).
  { unfold offset_tag, tail. rewrite !append_assoc. reflexivity. }
  assert (Hplus : forall (k : cont (list string * nat)) caps x,
             k tail caps = Some x ->
             rmatch false (Plus Digit) (String c ds ++ tail) caps k = Some x).
  { intros k caps x Hk. cbn [rmatch append class_matches]. rewrite Hc.
    now apply star_match_greedy. }
  assert (Hgroup : forall (k : cont (list string * nat)) caps x,
             k tail caps = Some x ->
             rmatch false (Opt (Lit "-") ;; Plus Digit)%re
                    ((sg ++ String c ds) ++ tail) caps k = Some x).
  { intros k caps x Hk. cbn [rmatch]. destruct Hsg as [-> | ->].
    - cbn [append lit_match char_eq]. rewrite (digit_is_not_minus c Hc).
      now apply (Hplus k).
    - rewrite append_assoc, lit_match_prefix.
      pose proof (Hplus k caps x Hk) as Hp. cbn [rmatch] in Hp. now rewrite Hp. }
  unfold match_here. rewrite Htext. cbn [re_source OFFSET_REGEX].
  rewrite rmatch_Seq, rmatch_Lit, lit_match_prefix, rmatch_Seq, rmatch_Group.
  erewrite Hgroup; [ reflexivity | ].
  rewrite rmatch_Lit, consumed_append.
  unfold tail. change (String "]" post) with ("]" ++ post)%string.
  rewrite lit_match_prefix. cbn [app]. do 2 f_equal.
  unfold offset_tag. rewrite !length_append. cbn [String.length append]. lia.
Qed.

(** The search stops at the leftmost place where the pattern matches. *)
Lemma search_leftmost (ic : bool) (r : regex) (rest : string) (caps : list string)
    (len : nat) :
  match_here ic r rest = Some (caps, len) ->
  forall pre i,
    (forall pre' t post',
       (pre ++ rest)%string = (pre' ++ t ++ post')%string -> matches ic r t ->
       String.length pre <= String.length pre') ->
    search ic r (pre ++ rest) i
    = Some (mkMatch (i + String.length pre) (i + String.length pre + len) caps).
Proof.
  intros Hm. induction pre as [ | c pre IH]; intros i Hleft.
  - cbn [append String.length]. rewrite Nat.add_0_r.
    destruct rest; cbn [search]; now rewrite Hm.
  - cbn [append search].
    destruct (match_here ic r (String c (pre ++ rest))) as [[caps' len'] | ] eqn:E.
    + destruct (match_here_sound _ _ _ _ _ E) as (t & s' & Hs & Ht & _).
      specialize (Hleft EmptyString t s' Hs Ht). cbn in Hleft. lia.
    + rewrite IH.
      * cbn [String.length]. do 2 f_equal; lia.
      * intros pre' t post' Hs Ht.
        specialize (Hleft (String c pre') t post'). cbn [append String.length] in Hleft.
        rewrite Hs in Hleft. specialize (Hleft eq_refl Ht). lia.
Qed.

Lemma parseInt_signed_digits (sg ds : string) :
  (sg = EmptyString \/ sg = "-"%string) -> ds <> EmptyString -> all_digits ds = true ->
  parseInt (sg ++ ds) = Number_of_signed (negb (is_empty sg)) (digits_value ds).
Proof.
  intros Hsg Hne Hds. pose proof (span_digits_all ds Hds) as Hspan.
  destruct ds as [ | c ds]; [ contradiction | ].
  destruct Hsg as [-> | ->].
  - cbn [append]. rewrite parseInt_unsigned.
    + rewrite Hspan. reflexivity.
    + unfold all_digits in Hds. cbn [list_ascii_of_string forallb] in Hds.
      now apply andb_true_iff in Hds as [Hc _].
  - unfold parseInt. change (trimStart ("-" ++ String c ds)) with (String "-" (String c ds)).
    cbv iota beta. rewrite Hspan. reflexivity.
Qed.

Lemma Number_of_signed_exact (neg : bool) (n : Z) :
  (0 <= n < 2 ^ 53)%Z -> to_integer (Number_of_signed neg n) = Some (cond_Zopp neg n).
Proof.
  intro Hn. unfold Number_of_signed.
  destruct (Z.eqb_spec n 0) as [-> | Hnz].
  - now destruct neg.
  - apply of_Z_exact. destruct neg; cbn [cond_Zopp]; lia.
Qed.

(** C10, as amended. [extractOffset] returns the Number value of the [N] of
    the first tag [[offset:N]], [N] a run of digits with or without a minus
    sign before it: the binary64 number nearest to [N], which is [N] itself
    when its magnitude is below [2^53]. It returns 0 when the text has no
    such tag, the empty text included. *)
Theorem extractOffset_first_tag (lrcText : string) :
  (forall pre sg ds post,
     lrcText = (pre ++ offset_tag sg ds ++ post)%string ->
     (sg = EmptyString \/ sg = "-"%string) -> ds <> EmptyString -> all_digits ds = true ->
     (forall pre' t post',
        lrcText = (pre' ++ t ++ post')%string -> is_offset_tag t ->
        String.length pre <= String.length pre') ->
     extractOffset lrcText = Number_of_signed (negb (is_empty sg)) (digits_value ds)
     /\ ((digits_value ds < 2 ^ 53)%Z ->
         to_integer (extractOffset lrcText)
         = Some (cond_Zopp (negb (is_empty sg)) (digits_value ds))))
  /\ ((forall pre t post, lrcText = (pre ++ t ++ post)%string -> ~ is_offset_tag t) ->
      extractOffset lrcText = pos_zero).
Proof.
  split.
  - intros pre sg ds post Htext Hsg Hne Hds Hleft.
    assert (Hval : extractOffset lrcText
                   = Number_of_signed (negb (is_empty sg)) (digits_value ds)).
    { unfold extractOffset, RegExp_exec. cbn [OFFSET_REGEX re_global re_ignoreCase fst].
      replace (is_empty lrcText) with false
        by (rewrite Htext; now destruct pre).
      fold OFFSET_REGEX. rewrite Htext.
      rewrite (search_leftmost false (re_source OFFSET_REGEX) _ _ _
                 (match_here_offset_tag sg ds post Hsg Hne Hds) pre 0).
      - unfold group. cbn [m_groups nth Nat.sub].
        replace (is_empty (sg ++ ds)) with false
          by (destruct ds; [ contradiction | now destruct Hsg as [-> | ->] ]).
        cbn [negb]. now apply parseInt_signed_digits.
      - intros pre' t post' Hs Ht. apply (Hleft pre' t post').
        + now rewrite Htext.
        + now apply OFFSET_REGEX_language. }
    split; [ exact Hval | ].
    intro Hsmall. rewrite Hval. apply Number_of_signed_exact.
    split; [ | exact Hsmall ].
    now apply digits_value_from_nonneg.
  - intro Hnone. unfold extractOffset, RegExp_exec.
    destruct (is_empty lrcText); [ reflexivity | ].
    cbn [OFFSET_REGEX re_global re_ignoreCase re_source fst].
    destruct (search false _ lrcText 0) as [m | ] eqn:E; [ | reflexivity ].
    destruct (search_sound _ _ _ _ _ E) as (pre & t & post & Hs & Ht & _).
    exfalso. apply (Hnone pre t post Hs).
    now apply OFFSET_REGEX_language.
Qed.

(** [[offset:-0500]] behind another tag: -500. *)
Lemma extractOffset_first_tag_witness :
  to_integer (extractOffset "[ti:x][offset:-0500]") = Some (-500)%Z.
Proof.
  refine (proj2 (proj1 (extractOffset_first_tag "[ti:x][offset:-0500]")
                   "[ti:x]" "-" "0500" "" eq_refl (or_intror eq_refl) _ eq_refl _) _).
  - discriminate.
  - intros pre' t post' Hs (sg & ds & -> & _).
    destruct (Nat.le_gt_cases 6 (String.length pre')) as [ | Hlt]; [ assumption | ].
    exfalso. unfold offset_tag in Hs.
    do 6 (destruct pre' as [ | ? pre']; [ discriminate Hs | injection Hs as _ Hs ]).
    cbn in Hlt. lia.
  - vm_compute. reflexivity.
Defined.

(** C10 as stated fails: beyond [2^53] the Number that is returned is not
    the integer of the tag. *)
Lemma extractOffset_beyond_2_53 :
  digits_value "9007199254740993" = 9007199254740993%Z
  /\ to_integer (extractOffset "[offset:9007199254740993]") = Some 9007199254740992%Z.
Proof. vm_compute. split; reflexivity. Qed.

(** A plus sign is not part of the pattern: the tag is not seen. *)
Example extractOffset_plus_sign : extractOffset "[offset:+5]" = pos_zero.
Proof. reflexivity. Qed.

(* ----------------------------------------------------------------- *)
(** ** Plain lyrics *)

Lemma split_lines_one_line (s : string) : Forall one_line (split_lines s).
Proof.
  induction s as [ | c s IH]; cbn [split_lines].
  - constructor; [ exact I | constructor ].
  - destruct (Ascii.eqb_spec c LF) as [-> | Hc].
    + constructor; [ exact I | exact IH ].
    + destruct (split_lines s) as [ | piece pieces].
      * constructor; [ now split | constructor ].
      * inversion IH; subst. constructor; [ now split | assumption ].
Qed.

Lemma trimStart_one_line (s : string) : one_line s -> one_line (trimStart s).
Proof.
  induction s as [ | c s IH]; cbn [trimStart]; [ trivial | ].
  intros [Hc Hs]. destruct (is_whitespace c); [ auto | now split ].
Qed.

Lemma trimEnd_one_line (s : string) : one_line s -> one_line (trimEnd s).
Proof.
  induction s as [ | c s IH]; cbn [trimEnd]; [ trivial | ].
  intros [Hc Hs]. specialize (IH Hs).
  destruct (trimEnd s) as [ | a t].
  - destruct (is_whitespace c); [ exact I | now split ].
  - now split.
Qed.

(** What [trimStart] leaves does not start with white space. *)
Lemma trimStart_head (s : string) :
  match trimStart s with
  | String c _ => is_whitespace c = false
  | EmptyString => True
  end.
Proof.
  induction s as [ | c s IH]; cbn [trimStart]; [ exact I | ].
  destruct (is_whitespace c) eqn:E; [ exact IH | exact E ].
Qed.

Lemma trimEnd_head (c : ascii) (s : string) :
  is_whitespace c = false -> exists t, trimEnd (String c s) = String c t.
Proof.
  intro Hc. cbn [trimEnd]. destruct (trimEnd s) as [ | a t].
  - rewrite Hc. now exists EmptyString.
  - now exists (String a t).
Qed.

Lemma trimEnd_idempotent (s : string) : trimEnd (trimEnd s) = trimEnd s.
Proof.
  induction s as [ | c s IH]; [ reflexivity | ]. cbn [trimEnd].
  destruct (trimEnd s) as [ | a t] eqn:E.
  - destruct (is_whitespace c) eqn:Hc; [ reflexivity | ].
    cbn [trimEnd]. now rewrite Hc.
  - change (trimEnd (String c (String a t)))
      with (match trimEnd (String a t) with
            | EmptyString =>
                if is_whitespace c then EmptyString else String c EmptyString
            | u => String c u
            end).
    now rewrite IH.
Qed.

Lemma trim_idempotent (s : string) : trim (trim s) = trim s.
Proof.
  unfold trim. pose proof (trimStart_head s) as Hh.
  destruct (trimStart s) as [ | c t]; [ reflexivity | ].
  destruct (trimEnd_head c t Hh) as [u Hu].
  rewrite Hu. cbn [trimStart]. rewrite Hh. rewrite <- Hu.
  apply trimEnd_idempotent.
Qed.

Lemma split_lines_of_one_line (p : string) : one_line p -> split_lines p = [p].
Proof.
  induction p as [ | c p IH]; [ reflexivity | ].
  intros [Hc Hp]. cbn [split_lines].
  destruct (Ascii.eqb_spec c LF) as [E | _]; [ contradiction | ].
  now rewrite (IH Hp).
Qed.

Lemma split_lines_append (p r : string) :
  one_line p -> split_lines (p ++ String LF r) = p :: split_lines r.
Proof.
  induction p as [ | c p IH]; [ reflexivity | ].
  intros [Hc Hp]. cbn [append split_lines].
  destruct (Ascii.eqb_spec c LF) as [E | _]; [ contradiction | ].
  now rewrite (IH Hp).
Qed.

(** [split('\n')] undoes [join('\n')] on pieces without a line feed. *)
Lemma split_join_lines (pieces : list string) :
  pieces <> [] -> Forall one_line pieces -> split_lines (join_lines pieces) = pieces.
Proof.
  induction pieces as [ | p rest IH]; [ contradiction | ].
  intros _ Hall. inversion Hall as [ | ? ? Hp Hrest]; subst.
  destruct rest as [ | q rest].
  - now apply split_lines_of_one_line.
  - change (join_lines (p :: q :: rest))
      with (p ++ String LF (join_lines (q :: rest)))%string.
    rewrite (split_lines_append _ _ Hp). f_equal.
    apply IH; [ discriminate | assumption ].
Qed.

(** The lines that [split], [map] and [filter] keep. *)
Lemma kept_lines_plain (txt : string) :
  Forall is_plain_line
    (filter (fun line => Nat.ltb 0 (String.length line))
       (map (fun line => trim line) (split_lines txt))).
Proof.
  pose proof (split_lines_one_line txt) as Hall.
  induction Hall as [ | p rest Hp _ IH]; [ constructor | ].
  cbn [map filter].
  destruct (Nat.ltb 0 (String.length (trim p))) eqn:E; [ | exact IH ].
  constructor; [ | exact IH ].
  repeat split.
  - intro H0. rewrite H0 in E. discriminate E.
  - apply trim_idempotent.
  - apply trimEnd_one_line, trimStart_one_line, Hp.
Qed.

(** [map] and [filter] leave such lines as they are. *)
Lemma kept_lines_fixed (ls : list string) :
  Forall is_plain_line ls ->
  filter (fun line => Nat.ltb 0 (String.length line)) (map (fun line => trim line) ls) = ls.
Proof.
  induction 1 as [ | p rest [Hne [Ht _]] _ IH]; [ reflexivity | ].
  cbn [map filter]. rewrite Ht, IH.
  destruct p as [ | c p]; [ contradiction | reflexivity ].
Qed.

Lemma join_lines_not_empty (p : string) (rest : list string) :
  p <> EmptyString -> is_empty (join_lines (p :: rest)) = false.
Proof.
  intro Hne. destruct p as [ | c p]; [ contradiction | ].
  destruct rest; reflexivity.
Qed.

Lemma is_plain_line_one_line (ls : list string) :
  Forall is_plain_line ls -> Forall one_line ls.
Proof. induction 1 as [ | p rest [_ [_ H1]] _ IH]; constructor; assumption. Qed.

(** X1. Every line of [parsePlainLyrics] is not empty, has no white space at
    either end and holds no line feed; the empty text has no line. *)
Theorem parsePlainLyrics_lines (txt : string) :
  Forall is_plain_line (parsePlainLyrics txt)
  /\ parsePlainLyrics EmptyString = [].
Proof.
  split; [ | reflexivity ].
  unfold parsePlainLyrics. destruct (is_empty txt); [ constructor | ].
  apply kept_lines_plain.
Qed.

(** X2. [cleanLyricsText] joins the lines of [parsePlainLyrics]; reading the
    cleaned text again gives the same lines, and cleaning it again changes
    nothing. *)
Theorem cleanLyricsText_roundtrip (txt : string) :
  cleanLyricsText txt = join_lines (parsePlainLyrics txt)
  /\ parsePlainLyrics (cleanLyricsText txt) = parsePlainLyrics txt
  /\ cleanLyricsText (cleanLyricsText txt) = cleanLyricsText txt.
Proof.
  assert (Hjoin : forall t, cleanLyricsText t = join_lines (parsePlainLyrics t)).
  { intro t. unfold cleanLyricsText, parsePlainLyrics. now destruct (is_empty t). }
  assert (Hparse : parsePlainLyrics (cleanLyricsText txt) = parsePlainLyrics txt).
  { rewrite Hjoin.
    assert (Hall : Forall is_plain_line (parsePlainLyrics txt)).
    { unfold parsePlainLyrics. destruct (is_empty txt); [ constructor | ].
      apply kept_lines_plain. }
    destruct (parsePlainLyrics txt) as [ | p rest] eqn:E; [ reflexivity | ].
    unfold parsePlainLyrics at 1.
    inversion Hall as [ | ? ? Hp Hrest]; subst.
    rewrite (join_lines_not_empty p rest (proj1 Hp)).
    rewrite split_join_lines;
      [ | discriminate | now apply is_plain_line_one_line ].
    now apply kept_lines_fixed. }
  split; [ apply Hjoin | ]. split; [ exact Hparse | ].
  rewrite (Hjoin (cleanLyricsText txt)), Hparse. symmetry. apply Hjoin.
Qed.

(* ----------------------------------------------------------------- *)
(** ** The best lyrics *)

Lemma is_timestamp_tag_not_empty (t : string) : is_timestamp_tag t -> 0 < String.length t.
Proof.
  intros [mm [ss [fr [-> _]]]]. cbn [append String.length]. lia.
Qed.

(** What a call of [isLrcFormat] leaves in the two regular expressions:
    [METADATA_REGEX] is not touched, [LRC_TIMESTAMP_REGEX.lastIndex] is past
    the match after a [true] and at 0 after a [false] on a text that is not
    empty. *)
Lemma isLrcFormat_state (st : RegExpState) (txt : string) :
  meta_lastIndex (snd (isLrcFormat st txt)) = meta_lastIndex st
  /\ (fst (isLrcFormat st txt) = true -> 0 < lrc_lastIndex (snd (isLrcFormat st txt)))
  /\ (fst (isLrcFormat st txt) = false -> txt <> EmptyString ->
      lrc_lastIndex (snd (isLrcFormat st txt)) = 0).
Proof.
  unfold isLrcFormat. destruct txt as [ | c txt].
  - cbn. repeat split; [ discriminate | intros _ H; now contradiction H ].
  - cbn [is_empty]. unfold RegExp_test, RegExp_exec.
    cbn [re_global LRC_TIMESTAMP_REGEX re_ignoreCase re_source].
    destruct (Nat.ltb (String.length (String c txt)) (lrc_lastIndex st)).
    + cbn. repeat split; discriminate.
    + destruct (search false _ (drop (lrc_lastIndex st) (String c txt)) (lrc_lastIndex st))
        as [m | ] eqn:E; cbn [fst snd lrc_lastIndex meta_lastIndex].
      * repeat split; [ | discriminate ]. intros _.
        apply search_sound in E. destruct E as [pre [t [post [_ [Hm [_ He]]]]]].
        apply LRC_TIMESTAMP_language, is_timestamp_tag_not_empty in Hm. lia.
      * repeat split; discriminate.
Qed.

Lemma present_spec (o : option string) (s : string) :
  present o = Some s <-> o = Some s /\ s <> EmptyString.
Proof.
  unfold present, or_else. destruct o as [[ | c t] | ]; cbn [is_empty]; split.
  all: try discriminate.
  all: try (intros [H H']; first [ discriminate H | injection H as <-; now contradiction H' ]).
  - intro H. injection H as <-. split; [ reflexivity | discriminate ].
  - now intros [H _].
Qed.

(** X3. [getBestLyrics] answers [none] exactly for the data that
    [isValidLyrics] rejects, whatever earlier calls left in the regular
    expressions. The content is empty then; otherwise it is not empty and
    is one of the four fields. *)
Theorem getBestLyrics_none_iff_invalid (st : RegExpState) (data : option LyricsData) :
  let best := fst (getBestLyrics st data) in
  (type best = L_none <-> isValidLyrics data = false)
  /\ (type best = L_none -> content best = EmptyString)
  /\ (type best <> L_none ->
      content best <> EmptyString /\
      exists d, data = Some d /\
        (syncedLyrics d = Some (content best) \/ plainLyrics d = Some (content best) \/
         lrc d = Some (content best) \/ lyrics d = Some (content best))).
Proof.
  destruct data as [[s p l y] | ].
  2:{ cbn. repeat split; intros; try reflexivity; congruence. }
  assert (Hex : forall (P : LyricsData -> Prop), P (mkLyricsData s p l y) ->
            exists d, Some (mkLyricsData s p l y) = Some d /\ P d).
  { intros P HP. now exists (mkLyricsData s p l y). }
  destruct s as [[ | c1 s] | ]; destruct p as [[ | c2 p] | ];
    destruct l as [[ | c3 l] | ]; destruct y as [[ | c4 y] | ];
    cbn [getBestLyrics isValidLyrics present or_else is_empty negb
         syncedLyrics plainLyrics lrc lyrics fst snd type content];
    try (destruct (isLrcFormat st (String c4 y)) as [[ | ] st1];
         cbn [fst snd type content]).
  all: repeat split; intros; try reflexivity; try discriminate; try congruence.
  all: apply Hex; cbn [syncedLyrics plainLyrics lrc lyrics]; tauto.
Qed.

(** X4. What [getBestLyrics] does to the shared regular expressions and how it
    classifies [data.lyrics]. When [syncedLyrics] or [lrc] is there the
    answer is [synced] and nothing is touched. Otherwise, for a non-empty
    [lyrics] and with [lastIndex] at 0, the answer is [synced] exactly when
    a timestamp occurs in it, and then [lastIndex] is left past that
    timestamp; when none occurs the answer is [plain] and [lastIndex] is 0. *)
Theorem getBestLyrics_regex_state (st : RegExpState) (data : LyricsData) :
  let r := getBestLyrics st (Some data) in
  meta_lastIndex (snd r) = meta_lastIndex st
  /\ (forall s, present (syncedLyrics data) = Some s ->
        r = (mkBestLyrics L_synced s, st))
  /\ (forall s, present (syncedLyrics data) = None -> present (lrc data) = Some s ->
        r = (mkBestLyrics L_synced s, st))
  /\ (forall s, present (syncedLyrics data) = None -> present (lrc data) = None ->
        present (lyrics data) = Some s -> lrc_lastIndex st = 0 ->
        (has_timestamp s /\ fst r = mkBestLyrics L_synced s /\ 0 < lrc_lastIndex (snd r))
        \/
        (~ has_timestamp s /\ type (fst r) = L_plain /\ lrc_lastIndex (snd r) = 0)).
Proof.
  cbv zeta. unfold getBestLyrics.
  destruct (present (syncedLyrics data)) as [s1 | ] eqn:E1.
  { split; [ reflexivity | ]. split; [ intros s H; now injection H as <- | ].
    split; intros; congruence. }
  destruct (present (lrc data)) as [s2 | ] eqn:E2.
  { split; [ reflexivity | ]. split; [ intros; congruence | ].
    split; [ intros s _ H; now injection H as <- | intros; congruence ]. }
  destruct (present (lyrics data)) as [s3 | ] eqn:E3.
  2:{ destruct (present (plainLyrics data)); cbn [fst snd];
        (split; [ reflexivity | ]); repeat split; intros; congruence. }
  pose proof (isLrcFormat_state st s3) as [Hmeta [Htrue Hfalse]].
  pose proof (isLrcFormat_from_zero st s3) as Hzero.
  apply present_spec in E3. destruct E3 as [_ Hne].
  destruct (isLrcFormat st s3) as [[ | ] st1]; cbn [fst snd] in *.
  - split; [ exact Hmeta | ]. split; [ intros; congruence | ].
    split; [ intros; congruence | ].
    intros s _ _ H H0. injection H as <-. left.
    split; [ now apply Hzero | ]. split; [ reflexivity | now apply Htrue ].
  - assert (Hplain : forall s, Some s3 = Some s -> lrc_lastIndex st = 0 ->
              ~ has_timestamp s /\ lrc_lastIndex st1 = 0).
    { intros s H H0. injection H as <-. split; [ | now apply Hfalse ].
      intro Hts. apply (Hzero H0) in Hts. discriminate Hts. }
    destruct (present (plainLyrics data)) as [p | ]; cbn [fst snd type].
    all: split; [ exact Hmeta | ]; split; [ intros; congruence | ];
      (split; [ intros; congruence | ]).
    all: intros s _ _ H H0; right; destruct (Hplain s H H0) as [Ha Hb];
      split; [ exact Ha | split; [ reflexivity | exact Hb ] ].
Qed.

(* ----------------------------------------------------------------- *)
(** ** The next line *)

(** An ordinary number that is not zero is above zero exactly when its sign
    is clear. *)
Lemma js_gt_zero_of_sign (s : bool) (r : number) :
  ordinary s r -> r <> S754_zero s -> js_gt r pos_zero = negb s.
Proof.
  intros [-> | [-> | (m & e & -> & _)]] Hnz.
  - contradiction.
  - now destruct s.
  - unfold js_gt, pos_zero. cbn [Number_compare mant_exp].
    rewrite compare_scaled_zero_r. now destruct s.
Qed.

(** The difference of two times is above zero exactly when the first is
    above the second. *)
Lemma Number_sub_positive (x y : number) :
  ordinary false x -> ordinary false y ->
  js_gt (Number_sub x y) pos_zero = js_gt x y.
Proof.
  intros [-> | [-> | (mx & ex & -> & Hex)]] [-> | [-> | (my & ey & -> & Hey)]];
    unfold Number_sub; cbn [SFsub negb]; try reflexivity.
  - (* 0 - y *)
    unfold js_gt, pos_zero. cbn [Number_compare mant_exp cond_Zopp].
    rewrite compare_scaled_zero_r.
    rewrite (compare_scaled_antisym (Zpos my, ey) (0%Z, 0%Z)), compare_scaled_zero_r.
    reflexivity.
  - (* x - y *)
    unfold cond_Zopp.
    set (ez := Z.min ex ey).
    destruct (shl_align_value mx ex ez ltac:(subst ez; lia)) as [Hx _].
    destruct (shl_align_value my ey ez ltac:(subst ez; lia)) as [Hy _].
    set (D := (Zpos (fst (shl_align mx ex ez)) - Zpos (fst (shl_align my ey ez)))%Z).
    assert (Hcmp : js_gt (S754_finite false mx ex) (S754_finite false my ey)
                   = (0 <? D)%Z).
    { unfold js_gt. cbn [Number_compare mant_exp cond_Zopp]. unfold compare_scaled.
      fold ez. rewrite <- Hx, <- Hy.
      destruct (Z.compare_spec (Zpos (fst (shl_align mx ex ez)))
                               (Zpos (fst (shl_align my ey ez))));
        destruct (Z.ltb_spec 0 D); subst D; try reflexivity; lia. }
    rewrite Hcmp.
    pose proof (binary_normalize_ordinary D ez false ltac:(subst ez; lia)) as H.
    destruct D as [ | p | p].
    + rewrite H. reflexivity.
    + destruct H as [Ho Hnz]. now rewrite (js_gt_zero_of_sign false).
    + destruct H as [Ho Hnz]. now rewrite (js_gt_zero_of_sign true).
Qed.

Lemma Math_max_zero_positive (x : number) :
  js_gt x pos_zero = true -> Math_max pos_zero x = x.
Proof.
  intro H.
  destruct x as [s | s | | s m e];
    [ destruct s; discriminate H | | discriminate H | ];
    unfold Math_max; cbn [is_nan orb]; unfold pos_zero in *; now rewrite H.
Qed.

(** [findActiveLine] answers -1 or an index of the array. *)
Lemma findActiveLine_range (lines : list LyricsLine) (t : number) :
  (-1 <= findActiveLine lines t < Z.of_nat (length lines))%Z.
Proof.
  unfold findActiveLine. destruct lines as [ | l0 rest]; [ cbn; lia | ].
  destruct (findActiveLine_from_spec (l0 :: rest) t (length (l0 :: rest)) (le_n _))
    as [[-> _] | (i & l & -> & Hi & _)]; lia.
Qed.

(** X5. On the index that [findActiveLine] gives for the time [t], with times
    that are not negative and not NaN: when a line follows the active one,
    [getNextLine] is that line and [getTimeUntilNextLine] is its time minus
    [t], which is above 0. Before the first line (index -1) and on the last
    line there is no next line and the answer is -1. *)
Theorem getTimeUntilNextLine_of_active (lines : list LyricsLine) (t : number)
    (Hlines : Forall (fun l => ordinary false (time l)) lines)
    (Ht : ordinary false t) :
  let i := findActiveLine lines t in
  match getNextLine lines i with
  | Some nextLine =>
      (0 <= i < Z.of_nat (length lines) - 1)%Z
      /\ nth_error lines (Z.to_nat i + 1) = Some nextLine
      /\ getTimeUntilNextLine lines t i = Number_sub (time nextLine) t
      /\ js_gt (getTimeUntilNextLine lines t i) pos_zero = true
  | None =>
      (i = (-1)%Z \/ i = (Z.of_nat (length lines) - 1)%Z)
      /\ getTimeUntilNextLine lines t i = of_Z (-1)
  end.
Proof.
  cbv zeta. pose proof (findActiveLine_range lines t) as Hrange.
  unfold getTimeUntilNextLine, getNextLine.
  destruct (Z.ltb_spec (findActiveLine lines t) 0) as [Hneg | Hpos]; cbn [orb].
  { split; [ left; lia | reflexivity ]. }
  destruct (Z.geb_spec (findActiveLine lines t) (Z.of_nat (length lines) - 1))
    as [Hlast | Hin].
  { split; [ right; lia | reflexivity ]. }
  assert (Hidx : Z.to_nat (findActiveLine lines t + 1)
                 = Z.to_nat (findActiveLine lines t) + 1) by lia.
  rewrite Hidx.
  destruct (nth_error lines (Z.to_nat (findActiveLine lines t) + 1)) as [next | ] eqn:En.
  2:{ apply nth_error_None in En. lia. }
  assert (Hgt : js_gt (time next) t = true).
  { assert (Hnext : ordinary false (time next)).
    { rewrite Forall_forall in Hlines. apply Hlines. eapply nth_error_In, En. }
    destruct (ordinary_compare _ _ _ _ Hnext Ht) as [c Hc].
    assert (Hle : js_le (time next) t = false).
    { unfold findActiveLine in *. destruct lines as [ | l0 rest]; [ cbn in Hin; lia | ].
      destruct (findActiveLine_from_spec (l0 :: rest) t (length (l0 :: rest)) (le_n _))
        as [[E _] | (i & l & E & Hi & _ & _ & Hafter)]; rewrite E in *; [ lia | ].
      apply (Hafter (Z.to_nat (Z.of_nat i) + 1)); [ | exact En ].
      split; [ lia | ]. apply nth_error_Some. now rewrite En. }
    unfold js_le in Hle. unfold js_gt. rewrite Hc in *. now destruct c. }
  assert (Hsub : js_gt (Number_sub (time next) t) pos_zero = true).
  { rewrite Number_sub_positive; [ exact Hgt | | exact Ht ].
    rewrite Forall_forall in Hlines. apply Hlines. eapply nth_error_In, En. }
  rewrite (Math_max_zero_positive _ Hsub).
  repeat split; try lia; assumption.
Qed.

Lemma getTimeUntilNextLine_of_active_witness :
  getTimeUntilNextLine [mkLine (of_Z 1) "Hello"; mkLine (of_Z 5) "World"] (of_Z 2)
    (findActiveLine [mkLine (of_Z 1) "Hello"; mkLine (of_Z 5) "World"] (of_Z 2))
  = Number_sub (of_Z 5) (of_Z 2).
Proof.
  refine (proj1 (proj2 (proj2
            (getTimeUntilNextLine_of_active
               [mkLine (of_Z 1) "Hello"; mkLine (of_Z 5) "World"] (of_Z 2) _ _)))).
  - constructor; [ apply (of_Z_ordinary 1); lia | ].
    constructor; [ apply (of_Z_ordinary 5); lia | constructor ].
  - apply of_Z_ordinary. lia.
Defined.

(* ----------------------------------------------------------------- *)
(** ** Valid lines *)

(** Whatever [lastIndex] is, the entries that one line adds have ordinary
    times. *)
Lemma parse_line_ordinary (st : RegExpState) (acc : list LyricsLine) (line : string) :
  Forall (fun x => ordinary false (time x)) acc ->
  Forall (fun x => ordinary false (time x)) (snd (parse_line (st, acc) line)).
Proof.
  intro Hacc. unfold parse_line. cbn [String_replace_empty fst snd].
  destruct (is_empty _); [ exact Hacc | ].
  cbn [lrc_lastIndex meta_lastIndex].
  pose proof (String_matchAll_timestamp_groups line (lrc_lastIndex st)) as Hg.
  destruct (String_matchAll LRC_TIMESTAMP_REGEX line (lrc_lastIndex st)) as [ | m ms];
    [ exact Hacc | ].
  cbn [snd]. apply Forall_app. split; [ exact Hacc | ].
  apply Forall_map. revert Hg. apply Forall_impl.
  intros a Ha. now apply line_of_match_ordinary.
Qed.

Lemma fold_parse_line_ordinary (lines : list string) :
  forall st acc,
    Forall (fun x => ordinary false (time x)) acc ->
    Forall (fun x => ordinary false (time x)) (snd (fold_left parse_line lines (st, acc))).
Proof.
  induction lines as [ | line lines IH]; intros st acc Hacc; [ exact Hacc | ].
  cbn [fold_left].
  pose proof (parse_line_ordinary st acc line Hacc) as H.
  destruct (parse_line (st, acc) line) as [st1 acc1]. now apply IH.
Qed.

(** The times of the parsed lines are ordinary, whatever earlier calls left
    in the regular expressions. *)
Lemma parseLrcLyrics_ordinary (st : RegExpState) (lrcText : string) :
  Forall (fun x => ordinary false (time x)) (fst (parseLrcLyrics st lrcText)).
Proof.
  unfold parseLrcLyrics. destruct (is_empty lrcText); [ constructor | ].
  pose proof (fold_parse_line_ordinary (split_lines lrcText) st [] (Forall_nil _)) as H.
  destruct (fold_left parse_line (split_lines lrcText) (st, [])) as [st' parsed].
  cbn [fst snd] in *.
  eapply Permutation_Forall; [ apply Array_sort_perm | exact H ].
Qed.

(** X6. What [parseLrcLyrics] returns passes [areValidLyricsLines] whenever it
    is not empty, whatever earlier calls left in the regular expressions:
    every time is a number that is at least 0. *)
Theorem parseLrcLyrics_lines_are_valid (st : RegExpState) (lrcText : string) :
  Forall (fun line => js_ge (time line) pos_zero = true) (fst (parseLrcLyrics st lrcText))
  /\ (areValidLyricsLines (fst (parseLrcLyrics st lrcText)) = true
      <-> fst (parseLrcLyrics st lrcText) <> []).
Proof.
  assert (H : Forall (fun line => js_ge (time line) pos_zero = true)
                (fst (parseLrcLyrics st lrcText))).
  { eapply Forall_impl; [ | apply parseLrcLyrics_ordinary ].
    intros a Ha. now apply js_ge_zero_ordinary. }
  split; [ exact H | ].
  unfold areValidLyricsLines.
  destruct (fst (parseLrcLyrics st lrcText)) as [ | l0 rest].
  - split; [ discriminate | intro Hne; now contradiction Hne ].
  - split; [ discriminate | intros _ ].
    apply forallb_forall. rewrite Forall_forall in H. exact H.
Qed.

(* ----------------------------------------------------------------- *)
(** ** Escaping HTML *)

(** The pattern of [escapeHtml] matches at a character exactly when it is
    one of the five, and the match is that character. *)
Lemma match_here_html_special (c : ascii) (s : string) :
  match_here false (re_source HTML_SPECIAL_REGEX) (String c s)
  = if is_html_special c then Some ([], 1) else None.
Proof.
  assert (L : String.length (String c s) - String.length s = 1)
    by (cbn [String.length]; lia).
  unfold match_here, is_html_special.
  cbn [re_source HTML_SPECIAL_REGEX rmatch lit_match char_eq].
  destruct (Ascii.eqb "&" c); [ now rewrite L | ].
  destruct (Ascii.eqb "<" c); [ now rewrite L | ].
  destruct (Ascii.eqb ">" c); [ now rewrite L | ].
  destruct (Ascii.eqb DQUOTE c); [ now rewrite L | ].
  destruct (Ascii.eqb "'" c); [ now rewrite L | reflexivity ].
Qed.

(** [escapeHtml] works character by character. *)
Lemma escapeHtml_escaped (s : string) : escapeHtml (Some s) = escaped s.
Proof.
  unfold escapeHtml, present, or_else.
  destruct s as [ | c0 s0]; [ reflexivity | ].
  cbn [is_empty]. unfold String_replace_with.
  cbn [re_ignoreCase re_source HTML_SPECIAL_REGEX].
  change (Alt (Lit "&") (Alt (Lit "<") (Alt (Lit ">")
            (Alt (Lit (String DQUOTE EmptyString)) (Lit "'")))))
    with (re_source HTML_SPECIAL_REGEX).
  generalize (String c0 s0) as s. clear c0 s0.
  induction s as [ | c s IH]; [ reflexivity | ].
  cbn [replace_matches]. rewrite match_here_html_special.
  cbn [escaped]. rewrite <- IH. unfold is_html_special, entity_of.
  destruct (Ascii.eqb_spec "&" c) as [<- | _]; [ reflexivity | ].
  destruct (Ascii.eqb_spec "<" c) as [<- | _]; [ reflexivity | ].
  destruct (Ascii.eqb_spec ">" c) as [<- | _]; [ reflexivity | ].
  destruct (Ascii.eqb_spec DQUOTE c) as [<- | _]; [ reflexivity | ].
  destruct (Ascii.eqb_spec "'" c) as [<- | _]; reflexivity.
Qed.

Lemma in_append (x : ascii) (a b : string) :
  In x (list_ascii_of_string (a ++ b)) <->
  In x (list_ascii_of_string a) \/ In x (list_ascii_of_string b).
Proof.
  induction a as [ | c a IH]; cbn [append list_ascii_of_string In]; [ tauto | ].
  rewrite IH. tauto.
Qed.

Lemma entity_of_safe (c x : ascii) :
  In x (list_ascii_of_string (entity_of c)) ->
  x <> "<"%char /\ x <> ">"%char /\ x <> DQUOTE /\ x <> "'"%char.
Proof.
  unfold entity_of.
  destruct (Ascii.eqb_spec "&" c) as [<- | H1];
    [ cbn; intros H; repeat destruct H as [<- | H]; try contradiction;
      repeat split; discriminate | ].
  destruct (Ascii.eqb_spec "<" c) as [<- | H2];
    [ cbn; intros H; repeat destruct H as [<- | H]; try contradiction;
      repeat split; discriminate | ].
  destruct (Ascii.eqb_spec ">" c) as [<- | H3];
    [ cbn; intros H; repeat destruct H as [<- | H]; try contradiction;
      repeat split; discriminate | ].
  destruct (Ascii.eqb_spec DQUOTE c) as [<- | H4];
    [ cbn; intros H; repeat destruct H as [<- | H]; try contradiction;
      repeat split; discriminate | ].
  destruct (Ascii.eqb_spec "'" c) as [<- | H5];
    [ cbn; intros H; repeat destruct H as [<- | H]; try contradiction;
      repeat split; discriminate | ].
  cbn. intros [<- | []]. repeat split; congruence.
Qed.

(** X7. The result of [escapeHtml] holds no less-than sign, no greater-than
    sign, no double quote and no apostrophe, whatever the input; it is the
    input with each of the five characters replaced by its entity, and the
    empty string for [null] and for the empty string. *)
Theorem escapeHtml_no_markup (str : option string) :
  (forall x, In x (list_ascii_of_string (escapeHtml str)) ->
     x <> "<"%char /\ x <> ">"%char /\ x <> DQUOTE /\ x <> "'"%char)
  /\ escapeHtml str = match str with Some s => escaped s | None => EmptyString end.
Proof.
  assert (E : escapeHtml str = match str with Some s => escaped s | None => EmptyString end).
  { destruct str as [s | ]; [ apply escapeHtml_escaped | reflexivity ]. }
  split; [ | exact E ]. rewrite E. clear E.
  destruct str as [s | ]; [ | intros x [] ].
  induction s as [ | c s IH]; [ intros x [] | ].
  intros x Hx. cbn [escaped] in Hx. apply in_append in Hx.
  destruct Hx as [Hx | Hx]; [ now apply (entity_of_safe c) | now apply IH ].
Qed.

(** Two escaped strings that start in the same way come from the same
    character: no entity is the start of another, and a character that
    stands for itself is not an ampersand. *)
Lemma entity_of_prefix (c d : ascii) (x y : string) :
  (entity_of c ++ x)%string = (entity_of d ++ y)%string -> c = d /\ x = y.
Proof.
  unfold entity_of.
  destruct (Ascii.eqb_spec "&" c) as [<- | C1];
    [ | destruct (Ascii.eqb_spec "<" c) as [<- | C2];
        [ | destruct (Ascii.eqb_spec ">" c) as [<- | C3];
            [ | destruct (Ascii.eqb_spec DQUOTE c) as [<- | C4];
                [ | destruct (Ascii.eqb_spec "'" c) as [<- | C5] ] ] ] ];
    (destruct (Ascii.eqb_spec "&" d) as [<- | D1];
     [ | destruct (Ascii.eqb_spec "<" d) as [<- | D2];
         [ | destruct (Ascii.eqb_spec ">" d) as [<- | D3];
             [ | destruct (Ascii.eqb_spec DQUOTE d) as [<- | D4];
                 [ | destruct (Ascii.eqb_spec "'" d) as [<- | D5] ] ] ] ]);
    cbn [append]; intro H; try discriminate H;
    try (injection H as H; subst; split; reflexivity);
    try (injection H; intros; subst; congruence).
Qed.

(** X8. [escapeHtml] loses nothing: two strings with the same escaped form are
    the same string. *)
Theorem escapeHtml_injective (a b : string)
    (H : escapeHtml (Some a) = escapeHtml (Some b)) :
  a = b.
Proof.
  rewrite !escapeHtml_escaped in H. revert b H.
  induction a as [ | c a IH]; intros [ | d b] H.
  - reflexivity.
  - exfalso. cbn [escaped] in H. unfold entity_of in H.
    destruct (Ascii.eqb "&" d); [ discriminate H | ].
    destruct (Ascii.eqb "<" d); [ discriminate H | ].
    destruct (Ascii.eqb ">" d); [ discriminate H | ].
    destruct (Ascii.eqb DQUOTE d); [ discriminate H | ].
    destruct (Ascii.eqb "'" d); discriminate H.
  - exfalso. cbn [escaped] in H. unfold entity_of in H.
    destruct (Ascii.eqb "&" c); [ discriminate H | ].
    destruct (Ascii.eqb "<" c); [ discriminate H | ].
    destruct (Ascii.eqb ">" c); [ discriminate H | ].
    destruct (Ascii.eqb DQUOTE c); [ discriminate H | ].
    destruct (Ascii.eqb "'" c); discriminate H.
  - cbn [escaped] in H. apply entity_of_prefix in H. destruct H as [-> H].
    f_equal. now apply IH.
Qed.

Lemma escapeHtml_injective_witness :
  escapeHtml (Some "a < b") = escapeHtml (Some ("a <" ++ " b")%string)
  /\ "a < b" = ("a <" ++ " b")%string.
Proof.
  refine (conj eq_refl (escapeHtml_injective "a < b" ("a <" ++ " b")%string _)).
  vm_compute. reflexivity.
Defined.

(* ----------------------------------------------------------------- *)
(** ** The cover *)

(** The test of [find] in [getCover] holds exactly of the images whose
    quality tag is a high one. *)
Lemma is_high_quality_iff (img : ImageQuality) :
  is_high_quality img = true <-> is_high_tag (img_quality img).
Proof.
  unfold is_high_quality, RegExp_test, RegExp_exec.
  cbn [HIGH_QUALITY_REGEX re_global].
  pose proof (search_occurs HIGH_QUALITY_REGEX (img_quality img) 0) as Hocc.
  cbn [HIGH_QUALITY_REGEX re_ignoreCase re_source] in *.
  unfold occurs in Hocc. cbn [re_ignoreCase re_source matches] in Hocc.
  fold (is_high_tag (img_quality img)) in Hocc.
  split.
  - intro H. apply andb_true_iff in H as [_ H]. apply Hocc.
    destruct (search true _ (img_quality img) 0); [ discriminate | discriminate H ].
  - intro H. pose proof H as (pre & t & post & Hq & Ht).
    apply Hocc in H. apply andb_true_iff. split.
    + rewrite Hq. destruct pre; [ | reflexivity ].
      destruct t; [ | reflexivity ].
      cbn in Ht. tauto.
    + destruct (search true _ (img_quality img) 0); [ reflexivity | contradiction ].
Qed.

(** [img.link || img.url || FALLBACK_COVER]: the link when it is a
    non-empty string, else the URL when it is one, else the fallback. *)
Lemma image_link_or_url_spec (img : ImageQuality) :
  image_link_or_url img <> EmptyString
  /\ (forall u, img_link img = Some u -> u <> EmptyString -> image_link_or_url img = u)
  /\ (img_link img = None \/ img_link img = Some EmptyString ->
      forall u, img_url img = Some u -> u <> EmptyString -> image_link_or_url img = u)
  /\ (img_link img = None \/ img_link img = Some EmptyString ->
      img_url img = None \/ img_url img = Some EmptyString ->
      image_link_or_url img = FALLBACK_COVER).
Proof.
  unfold image_link_or_url, or_else, FALLBACK_COVER.
  destruct (img_link img) as [[ | a s] | ], (img_url img) as [[ | b s'] | ];
    cbn [is_empty].
  all: split; [ discriminate | ].
  all: split; [ intros u H Hu; first [ discriminate H | injection H as <-; congruence ] | ].
  all: split; [ intros [H | H] u H' Hu;
                first [ discriminate H | discriminate H'
                      | injection H' as <-; congruence ]
              | intros [H | H] [H' | H']; first [ discriminate H | discriminate H' | reflexivity ] ].
Qed.

(** X9. [getCover] never returns the empty string. What it returns is the
    fallback cover, or the [cover] of the item, or the link or the URL of
    one of its images, or its [image_url], or its [image] when that is a
    string. *)
Theorem getCover_never_empty (item : option CoverItem) :
  getCover item <> EmptyString
  /\ (getCover item = FALLBACK_COVER
      \/ exists it,
           item = Some it /\
           (cover it = Some (getCover item)
            \/ image_url it = Some (getCover item)
            \/ image it = Some (Image_string (getCover item))
            \/ exists imgs img,
                 image it = Some (Image_array imgs) /\ In img imgs /\
                 (img_link img = Some (getCover item)
                  \/ img_url img = Some (getCover item)))).
Proof.
  assert (Himg : forall img,
            image_link_or_url img = FALLBACK_COVER
            \/ img_link img = Some (image_link_or_url img)
            \/ img_url img = Some (image_link_or_url img)).
  { intro img. unfold image_link_or_url, or_else.
    destruct (img_link img) as [[ | a s] | ], (img_url img) as [[ | b s'] | ];
      cbn [is_empty]; auto. }
  destruct item as [[c im iu] | ]; [ | split; [ discriminate | now left ] ].
  unfold getCover, present, or_else. cbn [cover image image_url].
  destruct c as [[ | c0 c] | ]; cbn [is_empty].
  2:{ split; [ discriminate | ]. right. eexists. split; [ reflexivity | ]. now left. }
  all: destruct im as [[[ | img rest] | s] | ].
  all: try (destruct (find is_high_quality (img :: rest)) as [hq | ] eqn:Ef;
            [ apply find_some in Ef; destruct Ef as [Hin _];
              split; [ apply image_link_or_url_spec | ];
              destruct (Himg hq) as [H | H]; [ now left | ];
              right; eexists; split; [ reflexivity | ];
              right; right; right; exists (img :: rest), hq; cbn [image]; auto
            | split; [ apply image_link_or_url_spec | ];
              destruct (Himg (last rest img)) as [H | H]; [ now left | ];
              right; eexists; split; [ reflexivity | ];
              right; right; right; exists (img :: rest), (last rest img);
              cbn [image];
              split; [ reflexivity | split; [ | exact H ] ];
              pose proof (last_is_nth rest img) as Hl;
              eapply nth_error_In, Hl ]).
  all: destruct iu as [[ | u0 u] | ]; cbn [is_empty].
  all: try (split; [ discriminate | ]; right; eexists; split; [ reflexivity | ];
            cbn [image_url]; now auto).
  all: try (split; [ discriminate | now left ]).
  all: destruct s as [ | s0 s]; cbn [is_empty].
  all: try (split; [ discriminate | now left ]).
  all: split; [ discriminate | ]; right; eexists; split; [ reflexivity | ];
    cbn [image]; auto.
Qed.

(** X10. For an item without [cover] whose [image] is a non-empty array,
    [getCover] takes the first image whose quality tag is a high one, and
    the last image when there is none; it returns the link of that image
    when it is a non-empty string, else its URL when it is one, else the
    fallback cover. The [image_url] of the item is not looked at. *)
Theorem getCover_image_selection (it : CoverItem) (imgs : list ImageQuality)
    (Hcover : cover it = None \/ cover it = Some EmptyString)
    (Himage : image it = Some (Image_array imgs))
    (Hne : imgs <> []) :
  exists img,
    getCover (Some it) = image_link_or_url img
    /\ ((exists pre post,
           imgs = pre ++ img :: post /\ is_high_tag (img_quality img) /\
           forall x, In x pre -> ~ is_high_tag (img_quality x))
        \/
        ((forall x, In x imgs -> ~ is_high_tag (img_quality x)) /\
         nth_error imgs (length imgs - 1) = Some img))
    /\ (forall u, img_link img = Some u -> u <> EmptyString -> getCover (Some it) = u)
    /\ (img_link img = None \/ img_link img = Some EmptyString ->
        forall u, img_url img = Some u -> u <> EmptyString -> getCover (Some it) = u)
    /\ (img_link img = None \/ img_link img = Some EmptyString ->
        img_url img = None \/ img_url img = Some EmptyString ->
        getCover (Some it) = FALLBACK_COVER).
Proof.
  destruct imgs as [ | img0 rest]; [ contradiction | clear Hne ].
  assert (Hcall : getCover (Some it)
                  = match find is_high_quality (img0 :: rest) with
                    | Some highQuality => image_link_or_url highQuality
                    | None => image_link_or_url (last rest img0)
                    end).
  { unfold getCover, present, or_else. rewrite Himage.
    now destruct Hcover as [-> | ->]. }
  rewrite Hcall.
  destruct (find is_high_quality (img0 :: rest)) as [hq | ] eqn:Ef.
  - exists hq. split; [ reflexivity | ]. split; [ | apply image_link_or_url_spec ].
    left. destruct (find_first _ _ _ Ef) as (pre & post & Hl & Hq & Hpre).
    exists pre, post. split; [ exact Hl | ]. split; [ now apply is_high_quality_iff | ].
    intros x Hx Hh. apply is_high_quality_iff in Hh. rewrite (Hpre x Hx) in Hh.
    discriminate Hh.
  - exists (last rest img0). split; [ reflexivity | ].
    split; [ | apply image_link_or_url_spec ].
    right. split; [ | apply last_is_nth ].
    intros x Hx Hh. apply is_high_quality_iff in Hh.
    pose proof (find_none _ _ Ef x Hx) as Hf. rewrite Hf in Hh. discriminate Hh.
Qed.

Lemma getCover_image_selection_witness :
  exists img,
    getCover (Some (mkCoverItem None
                      (Some (Image_array [mkImageQuality "500x500" (Some "big.jpg") None;
                                          mkImageQuality "150x150" None (Some "small.jpg")]))
                      (Some "other.jpg")))
    = image_link_or_url img
    /\ In img [mkImageQuality "500x500" (Some "big.jpg") None;
               mkImageQuality "150x150" None (Some "small.jpg")].
Proof.
  destruct (getCover_image_selection
              (mkCoverItem None
                 (Some (Image_array [mkImageQuality "500x500" (Some "big.jpg") None;
                                     mkImageQuality "150x150" None (Some "small.jpg")]))
                 (Some "other.jpg"))
              [mkImageQuality "500x500" (Some "big.jpg") None;
               mkImageQuality "150x150" None (Some "small.jpg")]
              (or_introl eq_refl) eq_refl ltac:(discriminate))
    as (img & Hres & [(pre & post & Hl & _) | [_ Hlast]] & _).
  - exists img. split; [ exact Hres | ]. rewrite Hl. apply in_elt.
  - exists img. split; [ exact Hres | ]. eapply nth_error_In, Hlast.
Defined.

(* ----------------------------------------------------------------- *)
(** ** Duplicates *)

Section Duplicates.
Context {A : Type}.
Variable getKey : A -> string.

Lemma seen_has (key : string) (seen : list string) :
  existsb (String.eqb key) seen = true <-> In key seen.
Proof.
  rewrite existsb_exists. split.
  - intros [y [Hy E]]. apply String.eqb_eq in E. now subst.
  - intro H. exists key. split; [ exact H | apply String.eqb_refl ].
Qed.

(** The items that the filter keeps: those whose key is not in [seen] and
    is not the key of an item before them. *)
Lemma removeDuplicates_from_In (array : list A) :
  forall seen x,
    In x (removeDuplicates_from getKey seen array) <->
    exists pre post,
      array = pre ++ x :: post /\ ~ In (getKey x) seen /\
      ~ In (getKey x) (map getKey pre).
Proof.
  induction array as [ | item rest IH]; intros seen x; cbn [removeDuplicates_from].
  - split; [ intros [] | intros (pre & post & H & _) ]. now destruct pre.
  - destruct (existsb (String.eqb (getKey item)) seen) eqn:E.
    + apply seen_has in E. rewrite IH. split.
      * intros (pre & post & -> & Hs & Hp). exists (item :: pre), post.
        split; [ reflexivity | ]. split; [ exact Hs | ].
        cbn [map In]. intros [H | H]; [ | now apply Hp ]. apply Hs. now rewrite <- H.
      * intros (pre & post & H & Hs & Hp). destruct pre as [ | y pre].
        -- injection H as -> ->. contradiction.
        -- injection H as -> ->. exists pre, post. split; [ reflexivity | ].
           split; [ exact Hs | ]. intro Hin. apply Hp. now right.
    + assert (Hns : ~ In (getKey item) seen).
      { intro H. apply seen_has in H. rewrite H in E. discriminate E. }
      cbn [In]. rewrite IH. split.
      * intros [<- | (pre & post & -> & Hs & Hp)].
        -- exists [], rest. split; [ reflexivity | ]. split; [ exact Hns | intros [] ].
        -- exists (item :: pre), post. split; [ reflexivity | ].
           split; [ intro H; apply Hs; now right | ].
           cbn [map In]. intros [H | H]; [ apply Hs; now left | now apply Hp ].
      * intros (pre & post & H & Hs & Hp). destruct pre as [ | y pre].
        -- injection H as -> ->. now left.
        -- injection H as -> ->. right. exists pre, post. split; [ reflexivity | ].
           split; [ | intro Hin; apply Hp; now right ].
           intros [H | H]; [ apply Hp; now left | now apply Hs ].
Qed.

Lemma removeDuplicates_from_NoDup (array : list A) :
  forall seen, NoDup (map getKey (removeDuplicates_from getKey seen array)).
Proof.
  induction array as [ | item rest IH]; intro seen; cbn [removeDuplicates_from].
  - constructor.
  - destruct (existsb (String.eqb (getKey item)) seen); [ apply IH | ].
    cbn [map]. constructor; [ | apply IH ].
    intro Hin. apply in_map_iff in Hin. destruct Hin as [x [Hk Hx]].
    apply removeDuplicates_from_In in Hx. destruct Hx as (_ & _ & _ & Hs & _).
    apply Hs. now left.
Qed.

(** A key of the array is the key of a first item. *)
Lemma first_with_key (array : list A) (k : string) :
  In k (map getKey array) ->
  exists pre x post,
    array = pre ++ x :: post /\ getKey x = k /\ ~ In k (map getKey pre).
Proof.
  induction array as [ | item rest IH]; intro Hin; [ destruct Hin | ].
  destruct (String.eqb_spec (getKey item) k) as [E | N].
  - exists [], item, rest. split; [ reflexivity | ]. split; [ exact E | intros [] ].
  - destruct Hin as [H | H]; [ contradiction | ].
    destruct (IH H) as (pre & x & post & -> & Hk & Hp).
    exists (item :: pre), x, post. split; [ reflexivity | ]. split; [ exact Hk | ].
    intros [H' | H']; [ contradiction | now apply Hp ].
Qed.

(** An array that has no key of [seen] and no key twice is left as it is. *)
Lemma removeDuplicates_from_fixed (array : list A) :
  forall seen,
    NoDup (map getKey array) ->
    (forall k, In k (map getKey array) -> ~ In k seen) ->
    removeDuplicates_from getKey seen array = array.
Proof.
  induction array as [ | item rest IH]; intros seen Hnd Hs; [ reflexivity | ].
  cbn [removeDuplicates_from]. cbn [map] in Hnd. inversion Hnd as [ | ? ? Hni Hnd']; subst.
  destruct (existsb (String.eqb (getKey item)) seen) eqn:E.
  - apply seen_has in E. exfalso. apply (Hs (getKey item)); [ now left | exact E ].
  - f_equal. apply IH; [ exact Hnd' | ].
    intros k Hk [<- | H]; [ contradiction | ]. apply (Hs k); [ now right | exact H ].
Qed.

(** One more item at the end. *)
Lemma removeDuplicates_from_snoc (pre : list A) (x : A) :
  forall seen,
    removeDuplicates_from getKey seen (pre ++ [x])
    = removeDuplicates_from getKey seen pre
      ++ (if (existsb (String.eqb (getKey x)) seen
              || existsb (String.eqb (getKey x)) (map getKey pre))%bool
          then [] else [x]).
Proof.
  induction pre as [ | item pre IH]; intro seen; cbn [app removeDuplicates_from map existsb].
  - rewrite orb_false_r. now destruct (existsb (String.eqb (getKey x)) seen).
  - destruct (existsb (String.eqb (getKey item)) seen) eqn:E.
    + rewrite IH. f_equal.
      destruct (String.eqb_spec (getKey x) (getKey item)) as [Ek | _];
        [ | reflexivity ].
      rewrite Ek, E. reflexivity.
    + rewrite IH. cbn [app existsb]. do 2 f_equal.
      destruct (String.eqb (getKey x) (getKey item)),
               (existsb (String.eqb (getKey x)) seen); reflexivity.
Qed.

(** X11. In the result of [removeDuplicates] no key comes twice, the keys are
    those of the array, and the items are the first ones of the array with
    their key. *)
Theorem removeDuplicates_keeps_first (array : list A) :
  NoDup (map getKey (removeDuplicates array getKey))
  /\ (forall k, In k (map getKey (removeDuplicates array getKey))
                <-> In k (map getKey array))
  /\ (forall x, In x (removeDuplicates array getKey) <->
        exists pre post,
          array = pre ++ x :: post /\ ~ In (getKey x) (map getKey pre)).
Proof.
  assert (Hin : forall x, In x (removeDuplicates array getKey) <->
            exists pre post,
              array = pre ++ x :: post /\ ~ In (getKey x) (map getKey pre)).
  { intro x. unfold removeDuplicates. rewrite removeDuplicates_from_In.
    split; intros (pre & post & H); exists pre, post; [ tauto | ].
    split; [ tauto | ]. split; [ intros [] | tauto ]. }
  split; [ apply removeDuplicates_from_NoDup | ]. split; [ | exact Hin ].
  intro k. split.
  - intro Hk. apply in_map_iff in Hk. destruct Hk as [x [<- Hx]].
    apply Hin in Hx. destruct Hx as (pre & post & -> & _).
    apply in_map, in_elt.
  - intro Hk. destruct (first_with_key array k Hk) as (pre & x & post & Ha & <- & Hp).
    apply in_map, Hin. now exists pre, post.
Qed.

(** X12. [removeDuplicates] leaves an array without a repeated key as it is, so
    that a second pass changes nothing; and an item put at the end of the
    array comes at the end of the result, unless its key is already there. *)
Theorem removeDuplicates_idempotent (array : list A) :
  (NoDup (map getKey array) -> removeDuplicates array getKey = array)
  /\ removeDuplicates (removeDuplicates array getKey) getKey
     = removeDuplicates array getKey
  /\ (forall x,
        removeDuplicates (array ++ [x]) getKey
        = removeDuplicates array getKey
          ++ (if existsb (String.eqb (getKey x)) (map getKey array) then [] else [x])).
Proof.
  assert (Hfix : forall l, NoDup (map getKey l) -> removeDuplicates l getKey = l).
  { intros l Hl. apply removeDuplicates_from_fixed; [ exact Hl | intros k _ [] ]. }
  split; [ apply Hfix | ]. split.
  - apply Hfix, removeDuplicates_from_NoDup.
  - intro x. unfold removeDuplicates. now rewrite removeDuplicates_from_snoc.
Qed.

End Duplicates.

(* ----------------------------------------------------------------- *)
(** ** Progress *)

(** A quotient by a finite number that is not zero, and a product with
    one, are NaN only when the other operand is. *)
Lemma Number_div_finite_ordinary (x : number) (sy : bool) (my : positive) (ey : Z) :
  is_nan x = false -> exists s, ordinary s (Number_div x (S754_finite sy my ey)).
Proof.
  destruct x as [sx | sx | | sx mx ex]; intro Hx; try discriminate Hx;
    unfold Number_div; cbn [SFdiv].
  - exists (xorb sx sy). now left.
  - exists (xorb sx sy). now right; left.
  - exists (xorb sx sy). unfold SFdiv_core_binary.
    destruct (Z.div_eucl _ _) as [q r] eqn:E.
    apply binary_round_aux_ordinary.
    match type of E with Z.div_eucl ?a ?b = _ =>
      assert (Ha : (0 <= a)%Z);
      [ | pose proof (Z_div_mod a b ltac:(lia)) as Hdm; rewrite E in Hdm;
          destruct Hdm as [Hq Hr]; nia ]
    end.
    destruct (_ - _ - _)%Z; try lia.
    apply Z.shiftl_nonneg. lia.
Qed.

Lemma Number_mul_finite_ordinary (s : bool) (x : number) (sy : bool) (my : positive)
    (ey : Z) :
  ordinary s x -> ordinary (xorb s sy) (Number_mul x (S754_finite sy my ey)).
Proof.
  intros [-> | [-> | (m & e & -> & _)]]; unfold Number_mul; cbn [SFmul].
  - now left.
  - now right; left.
  - apply binary_round_aux_ordinary. lia.
Qed.

Lemma ordinary_not_nan (s : bool) (x : number) : ordinary s x -> is_nan x = false.
Proof. now intros [-> | [-> | (m & e & -> & _)]]. Qed.

Lemma js_gt_ge (x y : number) : js_gt x y = true -> js_ge x y = true.
Proof. unfold js_gt, js_ge. now destruct (Number_compare x y) as [[ | | ] | ]. Qed.

(** [Math.min(100, p)] is [p] or 100, and at most 100. *)
Lemma Math_min_100 (s : bool) (p : number) :
  ordinary s p ->
  (Math_min (of_Z 100) p = p \/ Math_min (of_Z 100) p = of_Z 100)
  /\ js_le (Math_min (of_Z 100) p) (of_Z 100) = true.
Proof.
  intro Hp. unfold Math_min. rewrite (ordinary_not_nan s p Hp).
  change (of_Z 100) with (S754_finite false 7036874417766400 (-46)).
  cbn [is_nan orb].
  destruct (js_lt p (S754_finite false 7036874417766400 (-46))) eqn:E.
  - split; [ now left | now apply js_lt_le ].
  - split; [ now right | reflexivity ].
Qed.

(** [Math.max(0, m)] is [m] or 0, and at least 0. *)
Lemma Math_max_zero (s : bool) (m : number) :
  ordinary s m ->
  (Math_max pos_zero m = m \/ Math_max pos_zero m = pos_zero)
  /\ js_ge (Math_max pos_zero m) pos_zero = true.
Proof.
  intro Hm. unfold Math_max. rewrite (ordinary_not_nan s m Hm).
  unfold pos_zero. cbn [is_nan orb].
  destruct (js_gt m (S754_zero false)) eqn:E.
  - split; [ now left | now apply js_gt_ge ].
  - split; [ now right | reflexivity ].
Qed.

(** X13. [calculateProgress] is 0 when the total is 0, NaN or infinite. For
    every other total it is a number from 0 to 100, unless [current] is
    NaN, and then it is NaN. *)
Theorem calculateProgress_range (current total : number) :
  let r := calculateProgress current total in
  (js_eq total (of_Z 0) = true \/ isFinite total = false -> r = pos_zero)
  /\ (is_nan current = false ->
      js_ge r pos_zero = true /\ js_le r (of_Z 100) = true)
  /\ (is_nan current = true -> js_eq total (of_Z 0) = false -> isFinite total = true ->
      is_nan r = true).
Proof.
  cbv zeta. unfold calculateProgress.
  destruct total as [st | st | | st mt et].
  1-3: cbn [isFinite negb orb]; rewrite ?orb_true_r;
    try (change (js_eq (S754_zero st) (of_Z 0)) with true; cbn [orb]);
    (split; [ reflexivity | ]); (split; [ intros _; split; reflexivity | ]);
    intros; discriminate.
  change (js_eq (S754_finite st mt et) (of_Z 0)) with
    (match compare_scaled (cond_Zopp st (Zpos mt), et) (0%Z, 0%Z) with
     | Eq => true | _ => false end).
  rewrite compare_scaled_zero_r. cbn [isFinite negb].
  assert (Hnz : match (cond_Zopp st (Zpos mt) ?= 0)%Z with Eq => true | _ => false end
                = false) by now destruct st.
  rewrite Hnz. cbn [orb].
  split; [ intros [H | H]; discriminate H | ]. split.
  - intro Hc.
    destruct (Number_div_finite_ordinary current st mt et Hc) as [s Hq].
    change (of_Z 100) with (S754_finite false 7036874417766400 (-46)) at 1 2.
    pose proof (Number_mul_finite_ordinary s _ false 7036874417766400 (-46) Hq) as Hp.
    destruct (Math_min_100 _ _ Hp) as [Hmin Hle].
    change (S754_finite false 7036874417766400 (-46)) with (of_Z 100) in *.
    set (p := Number_mul (Number_div current (S754_finite st mt et)) (of_Z 100)) in *.
    assert (Hm : exists s', ordinary s' (Math_min (of_Z 100) p)).
    { destruct Hmin as [-> | ->]; [ now exists (xorb s false) | ].
      exists false. apply of_Z_ordinary. lia. }
    destruct Hm as [s' Hm].
    destruct (Math_max_zero _ _ Hm) as [Hmax Hge].
    split; [ exact Hge | ].
    destruct Hmax as [-> | ->]; [ exact Hle | reflexivity ].
  - intros Hc _ _. destruct current; try discriminate Hc. reflexivity.
Qed.

(* ----------------------------------------------------------------- *)
(** ** The playable URL, for every song *)

Lemma or_else_spec (a b : option string) (u : string) :
  or_else a b = Some u -> (a = Some u /\ u <> EmptyString) \/ b = Some u.
Proof.
  unfold or_else. destruct a as [[ | c s] | ]; intro H; auto.
  left. injection H as <-. split; [ reflexivity | discriminate ].
Qed.

(** On a list that is not empty [getUrlByQuality] does not throw: it
    answers with one of the candidates. *)
Lemma getUrlByQuality_candidate (ds : list DownloadUrl) (q : QualitySetting) :
  ds <> [] ->
  exists d, In d ds /\ getUrlByQuality ds q = Normal (link_or_url d).
Proof.
  intro Hne.
  assert (Hlast : exists d, In d ds /\ url_of_last ds = Normal (link_or_url d)).
  { destruct (url_of_last_spec ds Hne) as [d [Hn Hu]].
    exists d. split; [ eapply nth_error_In, Hn | exact Hu ]. }
  unfold getUrlByQuality.
  destruct q; cbn [qualityMap truthy negb is_empty]; try exact Hlast.
  all: match goal with
       | |- context [find ?p ?l] =>
           destruct (find p l) as [m | ] eqn:Ef; [ | exact Hlast ];
           apply find_some in Ef; exists m; split; [ apply Ef | reflexivity ]
       end.
Qed.

(** X14. [extractPlayableUrl] never throws and never returns the empty string.
    A URL that it returns is the link or the URL of one of the candidates
    of the song, or its [media_url], [url] or [audio]. An empty
    [downloadUrl] array hides [download_url]: the answer is then the first
    of [media_url], [url] and [audio] that is a non-empty string. *)
Theorem extractPlayableUrl_never_empty (songDetails : option Song)
    (q : option QualitySetting) :
  exists r,
    extractPlayableUrl songDetails q = Normal r
    /\ (songDetails = None -> r = None)
    /\ (forall u, r = Some u ->
          u <> EmptyString /\
          exists song,
            songDetails = Some song /\
            (media_url song = Some u \/ song_url song = Some u \/ audio song = Some u
             \/ exists ds d,
                  (downloadUrl song = Some ds \/
                   (downloadUrl song = None /\ download_url song = Some ds)) /\
                  In d ds /\ (link d = Some u \/ url d = Some u)))
    /\ (forall song,
          songDetails = Some song -> downloadUrl song = Some [] ->
          r = or_else (media_url song) (or_else (song_url song) (or_else (audio song) None))).
Proof.
  destruct songDetails as [song | ].
  2:{ exists None. split; [ reflexivity | ]. split; [ reflexivity | ].
      split; intros; discriminate. }
  assert (Hfallback : forall u,
            or_else (media_url song) (or_else (song_url song) (or_else (audio song) None))
            = Some u ->
            u <> EmptyString /\
            (media_url song = Some u \/ song_url song = Some u \/ audio song = Some u)).
  { intros u H.
    apply or_else_spec in H. destruct H as [[H Hu] | H]; [ auto | ].
    apply or_else_spec in H. destruct H as [[H Hu] | H]; [ auto | ].
    apply or_else_spec in H. destruct H as [[H Hu] | H]; [ auto | discriminate H ]. }
  assert (Hlist : forall ds,
            ds <> [] ->
            downloadUrl song = Some ds \/
            (downloadUrl song = None /\ download_url song = Some ds) ->
            exists r,
              getUrlByQuality ds (match q with Some q => q | None => Q_auto end) = Normal r
              /\ forall u, r = Some u ->
                   u <> EmptyString /\
                   exists ds d,
                     (downloadUrl song = Some ds \/
                      (downloadUrl song = None /\ download_url song = Some ds)) /\
                     In d ds /\ (link d = Some u \/ url d = Some u)).
  { intros ds Hne Hds.
    destruct (getUrlByQuality_candidate ds (match q with Some q => q | None => Q_auto end) Hne)
      as [d [Hin Hq]].
    exists (link_or_url d). split; [ exact Hq | ].
    intros u Hu. destruct (proj1 (link_or_url_spec d) u Hu) as [Hnu Hlu].
    split; [ exact Hnu | ]. now exists ds, d. }
  unfold extractPlayableUrl.
  destruct (downloadUrl song) as [[ | d rest] | ] eqn:E1.
  - (* an empty array *)
    eexists. split; [ reflexivity | ]. split; [ discriminate | ].
    split; [ | intros s H _; now injection H as <- ].
    intros u Hu. destruct (Hfallback u Hu) as [Hne H]. split; [ exact Hne | ].
    exists song. split; [ reflexivity | rewrite ?E1, ?E2; tauto ].
  - destruct (Hlist (d :: rest) ltac:(discriminate) (or_introl eq_refl)) as [r [Hr Hu]].
    exists r. split; [ exact Hr | ]. split; [ discriminate | ].
    split; [ | intros s Hs H; injection Hs as <-; rewrite E1 in H; discriminate H ].
    intros u Hru. destruct (Hu u Hru) as [Hne H]. split; [ exact Hne | ].
    exists song. split; [ reflexivity | rewrite ?E1, ?E2; tauto ].
  - destruct (download_url song) as [[ | d rest] | ] eqn:E2.
    + eexists. split; [ reflexivity | ]. split; [ discriminate | ].
      split; [ | intros s Hs H; injection Hs as <-; rewrite E1 in H; discriminate H ].
      intros u Hu. destruct (Hfallback u Hu) as [Hne H]. split; [ exact Hne | ].
      exists song. split; [ reflexivity | rewrite ?E1, ?E2; tauto ].
    + destruct (Hlist (d :: rest) ltac:(discriminate) (or_intror (conj eq_refl eq_refl)))
        as [r [Hr Hu]].
      exists r. split; [ exact Hr | ]. split; [ discriminate | ].
      split; [ | intros s Hs H; injection Hs as <-; rewrite E1 in H; discriminate H ].
      intros u Hru. destruct (Hu u Hru) as [Hne H]. split; [ exact Hne | ].
      exists song. split; [ reflexivity | rewrite ?E1, ?E2; tauto ].
    + eexists. split; [ reflexivity | ]. split; [ discriminate | ].
      split; [ | intros s Hs H; injection Hs as <-; rewrite E1 in H; discriminate H ].
      intros u Hu. destruct (Hfallback u Hu) as [Hne H]. split; [ exact Hne | ].
      exists song. split; [ reflexivity | rewrite ?E1, ?E2; tauto ].
Qed.

(* ----------------------------------------------------------------- *)
(** ** The stored quality setting *)

Lemma property_filter_other (key other : string) (items : list (string * string)) :
  key <> other ->
  property key (filter (fun kv => negb (String.eqb (fst kv) other)) items)
  = property key items.
Proof.
  intro Hne. induction items as [ | [k v] items IH]; [ reflexivity | ].
  cbn [filter fst property].
  destruct (String.eqb_spec k other) as [-> | Hk]; cbn [negb property].
  - destruct (String.eqb_spec other key) as [E | _]; [ now symmetry in E | exact IH ].
  - now rewrite IH.
Qed.

(** The test of [isStorageAvailable] does not change what [getItem] gives
    for another key. *)
Lemma isStorageAvailable_getItem (key : string) (ls : LocalStorage) :
  key <> "__storage_test__" ->
  getItem key (snd (isStorageAvailable ls)) = getItem key ls.
Proof.
  intro Hne. unfold isStorageAvailable, setItem.
  destruct (ls_accepts ls (ls_items ls) _ _); [ | reflexivity ].
  unfold removeItem, getItem. cbn [snd ls_items filter fst].
  rewrite String.eqb_refl. cbn [negb].
  now rewrite !property_filter_other.
Qed.

Lemma includes_validQualities (q : string) :
  includes validQualities q = true ->
  In q validQualities /\ q <> EmptyString.
Proof.
  unfold includes. rewrite existsb_exists. intros [y [Hy E]].
  apply String.eqb_eq in E. subst y. split; [ exact Hy | ].
  intros ->. cbn in Hy. repeat destruct Hy as [Hy | Hy]; try discriminate Hy.
  exact Hy.
Qed.

Lemma includes_In (xs : list string) (x : string) :
  includes xs x = true <-> In x xs.
Proof.
  unfold includes. rewrite existsb_exists. split.
  - intros [y [Hy E]]. apply String.eqb_eq in E. now subst y.
  - intro H. exists x. split; [ exact H | apply String.eqb_refl ].
Qed.

(** What [loadQualitySetting] answers, read off the storage: the stored
    string when the storage can be used and holds one of the five
    settings, and [auto] in every other case. *)
Lemma loadQualitySetting_cases (ls : LocalStorage) :
  (fst (isStorageAvailable ls) = true ->
   forall v, getItem QUALITY_SETTING ls = Some v -> In v validQualities ->
             fst (loadQualitySetting ls) = v)
  /\ (fst (isStorageAvailable ls) = false \/
      getItem QUALITY_SETTING ls = None \/
      (exists v, getItem QUALITY_SETTING ls = Some v /\ ~ In v validQualities) ->
      fst (loadQualitySetting ls) = DEFAULT_QUALITY).
Proof.
  pose proof (isStorageAvailable_getItem QUALITY_SETTING ls ltac:(discriminate)) as Hget.
  unfold loadQualitySetting, getStorageItem.
  destruct (isStorageAvailable ls) as [[ | ] ls1]; cbn [negb fst snd] in *.
  2:{ split; [ intro H; discriminate H | reflexivity ]. }
  rewrite Hget. split.
  - intros _ v Hv Hin. rewrite Hv.
    pose proof (proj2 (includes_In _ _) Hin) as Hi.
    destruct (includes_validQualities v Hi) as [_ Hne].
    unfold present, or_else. destruct v as [ | c v]; [ now contradiction Hne | ].
    cbn [is_empty]. now rewrite Hi.
  - intros [H | [H | [v [Hv Hnot]]]].
    + discriminate H.
    + now rewrite H.
    + rewrite Hv. unfold present, or_else.
      destruct (is_empty v); [ reflexivity | ].
      destruct (includes validQualities v) eqn:Ei; [ | reflexivity ].
      apply includes_In in Ei. contradiction.
Qed.

(** X15. [loadQualitySetting] always answers with one of the five settings.
    When the storage can be used and holds one of the five under the key
    [qualitySetting], the answer is that stored setting; when the storage
    cannot be used, or holds nothing under the key, or holds a string that
    is not one of the five, the answer is [auto]. The call leaves the
    stored setting as it is. *)
Theorem loadQualitySetting_valid (ls : LocalStorage) :
  In (fst (loadQualitySetting ls)) validQualities
  /\ (fst (loadQualitySetting ls) = DEFAULT_QUALITY
      \/ (fst (isStorageAvailable ls) = true
          /\ getItem QUALITY_SETTING ls = Some (fst (loadQualitySetting ls))))
  /\ (fst (isStorageAvailable ls) = true ->
      forall v, getItem QUALITY_SETTING ls = Some v -> In v validQualities ->
                fst (loadQualitySetting ls) = v)
  /\ (fst (isStorageAvailable ls) = false \/
      getItem QUALITY_SETTING ls = None \/
      (exists v, getItem QUALITY_SETTING ls = Some v /\ ~ In v validQualities) ->
      fst (loadQualitySetting ls) = DEFAULT_QUALITY)
  /\ getItem QUALITY_SETTING (snd (loadQualitySetting ls)) = getItem QUALITY_SETTING ls.
Proof.
  destruct (loadQualitySetting_cases ls) as [Hstored Hdefault].
  split; [ | split; [ | split; [ exact Hstored | split; [ exact Hdefault | ] ] ] ].
  all: pose proof (isStorageAvailable_getItem QUALITY_SETTING ls ltac:(discriminate))
         as Hget.
  all: clear Hstored Hdefault.
  all: unfold loadQualitySetting, getStorageItem.
  all: destruct (isStorageAvailable ls) as [[ | ] ls1]; cbn [negb fst snd] in *.
  all: try rewrite Hget.
  all: try (destruct (present (getItem QUALITY_SETTING ls)) as [data | ] eqn:Ep;
            [ apply present_spec in Ep; destruct Ep as [Ep _];
              destruct (includes validQualities data) eqn:Ei | ]).
  all: cbn [fst snd present or_else].
  all: try exact Hget.
  all: try (now apply includes_validQualities).
  all: try (cbn; tauto).
  all: try (now left).
  all: right; now split.
Qed.

(** A stored [high] is what [loadQualitySetting] answers. *)
Lemma loadQualitySetting_valid_witness :
  fst (loadQualitySetting
         (mkLocalStorage [("qualitySetting", "high")] (fun _ _ _ => true)))
  = "high".
Proof.
  refine (proj1 (proj2 (proj2
            (loadQualitySetting_valid
               (mkLocalStorage [("qualitySetting", "high")] (fun _ _ _ => true)))))
            _ "high" _ _).
  - vm_compute. reflexivity.
  - vm_compute. reflexivity.
  - vm_compute. tauto.
Defined.

(** X16. A setting that [saveQualitySetting] reports as saved is one of the
    five, and it is what [loadQualitySetting] answers next, as long as the
    storage can still be used. *)
Theorem saveQualitySetting_roundtrip (quality : string) (ls ls' : LocalStorage)
    (Hsave : saveQualitySetting quality ls = (true, ls'))
    (Havailable : fst (isStorageAvailable ls') = true) :
  In quality validQualities
  /\ getItem QUALITY_SETTING ls' = Some quality
  /\ fst (loadQualitySetting ls') = quality.
Proof.
  unfold saveQualitySetting in Hsave.
  destruct (includes validQualities quality) eqn:Ei; cbn [negb] in Hsave;
    [ | discriminate Hsave ].
  destruct (includes_validQualities quality Ei) as [Hin Hne].
  assert (Hstored : getItem QUALITY_SETTING ls' = Some quality).
  { unfold setStorageItem in Hsave.
    destruct (isStorageAvailable ls) as [[ | ] ls1]; cbn [negb] in Hsave;
      [ | discriminate Hsave ].
    unfold setItem in Hsave.
    destruct (ls_accepts ls1 (ls_items ls1) QUALITY_SETTING quality);
      [ | discriminate Hsave ].
    injection Hsave as <-. unfold getItem. cbn [ls_items property].
    now rewrite String.eqb_refl. }
  split; [ exact Hin | ]. split; [ exact Hstored | ].
  pose proof (isStorageAvailable_getItem QUALITY_SETTING ls' ltac:(discriminate)) as Hget.
  unfold loadQualitySetting, getStorageItem.
  destruct (isStorageAvailable ls') as [[ | ] ls1]; cbn [negb fst snd] in *;
    [ | discriminate Havailable ].
  rewrite Hget, Hstored. unfold present, or_else.
  destruct quality as [ | c q]; [ now contradiction Hne | ].
  cbn [is_empty]. now rewrite Ei.
Qed.

Lemma saveQualitySetting_roundtrip_witness :
  fst (loadQualitySetting
         (snd (saveQualitySetting "high"
                 (mkLocalStorage [("qualitySetting", "low")] (fun _ _ _ => true)))))
  = "high".
Proof.
  refine (proj2 (proj2
            (saveQualitySetting_roundtrip "high"
               (mkLocalStorage [("qualitySetting", "low")] (fun _ _ _ => true))
               (snd (saveQualitySetting "high"
                       (mkLocalStorage [("qualitySetting", "low")] (fun _ _ _ => true))))
               _ _))).
  - vm_compute. reflexivity.
  - vm_compute. reflexivity.
Defined.

(* ----------------------------------------------------------------- *)
(** ** Rounding stays below a bound *)

Lemma shr_1_r (mrs : shr_record) :
  (0 <= shr_m mrs)%Z -> shr_r (shr_1 mrs) = Z.odd (shr_m mrs).
Proof.
  destruct mrs as [m r s]. cbn [shr_m]. intro Hm.
  destruct m as [ | [p | p | ] | p]; try reflexivity. lia.
Qed.

(** The round bit after [p] shifts is the bit of rank [p - 1]. *)
Lemma iter_shr_1_r (p : positive) :
  forall mrs, (0 <= shr_m mrs)%Z ->
              shr_r (iter_pos shr_1 p mrs) = Z.testbit (shr_m mrs) (Zpos p - 1).
Proof.
  assert (Hpos : forall q, (0 < 2 ^ Zpos q)%Z) by (intro q; apply Z.pow_pos_nonneg; lia).
  induction p as [p IH | p IH | ]; intros mrs Hm; cbn [iter_pos].
  - assert (H1 : (0 <= shr_m (shr_1 mrs))%Z)
      by (rewrite shr_1_m by exact Hm; apply Z.div_pos; lia).
    assert (H2 : (0 <= shr_m (iter_pos shr_1 p (shr_1 mrs)))%Z)
      by (rewrite iter_shr_1_m by exact H1; apply Z.div_pos; [ exact H1 | apply Hpos ]).
    rewrite IH by exact H2. rewrite iter_shr_1_m by exact H1.
    rewrite shr_1_m by exact Hm.
    change (shr_m mrs / 2)%Z with (shr_m mrs / 2 ^ 1)%Z.
    rewrite !Z.div_pow2_bits by lia. f_equal. lia.
  - assert (H2 : (0 <= shr_m (iter_pos shr_1 p mrs))%Z)
      by (rewrite iter_shr_1_m by exact Hm; apply Z.div_pos; [ exact Hm | apply Hpos ]).
    rewrite IH by exact H2. rewrite iter_shr_1_m by exact Hm.
    rewrite Z.div_pow2_bits by lia. f_equal. lia.
  - rewrite shr_1_r by exact Hm. symmetry. apply Z.bit0_odd.
Qed.

Lemma testbit_mod_ge (P n : Z) :
  (0 < n)%Z -> Z.testbit P (n - 1) = true -> (2 ^ (n - 1) <= P mod 2 ^ n)%Z.
Proof.
  intros Hn Hb. apply Z.testbit_true in Hb; [ | lia ].
  assert (Hp : (0 < 2 ^ (n - 1))%Z) by (apply Z.pow_pos_nonneg; lia).
  assert (H2 : (2 ^ n = 2 ^ (n - 1) * 2)%Z).
  { replace n with (Z.succ (n - 1)) at 1 by lia.
    rewrite Z.pow_succ_r by lia. lia. }
  rewrite H2, Z.rem_mul_r by lia. rewrite Hb.
  pose proof (Z.mod_pos_bound P (2 ^ (n - 1)) Hp). lia.
Qed.

(** Rounding to nearest after [p] shifts adds at most half of what the
    shifts are worth. *)
Lemma round_nearest_even_shifted (P : Z) (p : positive) :
  (0 <= P)%Z ->
  let mrs := iter_pos shr_1 p (shr_record_of_loc P loc_Exact) in
  let m1 := round_nearest_even (shr_m mrs) (loc_of_shr_record mrs) in
  (0 <= m1)%Z /\ (2 * (m1 * 2 ^ Zpos p) <= 2 * P + 2 ^ Zpos p)%Z.
Proof.
  intros HP mrs m1.
  assert (Hpow : (0 < 2 ^ Zpos p)%Z) by (apply Z.pow_pos_nonneg; lia).
  assert (Hq : shr_m mrs = (P / 2 ^ Zpos p)%Z).
  { subst mrs. rewrite iter_shr_1_m by (cbn; exact HP). reflexivity. }
  assert (Hr : shr_r mrs = Z.testbit P (Zpos p - 1)).
  { subst mrs. rewrite iter_shr_1_r by (cbn; exact HP). reflexivity. }
  assert (Hq0 : (0 <= P / 2 ^ Zpos p)%Z) by (apply Z.div_pos; lia).
  pose proof (Z.mul_div_le P (2 ^ Zpos p) Hpow) as Hle.
  assert (Hcases : m1 = shr_m mrs \/ (m1 = (shr_m mrs + 1)%Z /\ shr_r mrs = true)).
  { subst m1. destruct mrs as [q r s]. cbn [shr_m shr_r loc_of_shr_record].
    destruct r, s; cbn [loc_of_shr_record round_nearest_even]; auto.
    destruct (Z.even q); auto. }
  destruct Hcases as [-> | [-> Hup]]; rewrite Hq.
  - split; [ exact Hq0 | lia ].
  - split; [ lia | ].
    rewrite Hr in Hup. apply testbit_mod_ge in Hup; [ | lia ].
    pose proof (Z.div_mod P (2 ^ Zpos p) ltac:(lia)) as Hdm.
    assert (H2 : (2 * 2 ^ (Zpos p - 1) = 2 ^ Zpos p)%Z)
      by (rewrite <- Z.pow_succ_r by lia; f_equal; lia).
    lia.
Qed.

(** A truncation step moves the exponent up and does not make the value
    larger. *)
Lemma shr_fexp_le (m e : Z) (l : location) :
  (0 <= m)%Z ->
  let r := shr_fexp prec emax m e l in
  (e <= snd r)%Z /\ (0 <= shr_m (fst r))%Z /\
  (shr_m (fst r) * 2 ^ (snd r - e) <= m)%Z.
Proof.
  intros Hm r. subst r. unfold shr_fexp, shr.
  destruct (fexp prec emax (Zdigits2 m + e) - e)%Z as [ | p | p];
    cbn [fst snd]; rewrite ?shr_record_of_loc_m.
  - replace (e - e)%Z with 0%Z by lia. change (2 ^ 0)%Z with 1%Z. lia.
  - rewrite iter_shr_1_m by (rewrite shr_record_of_loc_m; exact Hm).
    rewrite shr_record_of_loc_m.
    assert (Hpow : (0 < 2 ^ Zpos p)%Z) by (apply Z.pow_pos_nonneg; lia).
    replace (e + Zpos p - e)%Z with (Zpos p) by lia.
    pose proof (Z.mul_div_le m (2 ^ Zpos p) Hpow).
    split; [ lia | ]. split; [ apply Z.div_pos; lia | lia ].
  - replace (e - e)%Z with 0%Z by lia. change (2 ^ 0)%Z with 1%Z. lia.
Qed.

(** The rounding of [P * 2^E] stays below [T * 2^E] when [P] is below [T]
    by at least [T / 2^53], and [T * 2^E] is at least 1 and within the
    range of binary64. *)
Lemma binary_round_aux_below (P : positive) (E T : Z) :
  (E <= 0)%Z ->
  (Zpos P < T)%Z ->
  (T <= 2 ^ 53 * (T - Zpos P))%Z ->
  (2 ^ (- E) <= T)%Z ->
  (T <= 2 ^ (972 - E))%Z ->
  binary_round_aux prec emax false (Zpos P) E loc_Exact = S754_zero false
  \/ exists m e,
       binary_round_aux prec emax false (Zpos P) E loc_Exact = S754_finite false m e
       /\ (E <= e)%Z /\ (Zpos m * 2 ^ (e - E) < T)%Z.
Proof.
  intros HE HPT Hgap Hone Hmax.
  unfold binary_round_aux.
  (* the first truncation and the rounding *)
  assert (H1 : exists m1 e1,
             (let '(mrs', e') := shr_fexp prec emax (Zpos P) E loc_Exact in
              (round_nearest_even (shr_m mrs') (loc_of_shr_record mrs'), e'))
             = (m1, e1)
             /\ (E <= e1)%Z /\ (0 <= m1)%Z /\ (m1 * 2 ^ (e1 - E) < T)%Z).
  { unfold shr_fexp, shr. cbn [Zdigits2].
    pose proof (digits2_pos_bounds P) as [Hlo Hhi].
    set (d := Zpos (digits2_pos P)) in *.
    assert (Hn : (fexp prec emax (d + E) - E = Z.max (d + E - 53) (-1074) - E)%Z)
      by reflexivity.
    destruct (fexp prec emax (d + E) - E)%Z as [ | p | p] eqn:En.
    - eexists _, _. split; [ reflexivity | ]. cbn [shr_m shr_record_of_loc
        loc_of_shr_record round_nearest_even].
      replace (E - E)%Z with 0%Z by lia. change (2 ^ 0)%Z with 1%Z. lia.
    - eexists _, _. split; [ reflexivity | ].
      destruct (round_nearest_even_shifted (Zpos P) p ltac:(lia)) as [Hm0 Hm1].
      cbv zeta in Hm0, Hm1.
      replace (E + Zpos p - E)%Z with (Zpos p) by lia.
      split; [ lia | ]. split; [ exact Hm0 | ].
      assert (Hbig : (2 ^ (Zpos p + 52) < T)%Z).
      { destruct (Z.max_spec (d + E - 53) (-1074)) as [[_ Hmx] | [_ Hmx]];
          rewrite Hmx in Hn.
        - (* below the least exponent *)
          apply Z.lt_le_trans with (2 := Hone).
          apply Z.pow_lt_mono_r; lia.
        - apply Z.le_lt_trans with (2 := HPT).
          apply Z.le_trans with (2 := Hlo).
          apply Z.pow_le_mono_r; lia. }
      assert (Hp52 : (2 ^ (Zpos p + 52) = 2 ^ 53 * 2 ^ (Zpos p - 1))%Z)
        by (rewrite <- Z.pow_add_r by lia; f_equal; lia).
      assert (Hp1 : (2 * 2 ^ (Zpos p - 1) = 2 ^ Zpos p)%Z)
        by (rewrite <- Z.pow_succ_r by lia; f_equal; lia).
      assert (H53 : (0 < 2 ^ 53)%Z) by reflexivity.
      assert (Hhalf : (2 ^ (Zpos p - 1) < T - Zpos P)%Z) by nia.
      lia.
    - eexists _, _. split; [ reflexivity | ]. cbn [shr_m shr_record_of_loc
        loc_of_shr_record round_nearest_even].
      replace (E - E)%Z with 0%Z by lia. change (2 ^ 0)%Z with 1%Z. lia. }
  destruct H1 as (m1 & e1 & Hfirst & He1 & Hm0 & Hm1).
  destruct (shr_fexp prec emax (Zpos P) E loc_Exact) as [mrs' e'].
  injection Hfirst as <- <-.
  (* the second truncation *)
  pose proof (shr_fexp_le (round_nearest_even (shr_m mrs') (loc_of_shr_record mrs'))
                e' loc_Exact Hm0) as (He2 & Hm2 & Hle2).
  destruct (shr_fexp prec emax _ e' loc_Exact) as [mrs'' e'']. cbn [fst snd] in *.
  assert (Hval : (shr_m mrs'' * 2 ^ (e'' - E) < T)%Z).
  { replace (e'' - E)%Z with ((e'' - e') + (e' - E))%Z by lia.
    rewrite Z.pow_add_r by lia.
    assert (0 < 2 ^ (e' - E))%Z by (apply Z.pow_pos_nonneg; lia).
    assert (0 <= 2 ^ (e'' - e'))%Z by (apply Z.pow_nonneg; lia).
    nia. }
  destruct (shr_m mrs'') as [ | m | m]; [ now left | | lia ].
  right. destruct (Z.leb_spec e'' (emax - prec)) as [Hin | Hout].
  - exists m, e''. split; [ reflexivity | ]. split; [ lia | exact Hval ].
  - exfalso. unfold emax, prec in Hout.
    assert (2 ^ (972 - E) <= 2 ^ (e'' - E))%Z by (apply Z.pow_le_mono_r; lia).
    assert (0 < 2 ^ (e'' - E))%Z by (apply Z.pow_pos_nonneg; lia).
    nia.
Qed.

(* ----------------------------------------------------------------- *)
(** ** The shuffle *)

(** The Number value of a positive integer below [2^53], as mantissa and
    exponent. *)
Lemma of_Z_finite (k : Z) :
  (0 < k < 2 ^ 53)%Z ->
  exists mk ek,
    of_Z k = S754_finite false mk ek /\ (-52 <= ek <= 0)%Z /\
    Zpos mk = (k * 2 ^ (- ek))%Z.
Proof.
  intros [Hk0 Hk]. destruct k as [ | m | m]; try lia.
  unfold of_Z. cbn [binary_normalize]. unfold binary_round.
  pose proof (digits2_pos_bounds m) as [Hlo Hhi].
  set (d := Zpos (digits2_pos m)) in *.
  assert (Hd : (1 <= d <= 53)%Z).
  { split; [ subst d; lia | ].
    destruct (Z.le_gt_cases d 53) as [ | Hgt]; [ assumption | ].
    assert (2 ^ 53 <= 2 ^ (d - 1))%Z by (apply Z.pow_le_mono_r; lia). lia. }
  replace (fexp prec emax (d + 0)) with (d - 53)%Z
    by (unfold fexp, emin, prec, emax; lia).
  destruct (shl_align_value m 0 (d - 53) ltac:(lia)) as [Hmz Hez].
  destruct (shl_align m 0 (d - 53)) as [mz ez]. cbn [fst snd] in *. subst ez.
  replace (0 - (d - 53))%Z with (53 - d)%Z in Hmz by lia.
  assert (Hpow : (0 < 2 ^ (53 - d))%Z) by (apply Z.pow_pos_nonneg; lia).
  assert (Hdz : Zpos (digits2_pos mz) = 53%Z).
  { apply digits2_pos_unique; [ | lia ]. rewrite Hmz.
    replace (2 ^ (53 - 1))%Z with (2 ^ (d - 1) * 2 ^ (53 - d))%Z
      by (rewrite <- Z.pow_add_r by lia; f_equal; lia).
    replace (2 ^ 53)%Z with (2 ^ d * 2 ^ (53 - d))%Z
      by (rewrite <- Z.pow_add_r by lia; f_equal; lia).
    nia. }
  rewrite (binary_round_aux_exact false mz (d - 53) Hdz ltac:(lia)).
  exists mz, (d - 53)%Z. split; [ reflexivity | ]. split; [ lia | ].
  rewrite Hmz. f_equal. f_equal. lia.
Qed.

(** [Math.floor(r * k)] is an integer from 0 to [k - 1] for every draw [r]
    and every positive integer [k] below [2^53]: the product is rounded,
    and the rounding does not reach [k]. *)
Lemma Math_floor_random (r : number) (k : Z) :
  in_unit_interval r -> (0 < k < 2 ^ 53)%Z ->
  exists j, to_integer (Math_floor (Number_mul r (of_Z k))) = Some j /\ (0 <= j < k)%Z.
Proof.
  intros Hr Hk. destruct (of_Z_finite k Hk) as (mk & ek & -> & Hek & Hmk).
  destruct Hr as [-> | (m & e & -> & Hm & Hlt)].
  { exists 0%Z. split; [ reflexivity | lia ]. }
  assert (He : (e < 0)%Z).
  { destruct (Z.lt_ge_cases e 0) as [ | Hge]; [ assumption | exfalso ].
    destruct (Z.eq_dec e 0) as [-> | Hne]; [ cbn in Hlt; lia | ].
    rewrite Z.pow_neg_r in Hlt by lia. lia. }
  unfold Number_mul. cbn [SFmul xorb].
  assert (Hpe : (0 < 2 ^ (- e))%Z) by (apply Z.pow_pos_nonneg; lia).
  assert (Hpk : (0 < 2 ^ (- ek))%Z) by (apply Z.pow_pos_nonneg; lia).
  assert (HpE : (2 ^ (- (e + ek)) = 2 ^ (- e) * 2 ^ (- ek))%Z)
    by (rewrite <- Z.pow_add_r by lia; f_equal; lia).
  assert (Hgap : (2 ^ (- e) <= 2 ^ 53 * (2 ^ (- e) - Zpos m))%Z).
  { destruct (Z.le_gt_cases (- e) 53) as [Hs | Hl].
    - assert (2 ^ (- e) <= 2 ^ 53)%Z by (apply Z.pow_le_mono_r; lia). nia.
    - assert (2 ^ 54 <= 2 ^ (- e))%Z by (apply Z.pow_le_mono_r; lia).
      change (2 ^ 54)%Z with (2 * 2 ^ 53)%Z in *. nia. }
  destruct (binary_round_aux_below (m * mk) (e + ek) (2 ^ (- e) * Zpos mk))
    as [Hz | (m2 & e2 & Hf & He2 & Hval)].
  - lia.
  - rewrite Pos2Z.inj_mul. nia.
  - rewrite Pos2Z.inj_mul. nia.
  - rewrite HpE, Hmk. nia.
  - replace (972 - (e + ek))%Z with ((- e) + (972 - ek))%Z by lia.
    rewrite Z.pow_add_r by lia.
    assert (Zpos mk <= 2 ^ (972 - ek))%Z.
    { rewrite Hmk. replace (972 - ek)%Z with (972 + - ek)%Z by lia.
      rewrite Z.pow_add_r by lia.
      assert (2 ^ 53 <= 2 ^ 972)%Z by (apply Z.pow_le_mono_r; lia). nia. }
    nia.
  - rewrite Hz. exists 0%Z. split; [ reflexivity | lia ].
  - rewrite Hf.
    (* the value of the product is below k *)
    assert (Hk2 : (2 ^ (- e) * Zpos mk = k * 2 ^ (- (e + ek)))%Z)
      by (rewrite HpE, Hmk; lia).
    rewrite Hk2 in Hval. clear Hf.
    unfold Math_floor. destruct (Z.leb_spec 0 e2) as [Hpos | Hneg].
    + cbn [to_integer]. destruct (Z.leb_spec 0 e2) as [_ | ]; [ | lia ].
      cbn [cond_Zopp]. exists (Zpos m2 * 2 ^ e2)%Z. split; [ reflexivity | ].
      assert (0 < 2 ^ e2)%Z by (apply Z.pow_pos_nonneg; lia).
      assert (0 < 2 ^ (- (e + ek)))%Z by (apply Z.pow_pos_nonneg; lia).
      replace (e2 - (e + ek))%Z with (e2 + - (e + ek))%Z in Hval by lia.
      rewrite Z.pow_add_r in Hval by lia.
      split; [ lia | nia ].
    + cbn [cond_Zopp].
      assert (Hp2 : (0 < 2 ^ (- e2))%Z) by (apply Z.pow_pos_nonneg; lia).
      assert (Hq : (0 <= Zpos m2 / 2 ^ (- e2) < k)%Z).
      { split; [ apply Z.div_pos; lia | ].
        apply Z.div_lt_upper_bound; [ exact Hp2 | ].
        assert (Hsplit : (2 ^ (- (e + ek)) = 2 ^ (e2 - (e + ek)) * 2 ^ (- e2))%Z)
          by (rewrite <- Z.pow_add_r by lia; f_equal; lia).
        assert (0 < 2 ^ (e2 - (e + ek)))%Z by (apply Z.pow_pos_nonneg; lia).
        rewrite Hsplit in Hval. nia. }
      exists (Zpos m2 / 2 ^ (- e2))%Z. split; [ | exact Hq ].
      change (binary_normalize prec emax (Zpos m2 / 2 ^ (- e2)) 0 false)
        with (of_Z (Zpos m2 / 2 ^ (- e2))).
      apply of_Z_exact. lia.
Qed.

Lemma random_index_in_range (r : number) (i : nat) :
  in_unit_interval r -> (Z.of_nat i + 1 < 2 ^ 53)%Z ->
  exists j, random_index r i = Some j /\ j <= i.
Proof.
  intros Hr Hi. unfold random_index.
  destruct (Math_floor_random r (Z.of_nat i + 1) Hr ltac:(lia)) as (j & -> & Hj).
  destruct (Z.leb_spec 0 j) as [_ | ]; [ | lia ].
  destruct (Z.leb_spec j (Z.of_nat i)) as [_ | ]; [ | lia ].
  exists (Z.to_nat j). split; [ reflexivity | lia ].
Qed.

Lemma Array_set_length {A : Type} (xs : list A) :
  forall i x, length (Array_set xs i x) = length xs.
Proof.
  induction xs as [ | y xs IH]; intros [ | i] x; cbn [Array_set length];
    try reflexivity. now rewrite IH.
Qed.

Lemma Array_set_nth_same {A : Type} (xs : list A) :
  forall i x, i < length xs -> nth_error (Array_set xs i x) i = Some x.
Proof.
  induction xs as [ | y xs IH]; intros [ | i] x Hi; cbn [length] in Hi; try lia.
  - reflexivity.
  - cbn [Array_set nth_error]. apply IH. lia.
Qed.

Lemma Array_set_nth_other {A : Type} (xs : list A) :
  forall i j x, i <> j -> nth_error (Array_set xs i x) j = nth_error xs j.
Proof.
  induction xs as [ | y xs IH]; intros [ | i] [ | j] x Hij; cbn [Array_set nth_error];
    try reflexivity; try lia. apply IH. lia.
Qed.

(** Writing [x] where [a] was: the elements are those of the array, with
    [x] for [a]. *)
Lemma Array_set_perm {A : Type} (xs : list A) :
  forall i a x,
    nth_error xs i = Some a -> Permutation (x :: xs) (a :: Array_set xs i x).
Proof.
  induction xs as [ | y xs IH]; intros [ | i] a x Hn; cbn [nth_error] in Hn;
    try discriminate Hn.
  - injection Hn as <-. cbn [Array_set]. apply perm_swap.
  - cbn [Array_set].
    apply perm_trans with (y :: x :: xs); [ apply perm_swap | ].
    apply perm_trans with (y :: a :: Array_set xs i x);
      [ apply perm_skip, IH, Hn | apply perm_swap ].
Qed.

Lemma swap_perm {A : Type} (xs : list A) (i j : nat) :
  i < length xs -> j < length xs ->
  exists out, swap xs i j = Some out /\ Permutation xs out /\ length out = length xs.
Proof.
  intros Hi Hj. unfold swap.
  destruct (nth_error xs i) as [a | ] eqn:Ea;
    [ | apply nth_error_None in Ea; lia ].
  destruct (nth_error xs j) as [b | ] eqn:Eb;
    [ | apply nth_error_None in Eb; lia ].
  eexists. split; [ reflexivity | ]. split; [ | now rewrite !Array_set_length ].
  assert (Hb : nth_error (Array_set xs i b) j = Some b).
  { destruct (Nat.eq_dec i j) as [<- | Hne].
    - now apply Array_set_nth_same.
    - now rewrite Array_set_nth_other. }
  apply (Permutation_cons_inv (a := b)).
  apply perm_trans with (a :: Array_set xs i b).
  - now apply Array_set_perm.
  - now apply Array_set_perm.
Qed.

Lemma shuffle_from_perm {A : Type} (i : nat) :
  forall (shuffled : list A) (draws : list number),
    i < length shuffled \/ i = 0 ->
    i <= length draws ->
    Forall in_unit_interval draws ->
    (Z.of_nat (length shuffled) < 2 ^ 53)%Z ->
    exists out, shuffle_from i shuffled draws = Some out /\ Permutation shuffled out.
Proof.
  induction i as [ | i IH]; intros shuffled draws Hi Hd Hu Hlen.
  - exists shuffled. split; [ reflexivity | apply Permutation_refl ].
  - destruct Hi as [Hi | Hi]; [ | discriminate Hi ].
    destruct draws as [ | r draws]; [ cbn in Hd; lia | ].
    inversion Hu as [ | ? ? Hr Hu']; subst.
    cbn [shuffle_from].
    destruct (random_index_in_range r (S i) Hr ltac:(lia)) as (j & -> & Hj).
    destruct (swap_perm shuffled (S i) j Hi ltac:(lia)) as (s' & -> & Hp & Hl).
    destruct (IH s' draws ltac:(lia) ltac:(cbn in Hd; lia) Hu' ltac:(lia))
      as (out & Hout & Hp').
    exists out. split; [ exact Hout | ]. now apply perm_trans with s'.
Qed.

(** X17. [shuffleArray] returns a permutation of its argument, whatever
    [Math.random()] gives: with draws that are numbers from 0 to below 1,
    one for each step, every index that the loop computes is inside the
    array. (An array has less than [2^32] elements.) *)
Theorem shuffleArray_permutation {A : Type} (array : list A) (draws : list number)
    (Hdraws : Forall in_unit_interval draws)
    (Henough : length array - 1 <= length draws)
    (Hlength : (Z.of_nat (length array) < 2 ^ 32)%Z) :
  exists shuffled,
    shuffleArray draws array = Some shuffled
    /\ Permutation array shuffled
    /\ length shuffled = length array.
Proof.
  unfold shuffleArray.
  destruct (shuffle_from_perm (length array - 1) array draws) as (out & Hout & Hp).
  - destruct array; cbn [length]; lia.
  - exact Henough.
  - exact Hdraws.
  - assert (2 ^ 32 < 2 ^ 53)%Z by reflexivity. lia.
  - exists out. split; [ exact Hout | ]. split; [ exact Hp | ].
    symmetry. now apply Permutation_length.
Qed.

Lemma shuffleArray_permutation_witness :
  exists shuffled,
    shuffleArray [Number_div (of_Z 1) (of_Z 2); pos_zero] ["a"; "b"; "c"] = Some shuffled
    /\ Permutation ["a"; "b"; "c"] shuffled.
Proof.
  destruct (shuffleArray_permutation ["a"; "b"; "c"]
              [Number_div (of_Z 1) (of_Z 2); pos_zero])
    as (shuffled & Hs & Hp & _).
  - constructor; [ | constructor; [ now left | constructor ] ].
    right. exists 4503599627370496%positive, (-53)%Z.
    split; [ vm_compute; reflexivity | split; reflexivity ].
  - cbn. lia.
  - reflexivity.
  - exists shuffled. split; [ exact Hs | exact Hp ].
Defined.

(* ----------------------------------------------------------------- *)
(** ** From the best lyrics to the parsed lines *)

(** The match that [search] finds starts at the leftmost place where the
    pattern matches. *)
Lemma search_is_leftmost (ic : bool) (r : regex) :
  forall s i m,
    search ic r s i = Some m ->
    forall pre t post,
      s = (pre ++ t ++ post)%string -> matches ic r t ->
      m_index m <= i + String.length pre.
Proof.
  induction s as [ | c s IH]; intros i m Hs pre t post Heq Ht; cbn [search] in Hs.
  - destruct (match_here ic r "") as [[caps len] | ]; [ | discriminate Hs ].
    injection Hs as <-. cbn [m_index]. lia.
  - destruct (match_here ic r (String c s)) as [[caps len] | ] eqn:E.
    + injection Hs as <-. cbn [m_index]. lia.
    + destruct pre as [ | c' pre].
      * exfalso. cbn [append] in Heq.
        apply (match_here_complete ic r t post Ht). now rewrite <- Heq.
      * cbn [append] in Heq. injection Heq as _ Heq.
        specialize (IH (S i) m Hs pre t post Heq Ht). cbn [String.length]. lia.
Qed.

(** Where [search] finds a match, the scan finds one. *)
Lemma scan_matches_complete (ic : bool) (r : regex) :
  forall s i, search ic r s i <> None -> scan_matches ic r s i 0 <> [].
Proof.
  induction s as [ | c s IH]; intros i Hs; cbn [search] in Hs; cbn [scan_matches].
  - destruct (match_here ic r "") as [[caps len] | ];
      [ discriminate | now contradiction Hs ].
  - destruct (match_here ic r (String c s)) as [[caps len] | ]; [ discriminate | ].
    now apply IH.
Qed.

Lemma drop_append (n : nat) (a b : string) :
  n <= String.length a -> drop n (a ++ b) = (drop n a ++ b)%string.
Proof.
  revert a. induction n as [ | n IH]; intros a Hn; [ reflexivity | ].
  destruct a as [ | c a]; [ cbn in Hn; lia | ].
  cbn [append drop]. apply IH. cbn in Hn. lia.
Qed.

(** [matchAll] from [lastIndex] finds nothing exactly when no timestamp of
    the line starts at [lastIndex] or after it. *)
Lemma String_matchAll_none_iff (line : string) (n : nat) :
  String_matchAll LRC_TIMESTAMP_REGEX line n = [] <-> timestamps_before n line.
Proof.
  unfold String_matchAll, timestamps_before.
  cbn [re_ignoreCase re_source LRC_TIMESTAMP_REGEX].
  change (Lit "[" ;; Group (Class Digit ;; Opt (Class Digit)) ;; Lit ":" ;;
          Group (Class Digit ;; Class Digit ;; Opt (Lit "." ;; Plus Digit)) ;; Lit "]")%re
    with (re_source LRC_TIMESTAMP_REGEX).
  destruct (Nat.ltb_spec (String.length line) n) as [Hlt | Hle].
  - split; [ intros _ pre t post -> _ | reflexivity ].
    rewrite length_append in Hlt. lia.
  - split.
    + intros Hnone pre t post Heq Ht.
      destruct (Nat.lt_ge_cases (String.length pre) n) as [ | Hge]; [ assumption | ].
      exfalso.
      apply (scan_matches_complete false (re_source LRC_TIMESTAMP_REGEX)
               (drop n line) n); [ | exact Hnone ].
      rewrite Heq, drop_append by exact Hge.
      apply search_complete. now apply LRC_TIMESTAMP_language.
    + intro Hbefore.
      destruct (scan_matches false (re_source LRC_TIMESTAMP_REGEX) (drop n line) n 0)
        as [ | m ms] eqn:E; [ reflexivity | exfalso ].
      assert (Hocc : occurs LRC_TIMESTAMP_REGEX (drop n line)).
      { apply (scan_matches_sound LRC_TIMESTAMP_REGEX (drop n line) n 0).
        cbn [re_ignoreCase re_source LRC_TIMESTAMP_REGEX] in *.
        rewrite E. discriminate. }
      destruct Hocc as (pre & t & post & Hd & Ht).
      destruct (drop_suffix n line Hle) as (p & Hp & Hlen).
      apply LRC_TIMESTAMP_language in Ht.
      assert (Hline : line = ((p ++ pre) ++ t ++ post)%string)
        by (rewrite append_assoc, <- Hd; exact Hp).
      specialize (Hbefore _ _ _ Hline Ht).
      rewrite length_append in Hbefore. lia.
Qed.

(** A line whose timestamps all start before [lastIndex] gives no entry,
    and [lastIndex] stays where it is. *)
Lemma parse_line_late (st : RegExpState) (acc : list LyricsLine) (line : string) :
  timestamps_before (lrc_lastIndex st) line ->
  parse_line (st, acc) line = (mkState (lrc_lastIndex st) 0, acc).
Proof.
  intro Hb. apply String_matchAll_none_iff in Hb.
  unfold parse_line. cbn [String_replace_empty lrc_lastIndex meta_lastIndex].
  destruct (is_empty _); [ reflexivity | ]. now rewrite Hb.
Qed.

Lemma fold_parse_line_late (lines : list string) :
  forall st acc,
    (forall line, In line lines -> timestamps_before (lrc_lastIndex st) line) ->
    snd (fold_left parse_line lines (st, acc)) = acc.
Proof.
  induction lines as [ | line lines IH]; intros st acc Hall; [ reflexivity | ].
  cbn [fold_left]. rewrite parse_line_late by (apply Hall; now left).
  apply IH. cbn [lrc_lastIndex]. intros l Hl. apply Hall. now right.
Qed.

Lemma length_drop (n : nat) (s : string) :
  String.length (drop n s) = String.length s - n.
Proof.
  revert s. induction n as [ | n IH]; intros [ | c s]; cbn [drop String.length];
    try lia.
  rewrite IH. lia.
Qed.

(** [LRC_TIMESTAMP_REGEX.test(s)] from any [lastIndex]: it fails, and sets
    [lastIndex] to 0, when no timestamp of [s] starts at [lastIndex] or
    after it; else it finds the leftmost of those that do and leaves
    [lastIndex] at its end. *)
Lemma LRC_TIMESTAMP_test_from (s : string) (lastIndex : nat) :
  (timestamps_before lastIndex s
   /\ RegExp_test LRC_TIMESTAMP_REGEX s lastIndex = (false, 0))
  \/
  (exists pre t post,
     s = (pre ++ t ++ post)%string /\ is_timestamp_tag t
     /\ lastIndex <= String.length pre
     /\ (forall pre2 t2 post2,
           s = (pre2 ++ t2 ++ post2)%string -> is_timestamp_tag t2 ->
           lastIndex <= String.length pre2 ->
           String.length pre <= String.length pre2)
     /\ RegExp_test LRC_TIMESTAMP_REGEX s lastIndex
        = (true, String.length pre + String.length t)).
Proof.
  unfold RegExp_test, RegExp_exec.
  cbn [re_global LRC_TIMESTAMP_REGEX re_ignoreCase re_source].
  change (Lit "[" ;; Group (Class Digit ;; Opt (Class Digit)) ;; Lit ":" ;;
          Group (Class Digit ;; Class Digit ;; Opt (Lit "." ;; Plus Digit)) ;; Lit "]")%re
    with (re_source LRC_TIMESTAMP_REGEX).
  destruct (Nat.ltb_spec (String.length s) lastIndex) as [Hlt | Hle].
  { left. split; [ | reflexivity ].
    intros pre t post -> _. rewrite length_append in Hlt. lia. }
  destruct (drop_suffix lastIndex s Hle) as (p & Hp & Hlen).
  destruct (search false (re_source LRC_TIMESTAMP_REGEX) (drop lastIndex s) lastIndex)
    as [m | ] eqn:Es.
  - right.
    pose proof (search_is_leftmost _ _ _ _ _ Es) as Hleft.
    destruct (search_sound _ _ _ _ _ Es) as (pre & t & post & Heq & Ht & Hi & He).
    exists (p ++ pre)%string, t, post.
    split; [ rewrite append_assoc, <- Heq; exact Hp | ].
    split; [ now apply LRC_TIMESTAMP_language | ].
    rewrite length_append, Hlen.
    split; [ lia | ]. split.
    + intros pre2 t2 post2 H2 Ht2 Hge. apply LRC_TIMESTAMP_language in Ht2.
      assert (Hd : drop lastIndex s = (drop lastIndex pre2 ++ t2 ++ post2)%string)
        by (rewrite H2; now apply drop_append).
      specialize (Hleft _ _ _ Hd Ht2). rewrite length_drop in Hleft. lia.
    + f_equal. lia.
  - left. split; [ | reflexivity ].
    intros pre t post Heq Ht.
    destruct (Nat.lt_ge_cases (String.length pre) lastIndex) as [ | Hge];
      [ assumption | exfalso ].
    apply LRC_TIMESTAMP_language in Ht.
    apply (search_complete false (re_source LRC_TIMESTAMP_REGEX)
             (drop lastIndex pre) t post Ht lastIndex).
    rewrite <- drop_append by exact Hge. now rewrite <- Heq.
Qed.

(** X18. The path of [fetchAndDisplayLyrics]: [getBestLyrics], then
    [parseLrcLyrics] on the content, from whatever [lastIndex] the earlier
    calls left. When [syncedLyrics] and [lrc] are missing, the text of
    [data.lyrics] is taken for synced exactly when one of its timestamps
    starts at that [lastIndex] or after it; if none does, the answer is not
    synced and [lastIndex] is back at 0. When the text is taken for synced,
    the test of [getBestLyrics] leaves [lastIndex] at the end of the
    leftmost timestamp that starts at the old [lastIndex] or after it
    (from 0: the leftmost timestamp of the text), and [parseLrcLyrics]
    starts every line from there: when no line has a timestamp that starts
    at that index or after it, as in a text whose lines all begin with
    their only timestamp, not one line is parsed. *)
Theorem getBestLyrics_then_parseLrcLyrics (st : RegExpState) (data : LyricsData)
    (s : string)
    (Hsynced : present (syncedLyrics data) = None)
    (Hlrc : present (lrc data) = None)
    (Hlyrics : present (lyrics data) = Some s) :
  let best := fst (getBestLyrics st (Some data)) in
  let st' := snd (getBestLyrics st (Some data)) in
  (timestamps_before (lrc_lastIndex st) s ->
   type best <> L_synced /\ lrc_lastIndex st' = 0)
  /\ (~ timestamps_before (lrc_lastIndex st) s ->
      best = mkBestLyrics L_synced s
      /\ exists pre t post,
           s = (pre ++ t ++ post)%string /\ is_timestamp_tag t
           /\ lrc_lastIndex st <= String.length pre
           /\ (forall pre2 t2 post2,
                 s = (pre2 ++ t2 ++ post2)%string -> is_timestamp_tag t2 ->
                 lrc_lastIndex st <= String.length pre2 ->
                 String.length pre <= String.length pre2)
           /\ lrc_lastIndex st' = String.length pre + String.length t
           /\ ((forall line, In line (split_lines s) ->
                  timestamps_before (String.length pre + String.length t) line) ->
               fst (parseLrcLyrics st' s) = [])).
Proof.
  cbv zeta. unfold getBestLyrics. rewrite Hsynced, Hlrc, Hlyrics.
  apply present_spec in Hlyrics. destruct Hlyrics as [_ Hne].
  unfold isLrcFormat. destruct s as [ | c s]; [ now contradiction Hne | ].
  cbn [is_empty].
  destruct (LRC_TIMESTAMP_test_from (String c s) (lrc_lastIndex st))
    as [[Hbefore ->] | (pre & t & post & Heq & Ht & Hge & Hleft & ->)].
  - split; [ | intro Hno; now contradiction Hno ].
    intros _.
    destruct (present (plainLyrics data)); cbn [fst snd type lrc_lastIndex];
      split; [ discriminate | reflexivity | discriminate | reflexivity ].
  - cbn [fst snd lrc_lastIndex]. split.
    { intro Hbefore. specialize (Hbefore pre t post Heq Ht). lia. }
    intros _. split; [ reflexivity | ].
    exists pre, t, post.
    split; [ exact Heq | ]. split; [ exact Ht | ]. split; [ exact Hge | ].
    split; [ exact Hleft | ]. split; [ reflexivity | ].
    intro Hall. unfold parseLrcLyrics. cbn [is_empty].
    pose proof (fold_parse_line_late (split_lines (String c s))
                  (mkState (String.length pre + String.length t) (meta_lastIndex st)) [])
      as Hfold.
    cbn [lrc_lastIndex] in Hfold. specialize (Hfold Hall).
    destruct (fold_left parse_line _ _) as [st2 parsed]. cbn [fst snd] in *.
    now rewrite Hfold.
Qed.

Lemma getBestLyrics_then_parseLrcLyrics_witness :
  fst (parseLrcLyrics
         (snd (getBestLyrics initial_state
                 (Some (mkLyricsData None None None
                          (Some ("[00:01.00]Hello" ++ String LF "[00:05.00]World")%string)))))
         ("[00:01.00]Hello" ++ String LF "[00:05.00]World")%string)
  = [].
Proof.
  destruct (getBestLyrics_then_parseLrcLyrics initial_state
              (mkLyricsData None None None
                 (Some ("[00:01.00]Hello" ++ String LF "[00:05.00]World")%string))
              ("[00:01.00]Hello" ++ String LF "[00:05.00]World")%string
              eq_refl eq_refl eq_refl)
    as (_ & Hfound).
  destruct Hfound as (Hbest & pre & t & post & _ & _ & _ & _ & Hli & Hparse).
  - intro Hb. apply String_matchAll_none_iff in Hb. vm_compute in Hb. discriminate Hb.
  - apply Hparse.
    rewrite <- Hli. intros line Hin.
    apply String_matchAll_none_iff.
    cbn in Hin. destruct Hin as [<- | [<- | []]]; vm_compute; reflexivity.
Defined.

(** From a [lastIndex] of 10, left inside the first line by an earlier call,
    the test of [getBestLyrics] finds the timestamp of the second line and
    leaves [lastIndex] at its end, 26. *)
Example getBestLyrics_from_lastIndex_10 :
  let text := ("[00:01.00]Hello" ++ String LF "[00:05.00]World")%string in
  getBestLyrics (mkState 10 0) (Some (mkLyricsData None None None (Some text)))
  = (mkBestLyrics L_synced text, mkState 26 0).
Proof. vm_compute. reflexivity. Qed.

(* ----------------------------------------------------------------- *)
(** ** The offset keeps lines valid *)

Lemma binary_normalize_not_nan (m e : Z) (szero : bool) :
  is_nan (binary_normalize prec emax m e szero) = false.
Proof.
  destruct m as [ | p | p]; cbn [binary_normalize]; [ reflexivity | | ];
    unfold binary_round; destruct (shl_align p e _) as [mz ez];
    eapply ordinary_not_nan, binary_round_aux_ordinary; lia.
Qed.

(** A sum with a finite number is NaN only when the other operand is. *)
Lemma Number_add_not_nan (x y : number) :
  isFinite x = true -> is_nan y = false -> is_nan (Number_add x y) = false.
Proof.
  destruct x as [sx | sx | | sx mx ex]; intro Hx; try discriminate Hx;
    destruct y as [sy | sy | | sy my ey]; intro Hy; try discriminate Hy;
    unfold Number_add; cbn [SFadd]; try reflexivity.
  - now destruct sx, sy.
  - apply binary_normalize_not_nan.
Qed.

Lemma Number_div_1000_not_nan (offsetMs : number) :
  isFinite offsetMs = true -> is_nan (Number_div offsetMs (of_Z 1000)) = false.
Proof.
  intro Hf.
  destruct (of_Z_finite 1000 ltac:(split; reflexivity)) as (mk & ek & -> & _).
  destruct (Number_div_finite_ordinary offsetMs false mk ek) as [s Hs].
  - now destruct offsetMs.
  - exact (ordinary_not_nan s _ Hs).
Qed.

Lemma Math_max_zero_ge (m : number) :
  is_nan m = false -> js_ge (Math_max pos_zero m) pos_zero = true.
Proof.
  intro Hm. unfold Math_max. rewrite Hm. unfold pos_zero. cbn [is_nan orb].
  destruct (js_gt m (S754_zero false)) eqn:E; [ now apply js_gt_ge | reflexivity ].
Qed.

(** X19. [applyOffset] with a finite offset keeps lines valid: when the lines
    pass [areValidLyricsLines] and their times are finite, so do the lines
    of the new array, whatever the sign and the size of the offset. *)
Theorem applyOffset_keeps_valid (st : Store) (arr : loc) (offsetMs : number)
    (lines : list LyricsLine)
    (Hread : read_lyrics st arr = Some lines)
    (Hvalid : areValidLyricsLines lines = true)
    (Hfinite : forallb (fun line => isFinite (time line)) lines = true)
    (Hoffset : isFinite offsetMs = true) :
  exists (st' : Store) (out : loc) (lines' : list LyricsLine),
    applyOffset st arr offsetMs = Some (st', out)
    /\ read_lyrics st' out = Some lines'
    /\ length lines' = length lines
    /\ areValidLyricsLines lines' = true.
Proof.
  unfold read_lyrics in Hread.
  destruct (read_array st arr) as [elems | ] eqn:Earr; [ | discriminate ].
  set (off := Number_div offsetMs (of_Z 1000)).
  set (f := fun line => mkLine (Math_max pos_zero (Number_add (time line) off)) (text line)).
  set (st1 := st ++ map CLine (map f lines)).
  set (out1 := seq (length st) (length lines)).
  assert (Happly : applyOffset st arr offsetMs
                   = Some (st1 ++ [CArray out1], length st1)).
  { unfold applyOffset. rewrite Earr.
    destruct elems as [ | l rest].
    - injection Hread as <-. discriminate Hvalid.
    - fold off. now rewrite (map_offset_spec off _ st lines Hread). }
  exists (st1 ++ [CArray out1]), (length st1), (map f lines).
  split; [ exact Happly | ].
  split.
  { unfold read_lyrics, read_array.
    rewrite nth_error_app2, Nat.sub_diag by lia. cbn [nth_error].
    apply read_lines_extend. subst st1 out1.
    rewrite <- (length_map f lines). apply read_lines_fresh. }
  split; [ apply length_map | ].
  unfold areValidLyricsLines in *.
  destruct lines as [ | l0 rest]; [ discriminate Hvalid | ].
  assert (Hall : forallb (fun line => js_ge (time line) pos_zero) (map f (l0 :: rest))
                 = true).
  { rewrite forallb_forall in *. intros x Hx.
    apply in_map_iff in Hx. destruct Hx as [line [<- Hline]].
    subst f. cbn [time]. apply Math_max_zero_ge, Number_add_not_nan.
    - now apply Hfinite.
    - now apply Number_div_1000_not_nan. }
  exact Hall.
Qed.

Lemma applyOffset_keeps_valid_witness :
  exists st' out lines',
    applyOffset [CLine (mkLine (of_Z 2) "la"); CArray [0]] 1 (of_Z (-5000)) = Some (st', out)
    /\ read_lyrics st' out = Some lines'
    /\ areValidLyricsLines lines' = true.
Proof.
  destruct (applyOffset_keeps_valid
              [CLine (mkLine (of_Z 2) "la"); CArray [0]] 1 (of_Z (-5000))
              [mkLine (of_Z 2) "la"] eq_refl eq_refl eq_refl eq_refl)
    as (st' & out & lines' & Ha & Hr & _ & Hv).
  now exists st', out, lines'.
Defined.

(* ----------------------------------------------------------------- *)
(** ** The next and the previous song *)

Lemma shuffle_index_in_queue (r : number) (currentIndex : Z) (queue_length : nat) :
  in_unit_interval r -> 0 < queue_length -> (Z.of_nat queue_length < 2 ^ 32)%Z ->
  exists i,
    shuffle_index r currentIndex queue_length = Index i
    /\ (0 <= i < Z.of_nat queue_length)%Z
    /\ (1 < queue_length -> i <> currentIndex).
Proof.
  intros Hr Hn Hlen. unfold shuffle_index.
  assert (H53 : (2 ^ 32 < 2 ^ 53)%Z) by reflexivity.
  destruct (Math_floor_random r (Z.of_nat queue_length) Hr ltac:(lia)) as (j & -> & Hj).
  destruct (Nat.ltb_spec 1 queue_length) as [Hmany | Hone]; cbn [andb].
  - destruct (Z.eqb_spec j currentIndex) as [<- | Hne].
    + exists (Z.rem (j + 1) (Z.of_nat queue_length)). split; [ reflexivity | ].
      rewrite Z.rem_mod_nonneg by lia.
      pose proof (Z.mod_pos_bound (j + 1) (Z.of_nat queue_length) ltac:(lia)) as Hb.
      split; [ exact Hb | ]. intros _ Heq.
      destruct (Z.eq_dec (j + 1) (Z.of_nat queue_length)) as [E | N].
      * rewrite E, Z.mod_same in Heq by lia. lia.
      * rewrite Z.mod_small in Heq by lia. lia.
    + exists j. split; [ reflexivity | ]. split; [ exact Hj | now intros _ ].
  - exists j. split; [ reflexivity | ]. split; [ exact Hj | lia ].
Qed.

(** X20. With a queue that is not empty, [nextSong] and [prevSong] always call
    [playIndex] with an index of the queue, so that its guard lets the call
    through. In shuffle mode the index differs from the current one when
    the queue has more than one song; otherwise it is the next index, or
    the previous one, around the end of the queue. The current index is -1
    before the first song. *)
Theorem nextSong_index_in_queue (shuffleMode : bool) (currentIndex : Z)
    (queue_length : nat) (r : number)
    (Hr : in_unit_interval r)
    (Hqueue : 0 < queue_length)
    (Hlength : (Z.of_nat queue_length < 2 ^ 32)%Z)
    (Hcurrent : (-1 <= currentIndex < Z.of_nat queue_length)%Z) :
  exists next prev,
    nextSong_index shuffleMode currentIndex queue_length r = Index next
    /\ prevSong_index shuffleMode currentIndex queue_length r = Index prev
    /\ playIndex_returns_at_once next queue_length = false
    /\ playIndex_returns_at_once prev queue_length = false
    /\ (shuffleMode = true -> 1 < queue_length ->
        next <> currentIndex /\ prev <> currentIndex)
    /\ (shuffleMode = false ->
        next = ((currentIndex + 1) mod Z.of_nat queue_length)%Z
        /\ prev = ((currentIndex - 1) mod Z.of_nat queue_length)%Z).
Proof.
  assert (Hguard : forall i, (0 <= i < Z.of_nat queue_length)%Z ->
            playIndex_returns_at_once i queue_length = false).
  { intros i Hi. unfold playIndex_returns_at_once.
    destruct (Z.ltb_spec i 0); [ lia | ].
    destruct (Z.geb_spec i (Z.of_nat queue_length)); [ lia | reflexivity ]. }
  unfold nextSong_index, prevSong_index.
  destruct (Nat.eqb_spec queue_length 0) as [ | _]; [ lia | ].
  destruct shuffleMode.
  - destruct (shuffle_index_in_queue r currentIndex queue_length Hr Hqueue Hlength)
      as (i & -> & Hi & Hne).
    exists i, i. repeat split; auto; discriminate.
  - set (n := Z.of_nat queue_length) in *.
    assert (Hnext : Z.rem (currentIndex + 1) n = ((currentIndex + 1) mod n)%Z)
      by (apply Z.rem_mod_nonneg; lia).
    assert (Hprev : Z.rem (currentIndex - 1 + n) n = ((currentIndex - 1) mod n)%Z).
    { destruct (Z.eq_dec currentIndex (-1)) as [-> | Hc].
      - destruct (Z.eq_dec n 1) as [-> | Hn1]; [ reflexivity | ].
        rewrite Z.rem_mod_nonneg by lia.
        replace (-1 - 1 + n)%Z with (-1 - 1 + 1 * n)%Z by lia.
        now rewrite Z.mod_add by lia.
      - rewrite Z.rem_mod_nonneg by lia.
        replace (currentIndex - 1 + n)%Z with (currentIndex - 1 + 1 * n)%Z by lia.
        now rewrite Z.mod_add by lia. }
    exists ((currentIndex + 1) mod n)%Z, ((currentIndex - 1) mod n)%Z.
    rewrite Hnext, Hprev.
    pose proof (Z.mod_pos_bound (currentIndex + 1) n ltac:(lia)).
    pose proof (Z.mod_pos_bound (currentIndex - 1) n ltac:(lia)).
    repeat split; auto; discriminate.
Qed.

Lemma nextSong_index_in_queue_witness :
  exists next prev,
    nextSong_index true 1 3 (Number_div (of_Z 1) (of_Z 2)) = Index next
    /\ prevSong_index true 1 3 (Number_div (of_Z 1) (of_Z 2)) = Index prev
    /\ next <> 1%Z /\ prev <> 1%Z.
Proof.
  destruct (nextSong_index_in_queue true 1 3 (Number_div (of_Z 1) (of_Z 2)))
    as (next & prev & Hn & Hp & _ & _ & Hs & _).
  - right. exists 4503599627370496%positive, (-53)%Z.
    split; [ vm_compute; reflexivity | split; reflexivity ].
  - lia.
  - reflexivity.
  - lia.
  - exists next, prev. destruct (Hs eq_refl ltac:(lia)) as [H1 H2]. now repeat split.
Defined.

(* ----------------------------------------------------------------- *)
(** ** The window of the active line *)

(** X21. The window that [getLyricsWindow] cuts around the index that
    [findActiveLine] gives for the time [t], with a radius that is not
    negative (3 when it is left out): before the first line the window is
    empty; otherwise it holds the active line, at the position
    [min(index, radius)], and that line has started at [t]. The window never
    has more than [2 * radius + 1] lines. *)
Theorem getLyricsWindow_of_active (lines : list LyricsLine) (t : number)
    (windowSize : option Z)
    (Hradius : forall w, windowSize = Some w -> (0 <= w)%Z) :
  let i := findActiveLine lines t in
  let radius := match windowSize with Some w => w | None => 3%Z end in
  let window := getLyricsWindow lines i windowSize in
  (i = (-1)%Z -> window = [])
  /\ ((0 <= i)%Z ->
      exists active,
        nth_error lines (Z.to_nat i) = Some active
        /\ nth_error window (Z.to_nat (Z.min i radius)) = Some active
        /\ js_ge t (time active) = true)
  /\ (Z.of_nat (length window) <= 2 * radius + 1)%Z.
Proof.
  intros i radius window.
  assert (Hr : (0 <= radius)%Z).
  { subst radius. destruct windowSize as [w | ]; [ now apply Hradius | lia ]. }
  pose proof (findActiveLine_range lines t) as Hrange. fold i in Hrange.
  assert (Hwin : (0 <= i)%Z ->
            window = firstn (Z.to_nat (Z.min (Z.of_nat (length lines)) (i + radius + 1)
                                       - Z.max 0 (i - radius)))
                       (skipn (Z.to_nat (Z.max 0 (i - radius))) lines)).
  { intro Hi. subst window. unfold getLyricsWindow. fold radius.
    destruct lines as [ | l0 rest]; [ cbn [length] in Hrange; lia | ].
    destruct (Z.ltb_spec i 0) as [ | _]; [ lia | ].
    apply Array_slice_within; lia. }
  split; [ | split ].
  - intro Hi. subst window. unfold getLyricsWindow.
    destruct lines as [ | l0 rest]; [ reflexivity | ].
    rewrite Hi. reflexivity.
  - intro Hi.
    assert (Hactive : exists active,
              nth_error lines (Z.to_nat i) = Some active /\ js_ge t (time active) = true).
    { subst i. unfold findActiveLine in *.
      destruct lines as [ | l0 rest]; [ lia | ].
      destruct (findActiveLine_from_spec (l0 :: rest) t (length (l0 :: rest)) (le_n _))
        as [[E _] | (k & l & E & _ & Hk & Hle & _)]; rewrite E in *; [ lia | ].
      exists l. rewrite Nat2Z.id. split; [ exact Hk | ]. now rewrite js_ge_le. }
    destruct Hactive as (active & Hnth & Hstarted).
    exists active. split; [ exact Hnth | ]. split; [ | exact Hstarted ].
    rewrite (Hwin Hi), nth_error_firstn_skipn.
    destruct (Nat.ltb_spec (Z.to_nat (Z.min i radius))
                (Z.to_nat (Z.min (Z.of_nat (length lines)) (i + radius + 1)
                           - Z.max 0 (i - radius)))) as [_ | Hk]; [ | lia ].
    rewrite <- Hnth. f_equal. lia.
  - destruct (Z.lt_ge_cases i 0) as [Hneg | Hi].
    + assert (Hempty : window = []).
      { subst window. unfold getLyricsWindow.
        destruct lines as [ | l0 rest]; [ reflexivity | ].
        destruct (Z.ltb_spec i 0) as [_ | ]; [ reflexivity | lia ]. }
      rewrite Hempty. cbn [length]. lia.
    + rewrite (Hwin Hi), length_firstn. lia.
Qed.

Lemma getLyricsWindow_of_active_witness :
  nth_error
    (getLyricsWindow [mkLine (of_Z 1) "Hello"; mkLine (of_Z 5) "World"]
       (findActiveLine [mkLine (of_Z 1) "Hello"; mkLine (of_Z 5) "World"] (of_Z 7))
       (Some 0%Z))
    0
  = Some (mkLine (of_Z 5) "World").
Proof.
  destruct (proj1 (proj2
              (getLyricsWindow_of_active
                 [mkLine (of_Z 1) "Hello"; mkLine (of_Z 5) "World"] (of_Z 7) (Some 0%Z)
                 (fun w H => eq_ind 0%Z (fun z => (0 <= z)%Z) (Z.le_refl 0) w
                               (f_equal (fun o => match o with Some z => z | None => 0%Z end) H))))
              ltac:(vm_compute; discriminate))
    as (active & Hnth & Hwin & _).
  vm_compute in Hnth. injection Hnth as <-. exact Hwin.
Defined.

(* ----------------------------------------------------------------- *)
(** ** The seconds of a time *)

Lemma digits2_pos_shift (p : positive) (k : Z) (m : positive) :
  (0 <= k)%Z -> Zpos m = (Zpos p * 2 ^ k)%Z ->
  Zpos (digits2_pos m) = (Zpos (digits2_pos p) + k)%Z.
Proof.
  intros Hk Hm. pose proof (digits2_pos_bounds p) as [Hlo Hhi].
  assert (Hpow : (0 < 2 ^ k)%Z) by (apply Z.pow_pos_nonneg; lia).
  apply digits2_pos_unique; [ | lia ]. rewrite Hm.
  replace (Zpos (digits2_pos p) + k - 1)%Z with ((Zpos (digits2_pos p) - 1) + k)%Z by lia.
  rewrite !Z.pow_add_r by lia. nia.
Qed.

(** A mantissa of at most 53 digits is not rounded. *)
Lemma binary_round_exact (s : bool) (p : positive) (e : Z) :
  (Zpos p < 2 ^ 53)%Z -> (-1074 <= e <= 971)%Z ->
  exists m' e',
    binary_round prec emax s p e = S754_finite s m' e'
    /\ (-1074 <= e' <= e)%Z /\ Zpos m' = (Zpos p * 2 ^ (e - e'))%Z
    /\ (Zpos m' < 2 ^ 53)%Z.
Proof.
  intros Hp He. unfold binary_round.
  pose proof (digits2_pos_bounds p) as [Hlo Hhi].
  set (d := Zpos (digits2_pos p)) in *.
  assert (Hd : (1 <= d <= 53)%Z).
  { split; [ subst d; lia | ].
    destruct (Z.le_gt_cases d 53) as [ | Hgt]; [ assumption | ].
    assert (2 ^ 53 <= 2 ^ (d - 1))%Z by (apply Z.pow_le_mono_r; lia). lia. }
  set (ez := fexp prec emax (d + e)).
  assert (Hez : ez = Z.max (d + e - 53) (-1074)) by reflexivity.
  destruct (shl_align_value p e ez ltac:(lia)) as [Hmz Hsnd].
  destruct (shl_align p e ez) as [mz ez'] eqn:Esh. cbn [fst snd] in *. subst ez'.
  pose proof (digits2_pos_shift p (e - ez) mz ltac:(lia) Hmz) as Hdz. fold d in Hdz.
  assert (Hshr : shr_fexp prec emax (Zpos mz) ez loc_Exact
                 = (Build_shr_record (Zpos mz) false false, ez)).
  { unfold shr_fexp, shr. cbn [Zdigits2 shr_record_of_loc]. rewrite Hdz.
    replace (fexp prec emax (d + (e - ez) + ez) - ez)%Z with 0%Z; [ reflexivity | ].
    replace (d + (e - ez) + ez)%Z with (d + e)%Z by lia. fold ez. lia. }
  unfold binary_round_aux. rewrite Hshr.
  cbn [shr_m loc_of_shr_record round_nearest_even]. rewrite Hshr. cbn [shr_m].
  destruct (Z.leb_spec ez (emax - prec)) as [ | Hgt];
    [ | unfold emax, prec in Hgt; lia ].
  exists mz, ez. split; [ reflexivity | ]. split; [ lia | ]. split; [ exact Hmz | ].
  pose proof (digits2_pos_bounds mz) as [_ Hmz53]. rewrite Hdz in Hmz53.
  apply Z.lt_le_trans with (1 := Hmz53). apply Z.pow_le_mono_r; lia.
Qed.

(** The remainder of an integer division by [b * c], divided by [b]. *)
Lemma mod_mul_div (a b c : Z) :
  (0 < b)%Z -> (0 < c)%Z -> ((a mod (b * c)) / b = (a / b) mod c)%Z.
Proof.
  intros Hb Hc. rewrite Z.rem_mul_r by lia.
  rewrite (Z.mul_comm b), Z.div_add by lia.
  rewrite Z.div_small by (apply Z.mod_pos_bound; lia). lia.
Qed.

(** The digits of a number that is an integer of at most 53 binary digits
    and not negative. *)
Lemma Number_toString_integer (y : number) (q : Z) :
  to_integer y = Some q -> (0 <= q < 2 ^ 53)%Z ->
  Number_toString y = Some (decimal_of_Z q).
Proof.
  intros Hy Hq. unfold Number_toString.
  destruct y as [sy | sy | | sy my ey]; try discriminate Hy; rewrite Hy;
    (destruct (Z.ltb_spec (Z.abs q) (2 ^ 53)) as [_ | Hbig]; [ | lia ]);
    (destruct (Z.ltb_spec q 0) as [ | _]; [ lia | ]);
    rewrite Z.abs_eq by lia; reflexivity.
Qed.

(** [Math.floor(x % 60)] is the integer part of [x] modulo 60: the
    remainder is not rounded. *)
Lemma floor_remainder_60 (m : positive) (e : Z) :
  (Zpos m < 2 ^ 53)%Z -> (-1074 <= e <= 971)%Z ->
  Number_toString (Math_floor (Number_remainder (S754_finite false m e) (of_Z 60)))
  = Some (decimal_of_Z (integer_part (S754_finite false m e) mod 60)).
Proof.
  intros Hm He.
  change (of_Z 60) with (S754_finite false 8444249301319680 (-47)).
  cbn [Number_remainder integer_part cond_Zopp].
  set (e0 := Z.min e (-47)).
  set (N := (Zpos m * 2 ^ (e - e0))%Z).
  set (D := (8444249301319680 * 2 ^ (-47 - e0))%Z).
  assert (He0 : (-1074 <= e0 <= -47)%Z) by (subst e0; lia).
  assert (Hp0 : (0 < 2 ^ (- e0))%Z) by (apply Z.pow_pos_nonneg; lia).
  assert (HD : D = (2 ^ (- e0) * 60)%Z).
  { subst D. change 8444249301319680%Z with (60 * 2 ^ 47)%Z.
    replace (- e0)%Z with (47 + (-47 - e0))%Z by lia.
    rewrite Z.pow_add_r by lia. lia. }
  assert (HN0 : (0 < N)%Z).
  { subst N. assert (0 < 2 ^ (e - e0))%Z by (apply Z.pow_pos_nonneg; subst e0; lia). lia. }
  assert (Hrem : Z.rem N D = (N mod D)%Z) by (apply Z.rem_mod_nonneg; lia).
  rewrite Hrem.
  assert (Hr : (0 <= N mod D < D)%Z) by (apply Z.mod_pos_bound; lia).
  (* the integer part of x, and of the remainder *)
  assert (Hint : (if (0 <=? e)%Z then Zpos m * 2 ^ e else Zpos m / 2 ^ (- e))%Z
                 = (N / 2 ^ (- e0))%Z).
  { subst N. destruct (Z.leb_spec 0 e) as [Hpos | Hneg].
    - assert (E0 : e0 = (-47)%Z) by (subst e0; lia). rewrite E0.
      replace (e - -47)%Z with (e + 47)%Z by lia.
      rewrite Z.pow_add_r by lia. change (- -47)%Z with 47%Z.
      rewrite Z.mul_assoc, Z_div_mult by reflexivity. reflexivity.
    - destruct (Z.le_gt_cases e (-47)) as [Hsmall | Hlarge].
      + assert (E0 : e0 = e) by (subst e0; lia). rewrite E0.
        replace (e - e)%Z with 0%Z by lia. change (2 ^ 0)%Z with 1%Z.
        now rewrite Z.mul_1_r.
      + assert (E0 : e0 = (-47)%Z) by (subst e0; lia). rewrite E0.
        assert (H47 : (2 ^ (- -47) = 2 ^ (e - -47) * 2 ^ (- e))%Z)
          by (rewrite <- Z.pow_add_r by lia; f_equal; lia).
        rewrite H47, (Z.mul_comm (Zpos m)).
        rewrite Z.div_mul_cancel_l;
          [ reflexivity | apply Z.pow_nonzero; lia | apply Z.pow_nonzero; lia ]. }
  rewrite Hint.
  assert (Hq : ((N mod D) / 2 ^ (- e0) = (N / 2 ^ (- e0)) mod 60)%Z)
    by (rewrite HD; apply mod_mul_div; lia).
  rewrite <- Hq.
  assert (Hq60 : (0 <= (N mod D) / 2 ^ (- e0) < 60)%Z).
  { rewrite Hq. apply Z.mod_pos_bound. lia. }
  (* the remainder has at most 53 digits *)
  assert (Hr53 : (N mod D < 2 ^ 53)%Z).
  { destruct (Z.le_gt_cases e (-47)) as [Hsmall | Hlarge].
    - assert (E0 : e0 = e) by (subst e0; lia).
      assert (HNm : N = Zpos m).
      { subst N. rewrite E0. replace (e - e)%Z with 0%Z by lia.
        change (2 ^ 0)%Z with 1%Z. lia. }
      pose proof (Z.mod_le N D ltac:(lia) ltac:(lia)). lia.
    - assert (E0 : e0 = (-47)%Z) by (subst e0; lia).
      assert (D < 2 ^ 53)%Z; [ | lia ].
      rewrite HD, E0. reflexivity. }
  destruct (N mod D)%Z as [ | r | r] eqn:Er; [ | | lia ].
  - cbn [binary_normalize Math_floor Number_toString to_integer].
    rewrite Zdiv_0_l. reflexivity.
  - cbn [binary_normalize].
    destruct (binary_round_exact false r e0 Hr53 ltac:(lia))
      as (m' & e' & -> & He' & Hm' & _).
    unfold Math_floor. destruct (Z.leb_spec 0 e') as [ | _]; [ lia | ].
    cbn [cond_Zopp].
    assert (Hfloor : (Zpos m' / 2 ^ (- e') = Zpos r / 2 ^ (- e0))%Z).
    { rewrite Hm'.
      replace (- e')%Z with ((e0 - e') + (- e0))%Z by lia.
      rewrite Z.pow_add_r by lia. rewrite (Z.mul_comm (Zpos r)).
      rewrite Z.div_mul_cancel_l;
        [ reflexivity | apply Z.pow_nonzero; lia | apply Z.pow_nonzero; lia ]. }
    rewrite Hfloor.
    change (binary_normalize prec emax (Zpos r / 2 ^ (- e0)) 0 false)
      with (of_Z (Zpos r / 2 ^ (- e0))).
    set (q := (Zpos r / 2 ^ (- e0))%Z) in *.
    assert (Hto : to_integer (of_Z q) = Some q) by (apply of_Z_exact; lia).
    apply Number_toString_integer; [ exact Hto | ].
    assert (60 < 2 ^ 53)%Z by reflexivity. lia.
Qed.

Lemma pad_two_digits (s : Z) :
  (0 <= s < 60)%Z -> String.length (padStart0 2 (decimal_of_Z s)) = 2.
Proof.
  intro Hs.
  assert (Hall : forallb (fun n => Nat.eqb (String.length
                                              (padStart0 2 (decimal_of_Z (Z.of_nat n)))) 2)
                   (seq 0 60) = true) by (vm_compute; reflexivity).
  rewrite forallb_forall in Hall.
  specialize (Hall (Z.to_nat s) ltac:(apply in_seq; lia)).
  rewrite Z2Nat.id in Hall by lia. now apply Nat.eqb_eq.
Qed.

(** The first truncation of a quotient [q] of [A] by [B] and the rounding
    that follows: the result is not below the truncated quotient, and above
    [A / B] by at most half a unit of the new exponent. *)
Lemma round_after_shr_fexp (q e A B : Z) (l : location) :
  (0 <= q)%Z -> (0 < B)%Z -> (q * B <= A)%Z ->
  (l = loc_Inexact Eq \/ l = loc_Inexact Gt -> 2 * (q + 1) * B <= 2 * A + B)%Z ->
  let r := shr_fexp prec emax q e l in
  let m1 := round_nearest_even (shr_m (fst r)) (loc_of_shr_record (fst r)) in
  let n := (snd r - e)%Z in
  (0 <= n)%Z /\ (n = 0 \/ snd r = fexp prec emax (Zdigits2 q + e))%Z
  /\ (q / 2 ^ n <= m1)%Z
  /\ (2 * (m1 * 2 ^ n) * B <= 2 * A + 2 ^ n * B)%Z.
Proof.
  intros Hq HB HA Hl r m1 n. subst r m1 n. unfold shr_fexp, shr.
  destruct (fexp prec emax (Zdigits2 q + e) - e)%Z as [ | p | p] eqn:En;
    cbn [fst snd].
  1, 3: replace (e - e)%Z with 0%Z by lia; change (2 ^ 0)%Z with 1%Z;
    rewrite Z.div_1_r;
    (split; [ lia | ]); (split; [ now left | ]);
    destruct l as [ | [ | | ]];
    cbn [shr_record_of_loc loc_of_shr_record round_nearest_even shr_m];
    try (destruct (Z.even q));
    try (specialize (Hl (or_introl eq_refl)));
    try (specialize (Hl (or_intror eq_refl)));
    (split; [ lia | nia ]).
  replace (e + Zpos p - e)%Z with (Zpos p) by lia.
  split; [ lia | ]. split; [ right; lia | ].
  assert (Hpow : (0 < 2 ^ Zpos p)%Z) by (apply Z.pow_pos_nonneg; lia).
  set (mrs := iter_pos shr_1 p (shr_record_of_loc q l)).
  assert (Hm : shr_m mrs = (q / 2 ^ Zpos p)%Z).
  { subst mrs. rewrite iter_shr_1_m by (rewrite shr_record_of_loc_m; exact Hq).
    now rewrite shr_record_of_loc_m. }
  assert (Hr : shr_r mrs = Z.testbit q (Zpos p - 1)).
  { subst mrs. rewrite iter_shr_1_r by (rewrite shr_record_of_loc_m; exact Hq).
    now rewrite shr_record_of_loc_m. }
  assert (Hq0 : (0 <= q / 2 ^ Zpos p)%Z) by (apply Z.div_pos; lia).
  pose proof (Z.mul_div_le q (2 ^ Zpos p) Hpow) as Hle.
  assert (Hcases : round_nearest_even (shr_m mrs) (loc_of_shr_record mrs) = shr_m mrs
                   \/ (round_nearest_even (shr_m mrs) (loc_of_shr_record mrs)
                       = (shr_m mrs + 1)%Z /\ shr_r mrs = true)).
  { destruct mrs as [q' r' s']. cbn [shr_m shr_r loc_of_shr_record].
    destruct r', s'; cbn [loc_of_shr_record round_nearest_even]; auto.
    destruct (Z.even q'); auto. }
  destruct Hcases as [-> | [-> Hup]]; rewrite Hm.
  - split; [ lia | nia ].
  - split; [ lia | ].
    rewrite Hr in Hup. apply testbit_mod_ge in Hup; [ | lia ].
    pose proof (Z.div_mod q (2 ^ Zpos p) ltac:(lia)) as Hdm.
    assert (H2 : (2 * 2 ^ (Zpos p - 1) = 2 ^ Zpos p)%Z)
      by (rewrite <- Z.pow_succ_r by lia; f_equal; lia).
    nia.
Qed.

(** A truncation step at an exact location divides the mantissa by the
    power of two that the exponent gains. *)
Lemma shr_fexp_exact (m e : Z) :
  (0 <= m)%Z ->
  let r := shr_fexp prec emax m e loc_Exact in
  (e <= snd r)%Z
  /\ (snd r = e \/ snd r = fexp prec emax (Zdigits2 m + e))
  /\ shr_m (fst r) = (m / 2 ^ (snd r - e))%Z.
Proof.
  intros Hm r. subst r. unfold shr_fexp, shr.
  destruct (fexp prec emax (Zdigits2 m + e) - e)%Z as [ | p | p] eqn:En;
    cbn [fst snd shr_record_of_loc shr_m].
  1, 3: replace (e - e)%Z with 0%Z by lia; change (2 ^ 0)%Z with 1%Z;
    rewrite Z.div_1_r; (split; [ lia | ]); (split; [ now left | reflexivity ]).
  rewrite iter_shr_1_m by (cbn; exact Hm). cbn [shr_m].
  replace (e + Zpos p - e)%Z with (Zpos p) by lia.
  split; [ lia | ]. split; [ right; lia | reflexivity ].
Qed.

(** A mantissa below [2^d] has at most [d] digits. *)
Lemma Zdigits2_le (m d : Z) :
  (0 <= m < 2 ^ d)%Z -> (0 <= d)%Z -> (Zdigits2 m <= d)%Z.
Proof.
  intros [Hm0 Hm] Hd. destruct m as [ | p | p]; cbn [Zdigits2]; [ exact Hd | | lia ].
  pose proof (digits2_pos_bounds p) as [Hlo _].
  destruct (Z.le_gt_cases (Zpos (digits2_pos p)) d) as [ | Hgt]; [ assumption | ].
  assert (2 ^ d <= 2 ^ (Zpos (digits2_pos p) - 1))%Z by (apply Z.pow_le_mono_r; lia).
  lia.
Qed.

(** The integer part of a rounded quotient. [A / B] is the quotient that
    is rounded, with [q] for its integer part and [l] for the place of
    the rest, and [2^e] the weight of a unit of [q]; [k] is the integer
    part of the number that this stands for. When [k + 1] is above the
    quotient by more than half a unit of the exponent to which the
    rounding goes, the rounded number has the integer part [k]. *)
Lemma binary_round_aux_floor (q e A B k : Z) (l : location) :
  (0 <= q)%Z -> (0 < B)%Z -> (q * B <= A < (q + 1) * B)%Z ->
  (l = loc_Inexact Eq \/ l = loc_Inexact Gt -> 2 * (q + 1) * B <= 2 * A + B)%Z ->
  (e <= 0)%Z -> (0 <= k)%Z -> (k + 1 <= 2 ^ 53)%Z ->
  (k * (2 ^ (- e) * B) <= A)%Z ->
  (forall n, (0 <= n)%Z ->
             n = 0%Z \/ (e + n)%Z = fexp prec emax (Zdigits2 q + e) ->
             (e + n <= 0)%Z /\
             (2 * A + 2 ^ n * B < 2 * (k + 1) * (2 ^ (- e) * B))%Z) ->
  to_integer (Math_floor (binary_round_aux prec emax false q e l)) = Some k.
Proof.
  intros Hq HB HA Hl He Hk0 Hk53 HkA Hgap.
  pose proof (round_after_shr_fexp q e A B l Hq HB (proj1 HA) Hl) as H1.
  cbv zeta in H1. unfold binary_round_aux.
  destruct (shr_fexp prec emax q e l) as [mrs' e1]. cbn [fst snd] in H1.
  set (m1 := round_nearest_even (shr_m mrs') (loc_of_shr_record mrs')) in *.
  set (n := (e1 - e)%Z) in *.
  destruct H1 as (Hn & Hcase & Hlow & Hup).
  assert (Hcase' : n = 0%Z \/ (e + n)%Z = fexp prec emax (Zdigits2 q + e)).
  { destruct Hcase as [ | Hc]; [ now left | right ]. rewrite <- Hc. subst n. lia. }
  destruct (Hgap n Hn Hcase') as [He1 Hlt].
  assert (He1' : (e1 <= 0)%Z) by (subst n; lia).
  assert (Hpn : (0 < 2 ^ n)%Z) by (apply Z.pow_pos_nonneg; lia).
  assert (Hp1 : (0 < 2 ^ (- e1))%Z) by (apply Z.pow_pos_nonneg; lia).
  assert (HG : (2 ^ (- e) = 2 ^ n * 2 ^ (- e1))%Z)
    by (rewrite <- Z.pow_add_r by lia; f_equal; subst n; lia).
  (* the rounded mantissa, against [k] *)
  assert (Hm1up : (m1 < (k + 1) * 2 ^ (- e1))%Z).
  { rewrite HG in Hlt. nia. }
  assert (HqG : (k * 2 ^ (- e) <= q)%Z).
  { assert (k * 2 ^ (- e) < q + 1)%Z; [ | lia ]. nia. }
  assert (Hm1low : (k <= m1 / 2 ^ (- e1))%Z).
  { apply Z.le_trans with ((q / 2 ^ n) / 2 ^ (- e1))%Z.
    - rewrite Z.div_div by lia. rewrite <- HG.
      apply Z.div_le_lower_bound; [ apply Z.pow_pos_nonneg; lia | lia ].
    - apply Z.div_le_mono; [ lia | exact Hlow ]. }
  assert (Hm0 : (0 <= m1)%Z).
  { apply Z.le_trans with (2 := Hlow). apply Z.div_pos; lia. }
  (* the second truncation *)
  pose proof (shr_fexp_exact m1 e1 Hm0) as H2. cbv zeta in H2.
  destruct (shr_fexp prec emax m1 e1 loc_Exact) as [mrs'' e2]. cbn [fst snd] in H2.
  destruct H2 as (He12 & Hcase2 & Hm2).
  assert (He2 : (e2 <= 0)%Z).
  { destruct Hcase2 as [-> | ->]; [ exact He1' | ].
    assert (Hd : (Zdigits2 m1 <= 53 - e1)%Z).
    { apply Zdigits2_le; [ | lia ]. split; [ exact Hm0 | ].
      replace (53 - e1)%Z with (53 + - e1)%Z by lia.
      rewrite Z.pow_add_r by lia. nia. }
    unfold fexp, emin, prec, emax. lia. }
  assert (Hp2 : (0 < 2 ^ (- e2))%Z) by (apply Z.pow_pos_nonneg; lia).
  assert (Hp12 : (0 < 2 ^ (e2 - e1))%Z) by (apply Z.pow_pos_nonneg; lia).
  assert (Hfloor : (shr_m mrs'' / 2 ^ (- e2) = k)%Z).
  { rewrite Hm2, Z.div_div by lia.
    rewrite <- Z.pow_add_r by lia.
    replace (e2 - e1 + - e2)%Z with (- e1)%Z by lia.
    apply Z.le_antisymm; [ | exact Hm1low ].
    assert (m1 / 2 ^ (- e1) < k + 1)%Z; [ | lia ].
    apply Z.div_lt_upper_bound; lia. }
  assert (Hm2' : (0 <= shr_m mrs'')%Z) by (rewrite Hm2; apply Z.div_pos; lia).
  destruct (shr_m mrs'') as [ | m2 | m2] eqn:Em2; [ | | lia ].
  - cbn [Math_floor to_integer]. rewrite Zdiv_0_l in Hfloor. now subst k.
  - destruct (Z.leb_spec e2 (emax - prec)) as [ | Hout];
      [ | unfold emax, prec in Hout; lia ].
    unfold Math_floor. destruct (Z.leb_spec 0 e2) as [Hz | Hneg].
    + assert (e2 = 0%Z) by lia. subst e2. cbn [to_integer Z.leb cond_Zopp].
      change (- 0)%Z with 0%Z in Hfloor. change (2 ^ 0)%Z with 1%Z in *.
      rewrite Z.div_1_r in Hfloor. rewrite Z.mul_1_r. now rewrite Hfloor.
    + cbn [cond_Zopp]. rewrite Hfloor.
      change (binary_normalize prec emax k 0 false) with (of_Z k).
      apply of_Z_exact. lia.
Qed.

Lemma fexp_eq (z : Z) : fexp prec emax z = Z.max (z - 53) (-1074).
Proof. reflexivity. Qed.

Lemma SFdiv_core_60 (m : positive) (e : Z) :
  (Zpos m < 2 ^ 53)%Z -> (-1074 <= e)%Z ->
  let e' := Z.max (Zpos (digits2_pos m) + e - 59) (-1074) in
  let A := (Zpos m * 2 ^ (e + 47 - e'))%Z in
  SFdiv_core_binary prec emax (Zpos m) e 8444249301319680 (-47)
  = ((A / 8444249301319680)%Z, e', new_location 8444249301319680 (A mod 8444249301319680)).
Proof.
  intros Hm He e' A.
  pose proof (digits2_pos_bounds m) as [Hlo Hhi].
  unfold SFdiv_core_binary. cbn [Zdigits2].
  change (Zpos (digits2_pos 8444249301319680)) with 53%Z.
  cbv zeta.
  assert (Hd : (1 <= Zpos (digits2_pos m) <= 53)%Z).
  { split; [ lia | ]. apply (Zdigits2_le (Zpos m) 53); lia. }
  replace (Z.min (fexp prec emax (Zpos (digits2_pos m) + e - (53 + -47))) (e - -47))
    with e' by (subst e'; rewrite fexp_eq; lia).
  destruct (e - -47 - e')%Z as [ | s | s] eqn:Es; try (subst e'; lia).
  rewrite Z.shiftl_mul_pow2 by lia.
  replace (Zpos s) with (e + 47 - e')%Z by lia. fold A.
  unfold Z.div, Z.modulo.
  destruct (Z.div_eucl A 8444249301319680) as [q r]. reflexivity.
Qed.

(** [Math.floor(x / 60)] is the integer part of [x] divided by 60, for
    [x] below [2^53]: the rounding of the quotient does not reach the next
    integer. *)
Lemma floor_div_60 (m : positive) (e : Z) :
  (Zpos m < 2 ^ 53)%Z -> (-1074 <= e <= 971)%Z ->
  (integer_part (S754_finite false m e) < 2 ^ 53)%Z ->
  to_integer (Math_floor (Number_div (S754_finite false m e) (of_Z 60)))
  = Some (integer_part (S754_finite false m e) / 60)%Z.
Proof.
  intros Hm He HI.
  change (of_Z 60) with (S754_finite false 8444249301319680 (-47)).
  unfold Number_div, SFdiv. cbn [xorb].
  rewrite SFdiv_core_60 by lia.
  pose proof (digits2_pos_bounds m) as [Hlo Hhi].
  set (d := Zpos (digits2_pos m)) in *.
  set (e' := Z.max (d + e - 59) (-1074)).
  set (A := (Zpos m * 2 ^ (e + 47 - e'))%Z).
  set (B := 8444249301319680%Z).
  set (I := integer_part (S754_finite false m e)) in *.
  assert (Hd : (1 <= d <= 53)%Z).
  { split; [ subst d; lia | ]. apply (Zdigits2_le (Zpos m) 53); lia. }
  (* the number as [M * 2^g], with [g] not above 0 *)
  set (g := Z.min e 0).
  set (M := (Zpos m * 2 ^ (e - g))%Z).
  set (W := (2 ^ (- g))%Z).
  set (t := (g + 47 - e')%Z).
  assert (HW : (0 < W)%Z) by (apply Z.pow_pos_nonneg; subst g; lia).
  assert (HI' : I = (M / W)%Z).
  { subst I M W g. cbn [integer_part]. destruct (Z.leb_spec 0 e) as [Hpos | Hneg].
    - rewrite Z.min_r by lia. change (2 ^ (- 0))%Z with 1%Z.
      rewrite Z.div_1_r. now rewrite Z.sub_0_r.
    - rewrite Z.min_l by lia. replace (e - e)%Z with 0%Z by lia.
      change (2 ^ 0)%Z with 1%Z. now rewrite Z.mul_1_r. }
  assert (HM0 : (0 < M)%Z).
  { subst M. assert (0 < 2 ^ (e - g))%Z by (apply Z.pow_pos_nonneg; subst g; lia). lia. }
  assert (HM53 : (M < 2 ^ 53)%Z).
  { destruct (Z.le_gt_cases 0 e) as [Hpos | Hneg].
    - assert (Hg : g = 0%Z) by (subst g; lia).
      assert (W = 1%Z) by (subst W; rewrite Hg; reflexivity).
      rewrite HI' in HI. replace W with 1%Z in HI. now rewrite Z.div_1_r in HI.
    - assert (Hg : g = e) by (subst g; lia).
      subst M. rewrite Hg. replace (e - e)%Z with 0%Z by lia.
      change (2 ^ 0)%Z with 1%Z. lia. }
  assert (HdE : (d + e <= 53)%Z).
  { destruct (Z.le_gt_cases e 0) as [ | Hpos]; [ lia | ].
    assert (Hg : g = 0%Z) by (subst g; lia).
    assert (HMe : M = (Zpos m * 2 ^ e)%Z) by (subst M; rewrite Hg; f_equal; f_equal; lia).
    assert (H1 : (2 ^ (d - 1 + e) < 2 ^ 53)%Z).
    { rewrite Z.pow_add_r by lia.
      assert (0 < 2 ^ e)%Z by (apply Z.pow_pos_nonneg; lia). nia. }
    apply Z.pow_lt_mono_r_iff in H1; lia. }
  assert (He' : (-1074 <= e' <= -6)%Z) by (subst e'; lia).
  assert (Ht : (47 <= t)%Z) by (subst t e' g; lia).
  set (T := (2 ^ t)%Z).
  assert (HT : (0 < T)%Z) by (apply Z.pow_pos_nonneg; lia).
  assert (HA : A = (M * T)%Z).
  { subst A M T. rewrite <- Z.mul_assoc, <- Z.pow_add_r by (subst t g e'; lia).
    f_equal. f_equal. subst t. lia. }
  assert (HB : B = (60 * 2 ^ 47)%Z) by reflexivity.
  assert (HB52 : (2 ^ 52 <= B < 2 ^ 53)%Z) by (subst B; split; [ discriminate | reflexivity ]).
  assert (HGB : (2 ^ (- e') * B = 60 * W * T)%Z).
  { rewrite HB. subst W T.
    rewrite <- Z.mul_assoc, <- Z.pow_add_r by (subst t g e'; lia).
    replace (- g + t)%Z with (- e' + 47)%Z by (subst t; lia).
    rewrite Z.pow_add_r by lia. lia. }
  assert (HTt : (2 ^ t)%Z = T) by reflexivity.
  assert (HWg : (2 ^ (- g))%Z = W) by reflexivity.
  set (k := (I / 60)%Z).
  assert (Hk : k = (M / (60 * W))%Z).
  { subst k. rewrite HI', Z.div_div by lia. f_equal. lia. }
  assert (HI0 : (0 <= I)%Z) by (rewrite HI'; apply Z.div_pos; lia).
  assert (Hk0 : (0 <= k)%Z) by (subst k; apply Z.div_pos; lia).
  assert (HkI : (k <= I)%Z).
  { subst k. apply Z.div_le_upper_bound; lia. }
  assert (HkM : (k * (60 * W) <= M < (k + 1) * (60 * W))%Z).
  { rewrite Hk. pose proof (Z.div_mod M (60 * W) ltac:(lia)) as Hdm.
    pose proof (Z.mod_pos_bound M (60 * W) ltac:(lia)). lia. }
  assert (HBeven : Z.even B = true) by reflexivity.
  assert (HB0 : (0 < B)%Z) by lia.
  clearbody B T W M k I.
  pose proof (Z.div_mod A B ltac:(lia)) as HdmA.
  pose proof (Z.mod_pos_bound A B ltac:(lia)) as HmodA.
  assert (HA0 : (0 < A)%Z) by (rewrite HA; apply Z.mul_pos_pos; lia).
  assert (Hq0 : (0 <= A / B)%Z) by (apply Z.div_pos; lia).
  assert (HqB : (A / B * B <= A < (A / B + 1) * B)%Z) by lia.
  assert (HqT : (A / B < 2 * T)%Z).
  { assert (Hlt : (A / B * 2 ^ 52 < 2 ^ 53 * T)%Z).
    { apply Z.le_lt_trans with (A / B * B)%Z.
      - apply Z.mul_le_mono_nonneg_l; lia.
      - apply Z.le_lt_trans with A; [ lia | ].
        rewrite HA. apply Z.mul_lt_mono_pos_r; lia. }
    lia. }
  assert (HkA : (k * (2 ^ (- e') * B) <= A)%Z).
  { rewrite HGB, HA.
    replace (k * (60 * W * T))%Z with (k * (60 * W) * T)%Z by ring.
    apply Z.mul_le_mono_nonneg_r; lia. }
  (* what lacks to [k + 1] is at least [T] *)
  assert (Hlack : (A + T <= (k + 1) * (2 ^ (- e') * B))%Z).
  { rewrite HGB, HA.
    replace ((k + 1) * (60 * W * T))%Z with ((k + 1) * (60 * W) * T)%Z by ring.
    replace (M * T + T)%Z with ((M + 1) * T)%Z by ring.
    apply Z.mul_le_mono_nonneg_r; lia. }
  apply binary_round_aux_floor with (A := A) (B := B);
    [ exact Hq0 | exact HB0 | exact HqB | | lia | exact Hk0 | lia | exact HkA | ].
  - (* the place of the rest *)
    unfold new_location. rewrite HBeven. unfold new_location_even.
    destruct (Z.eqb_spec (A mod B) 0) as [ | _];
      [ intros [H | H]; discriminate H | ].
    destruct (Z.compare_spec (2 * (A mod B)) B) as [Heq | Hlt | Hgt];
      intros [H | H]; try discriminate H; lia.
  - (* half a unit of the rounding is less than what lacks to [k + 1] *)
    intros n Hn Hcase.
    assert (Hpn : (0 < 2 ^ n)%Z) by (apply Z.pow_pos_nonneg; lia).
    destruct (Z.le_gt_cases (-1069) e) as [Hbig | Htiny].
    + assert (Hen : (e' + n <= g - 5)%Z).
      { destruct Hcase as [-> | ->]; [ subst e' g; lia | ].
        rewrite fexp_eq.
        assert (Hdq : (Zdigits2 (A / B) <= t + 1)%Z).
        { apply Zdigits2_le; [ | lia ]. split; [ exact Hq0 | ].
          rewrite Z.pow_add_r by lia. rewrite HTt. lia. }
        subst t g. lia. }
      split; [ subst g; lia | ].
      assert (Hnt : (2 ^ n * 2 ^ 53 <= 2 * T)%Z).
      { rewrite <- HTt. rewrite <- Z.pow_add_r, <- Z.pow_succ_r by lia.
        apply Z.pow_le_mono_r; [ lia | ]. subst t. lia. }
      assert (HnB : (2 ^ n * B < 2 ^ n * 2 ^ 53)%Z)
        by (apply Z.mul_lt_mono_pos_l; lia).
      lia.
    + (* a number below [2^-1016]: no shift, and [k] is 0 *)
      assert (Hg : g = e) by (subst g; lia).
      assert (He'' : e' = (-1074)%Z) by (subst e'; lia).
      assert (Ht' : (t <= 51)%Z) by (subst t; lia).
      assert (HT51 : (T <= 2 ^ 51)%Z) by (rewrite <- HTt; apply Z.pow_le_mono_r; lia).
      assert (Hn0 : n = 0%Z).
      { destruct Hcase as [-> | Hc]; [ reflexivity | ].
        rewrite fexp_eq in Hc.
        assert (Hdq : (Zdigits2 (A / B) <= 52)%Z).
        { apply Zdigits2_le; [ | lia ]. split; [ exact Hq0 | ].
          change (2 ^ 52)%Z with (2 * 2 ^ 51)%Z. lia. }
        lia. }
      subst n. split; [ lia | ]. change (2 ^ 0)%Z with 1%Z.
      assert (HW53 : (2 ^ 53 <= W)%Z).
      { rewrite <- HWg. apply Z.pow_le_mono_r; lia. }
      assert (Hk0' : k = 0%Z).
      { rewrite Hk. apply Z.div_small. lia. }
      rewrite Hk0', HGB. 
      assert (H1 : (2 ^ 53 * T <= W * T)%Z) by (apply Z.mul_le_mono_nonneg_r; lia).
      assert (H2 : (A < 2 ^ 53 * T)%Z) by (rewrite HA; apply Z.mul_lt_mono_pos_r; lia).
      assert (H3 : (B < 2 ^ 53 * T)%Z).
      { apply Z.lt_le_trans with (2 ^ 53 * 1)%Z; [ lia | ].
        apply Z.mul_le_mono_nonneg_l; lia. }
      lia.
Qed.

(** [x % 1] is a number that is at least 0 and below 1. *)
Lemma remainder_1_in_unit_interval (m : positive) (e : Z) :
  (Zpos m < 2 ^ 53)%Z -> (-1074 <= e <= 971)%Z ->
  in_unit_interval (Number_remainder (S754_finite false m e) (of_Z 1)).
Proof.
  intros Hm He.
  change (of_Z 1) with (S754_finite false 4503599627370496 (-52)).
  cbn [Number_remainder cond_Zopp].
  set (e0 := Z.min e (-52)).
  set (N := (Zpos m * 2 ^ (e - e0))%Z).
  set (D := (4503599627370496 * 2 ^ (-52 - e0))%Z).
  assert (He0 : (-1074 <= e0 <= -52)%Z) by (subst e0; lia).
  assert (HD : D = (2 ^ (- e0))%Z).
  { subst D. change 4503599627370496%Z with (2 ^ 52)%Z.
    rewrite <- Z.pow_add_r by lia. f_equal. lia. }
  assert (HD0 : (0 < D)%Z) by (rewrite HD; apply Z.pow_pos_nonneg; lia).
  assert (HN0 : (0 < N)%Z).
  { subst N. assert (0 < 2 ^ (e - e0))%Z by (apply Z.pow_pos_nonneg; subst e0; lia). lia. }
  assert (Hrem : Z.rem N D = (N mod D)%Z) by (apply Z.rem_mod_nonneg; lia).
  rewrite Hrem.
  assert (Hr : (0 <= N mod D < D)%Z) by (apply Z.mod_pos_bound; lia).
  assert (Hr53 : (N mod D < 2 ^ 53)%Z).
  { destruct (Z.le_gt_cases e (-52)) as [Hsmall | Hlarge].
    - assert (E0 : e0 = e) by (subst e0; lia).
      assert (HNm : N = Zpos m).
      { subst N. rewrite E0. replace (e - e)%Z with 0%Z by lia.
        change (2 ^ 0)%Z with 1%Z. lia. }
      pose proof (Z.mod_le N D ltac:(lia) ltac:(lia)). lia.
    - assert (E0 : e0 = (-52)%Z) by (subst e0; lia).
      assert (D < 2 ^ 53)%Z; [ | lia ].
      rewrite HD, E0. reflexivity. }
  destruct (N mod D)%Z as [ | r | r] eqn:Er; [ now left | | lia ].
  right. cbn [binary_normalize].
  destruct (binary_round_exact false r e0 Hr53 ltac:(lia))
    as (m' & e' & -> & He' & Hm' & Hm53).
  exists m', e'. split; [ reflexivity | ]. split; [ exact Hm53 | ].
  rewrite Hm'.
  replace (- e')%Z with (- e0 + (e0 - e'))%Z by lia.
  rewrite Z.pow_add_r, <- HD by lia.
  apply Z.mul_lt_mono_pos_r; [ apply Z.pow_pos_nonneg; lia | lia ].
Qed.

(** X22. [formatTime] shows 00:00 for NaN, for the infinities and for a
    negative number. For every other binary64 number below [2^53] it shows
    the integer part of the time divided by 60, then a colon, then that
    integer part modulo 60, each in decimal digits and padded to two
    places: neither [Math.floor(seconds / 60)] nor [seconds % 60] suffers
    from the rounding. For these times [formatLyricsTime] writes the same
    minutes and seconds, then a dot and two digits for a number of
    hundredths between 0 and 99. *)
Theorem formatTime_minutes_seconds (x : number) (Hx : is_binary64 x) :
  (isFinite x = false \/ js_lt x pos_zero = true -> formatTime x = Some "00:00")
  /\ (isFinite x = true -> js_lt x pos_zero = false ->
      (integer_part x < 2 ^ 53)%Z ->
      let mins := padStart0 2 (decimal_of_Z (integer_part x / 60)) in
      let secs := padStart0 2 (decimal_of_Z (integer_part x mod 60)) in
      String.length secs = 2
      /\ formatTime x = Some (mins ++ ":" ++ secs)%string
      /\ exists f,
           (0 <= f < 100)%Z /\
           formatLyricsTime x
           = Some (mins ++ ":" ++ secs ++ "." ++ padStart0 2 (decimal_of_Z f))%string).
Proof.
  split.
  - intros [H | H]; unfold formatTime; rewrite H; [ reflexivity | ].
    now rewrite orb_true_r.
  - intros Hfin Hneg Hint mins secs.
    split.
    { subst secs. apply pad_two_digits. apply Z.mod_pos_bound. lia. }
    destruct x as [s | s | | s m e]; try discriminate Hfin.
    { split; [ now destruct s | ]. exists 0%Z. split; [ lia | now destruct s ]. }
    destruct s.
    { unfold js_lt, pos_zero in Hneg. cbn [Number_compare mant_exp cond_Zopp] in Hneg.
      rewrite compare_scaled_zero_r in Hneg. discriminate Hneg. }
    destruct Hx as [Hm He].
    set (x := S754_finite false m e) in *.
    assert (Hint0 : (0 <= integer_part x)%Z).
    { subst x. cbn [integer_part]. destruct (Z.leb_spec 0 e).
      - apply Z.mul_nonneg_nonneg; [ lia | apply Z.pow_nonneg; lia ].
      - apply Z.div_pos; [ lia | apply Z.pow_pos_nonneg; lia ]. }
    assert (Hmins : Number_toString (Math_floor (Number_div x (of_Z 60)))
                    = Some (decimal_of_Z (integer_part x / 60))).
    { apply Number_toString_integer; [ now apply floor_div_60 | ].
      split; [ apply Z.div_pos; lia | ].
      apply Z.le_lt_trans with (2 := Hint). apply Z.div_le_upper_bound; lia. }
    assert (Hsecs : Number_toString (Math_floor (Number_remainder x (of_Z 60)))
                    = Some (decimal_of_Z (integer_part x mod 60)))
      by now apply floor_remainder_60.
    split.
    + unfold formatTime. rewrite Hfin, Hneg. cbn [negb orb].
      now rewrite Hmins, Hsecs.
    + destruct (Math_floor_random (Number_remainder x (of_Z 1)) 100) as (f & Hf & Hrange).
      { now apply remainder_1_in_unit_interval. }
      { split; reflexivity. }
      exists f. split; [ exact Hrange | ].
      unfold formatLyricsTime. rewrite Hmins, Hsecs.
      rewrite (Number_toString_integer _ f Hf); [ reflexivity | ].
      assert (100 < 2 ^ 53)%Z by reflexivity. lia.
Qed.

Lemma formatTime_minutes_seconds_witness :
  formatTime (of_Z 125) = Some "02:05".
Proof.
  assert (Hvalid : is_binary64 (of_Z 125)).
  { vm_compute. split; [ reflexivity | split; discriminate ]. }
  destruct (proj2 (formatTime_minutes_seconds (of_Z 125) Hvalid) eq_refl eq_refl)
    as (_ & Hstr & _).
  - vm_compute. reflexivity.
  - exact Hstr.
Defined.

(* ----------------------------------------------------------------- *)
(** ** What a parse leaves in [lastIndex] *)

(** A line adds nothing and leaves [lastIndex], or it adds entries and
    puts [lastIndex] back to 0. *)
Lemma parse_line_lastIndex (st : RegExpState) (acc : list LyricsLine) (line : string) :
  (snd (parse_line (st, acc) line) = acc
   /\ lrc_lastIndex (fst (parse_line (st, acc) line)) = lrc_lastIndex st)
  \/
  (lrc_lastIndex (fst (parse_line (st, acc) line)) = 0
   /\ length acc < length (snd (parse_line (st, acc) line))).
Proof.
  unfold parse_line. cbn [String_replace_empty lrc_lastIndex meta_lastIndex].
  destruct (is_empty _); [ left; now split | ].
  destruct (String_matchAll LRC_TIMESTAMP_REGEX line (lrc_lastIndex st)) as [ | m ms];
    [ left; now split | ].
  right. cbn [fst snd lrc_lastIndex]. split; [ reflexivity | ].
  rewrite length_app. cbn [map length]. lia.
Qed.

Lemma fold_parse_line_lastIndex (lines : list string) :
  forall st acc,
    (snd (fold_left parse_line lines (st, acc)) = acc
     /\ lrc_lastIndex (fst (fold_left parse_line lines (st, acc))) = lrc_lastIndex st)
    \/
    (lrc_lastIndex (fst (fold_left parse_line lines (st, acc))) = 0
     /\ length acc < length (snd (fold_left parse_line lines (st, acc)))).
Proof.
  induction lines as [ | line lines IH]; intros st acc; [ left; now split | ].
  cbn [fold_left].
  destruct (parse_line_lastIndex st acc line) as [[Hacc Hli] | [Hli Hlen]];
    destruct (parse_line (st, acc) line) as [st1 acc1]; cbn [fst snd] in *.
  - subst acc1. rewrite <- Hli. apply IH.
  - right.
    destruct (fold_parse_line_from_zero lines st1 acc1 Hli) as [H0 Hall].
    split; [ exact H0 | ]. rewrite Hall, length_app. lia.
Qed.

(** X23. A call of [parseLrcLyrics] that returns at least one line leaves
    [LRC_TIMESTAMP_REGEX.lastIndex] at 0, whatever it was before, so that
    the next call reads its text from the start of every line; a call that
    returns no line leaves [lastIndex] as it found it. *)
Theorem parseLrcLyrics_leaves_lastIndex (st : RegExpState) (lrcText : string) :
  (fst (parseLrcLyrics st lrcText) <> [] ->
   lrc_lastIndex (snd (parseLrcLyrics st lrcText)) = 0)
  /\ (fst (parseLrcLyrics st lrcText) = [] ->
      lrc_lastIndex (snd (parseLrcLyrics st lrcText)) = lrc_lastIndex st).
Proof.
  unfold parseLrcLyrics. destruct (is_empty lrcText).
  { split; [ intro H; now contradiction H | reflexivity ]. }
  pose proof (fold_parse_line_lastIndex (split_lines lrcText) st []) as H.
  destruct (fold_left parse_line (split_lines lrcText) (st, [])) as [st' parsed].
  cbn [fst snd] in *.
  pose proof (Array_sort_perm parsed) as Hperm.
  destruct H as [[-> Hli] | [Hli Hlen]].
  - split; [ intro H; now contradiction H | intros _; exact Hli ].
  - split; [ intros _; exact Hli | ].
    intro Hnil. rewrite Hnil in Hperm. apply Permutation_length in Hperm.
    cbn [length] in *. lia.
Qed.
